(** * Shallow embedding of the short-rate pricing engine and hedging simulator

    Sources: [src/models/interest_rate/cir.py], [src/models/derivatives/option_pricing.py],
    [src/instruments/caps_floors.py], [src/arbitrage/bond_pricing.py],
    [src/arbitrage/opportunities.py] and [src/hedging/simulation.py].

    Python/NumPy floats are modelled by real numbers (no rounding, no overflow).
    Where NaN and infinities matter (inside the Black formula) we use [f64], the
    reals extended with [PInf], [NInf] and [NaN] and the IEEE rules for them
    (signed zeros are not distinguished).  Python exceptions are the [Err] case
    of the result type [res]. *)

From Stdlib Require Import Reals Lra Lia List ZArith Sorting.Mergesort Sorting.Permutation
  Sorting.Sorted.
Import ListNotations.
Open Scope R_scope.

(** ** Exceptions *)

Inductive exn := ZeroDivisionError | ValueError | IndexError.

Inductive res (A : Type) : Type :=
| Ok : A -> res A
| Err : exn -> res A.
Arguments Ok {A} _.
Arguments Err {A} _.

Definition bind {A B} (m : res A) (k : A -> res B) : res B :=
  match m with Ok a => k a | Err e => Err e end.

Notation "x <- m ;; k" := (bind m (fun x => k))
  (at level 61, m at next level, right associativity).

(** Python's [/] on two [float]s: raises [ZeroDivisionError] on a zero divisor. *)
Definition py_div (x y : R) : res R :=
  if Req_EM_T y 0 then Err ZeroDivisionError else Ok (x / y).

(** Python's [int()] on a float (truncation toward zero). *)
Definition py_int (x : R) : Z :=
  if Rle_dec 0 x then Int_part x else (- Int_part (- x))%Z.

(** Ceiling, as NumPy uses it for the length of [np.arange]. *)
Definition Rceil (x : R) : Z := (- Int_part (- x))%Z.

(** [NPY_MAX_INTP] on a 64-bit platform. *)
Definition max_intp : Z := (2 ^ 63 - 1)%Z.

(** [np.arange(start, stop, step)] on floats (a [float64] array).  The length
    is [len = ceil((stop - start) / step)], computed with the Python division
    [(stop - start) / step], so a zero step raises [ZeroDivisionError].  A
    length outside the [intp] range ([-2**63 <= len <= 2**63], the bounds as
    doubles) raises [ValueError] ("Maximum allowed size exceeded"); a length
    that is not positive gives an empty array; a positive length whose byte
    size [8 * len] exceeds [NPY_MAX_INTP] raises [ValueError] ("array is too
    big").  Otherwise the array holds the [len] points [start + i * step].
    A [MemoryError] for an in-range size the machine cannot allocate is not
    modelled. *)
Definition arange (start stop step : R) : res (list R) :=
  if Req_EM_T step 0 then Err ZeroDivisionError
  else
    let len := Rceil ((stop - start) / step) in
    if orb (Z.ltb len (- 2 ^ 63)) (Z.ltb (2 ^ 63) len) then Err ValueError
    else if Z.leb len 0 then Ok []
    else if Z.ltb max_intp (8 * len) then Err ValueError
    else Ok (map (fun i => start + INR i * step) (seq 0 (Z.to_nat len))).

(** ** IEEE-style floats: finite reals, infinities and NaN *)

Inductive f64 := Fin (x : R) | PInf | NInf | NaN.

Definition fneg (a : f64) : f64 :=
  match a with Fin x => Fin (- x) | PInf => NInf | NInf => PInf | NaN => NaN end.

Definition fadd (a b : f64) : f64 :=
  match a, b with
  | NaN, _ | _, NaN => NaN
  | PInf, NInf | NInf, PInf => NaN
  | PInf, _ | _, PInf => PInf
  | NInf, _ | _, NInf => NInf
  | Fin x, Fin y => Fin (x + y)
  end.

Definition fsub (a b : f64) : f64 := fadd a (fneg b).

(** Sign of a non-NaN value: [Some true] positive, [Some false] negative,
    [None] zero. *)
Definition fsign (a : f64) : option bool :=
  match a with
  | Fin x => if Rlt_dec 0 x then Some true else if Rlt_dec x 0 then Some false else None
  | PInf => Some true
  | NInf => Some false
  | NaN => None
  end.

Definition inf_of (pos : bool) : f64 := if pos then PInf else NInf.

Definition fmul (a b : f64) : f64 :=
  match a, b with
  | NaN, _ | _, NaN => NaN
  | Fin x, Fin y => Fin (x * y)
  | _, _ =>
      match fsign a, fsign b with
      | Some sa, Some sb => inf_of (Bool.eqb sa sb)
      | _, _ => NaN            (* infinity times zero *)
      end
  end.

Definition fdiv (a b : f64) : f64 :=
  match a, b with
  | NaN, _ | _, NaN => NaN
  | Fin x, Fin y =>
      if Req_EM_T y 0 then
        match fsign a with Some sa => inf_of sa | None => NaN end
      else Fin (x / y)
  | Fin _, _ => Fin 0
  | _, Fin y =>
      match fsign a, fsign b with
      | Some sa, Some sb => inf_of (Bool.eqb sa sb)
      | Some sa, None => inf_of sa
      | _, _ => NaN
      end
  | _, _ => NaN                (* infinity over infinity *)
  end.

(** [np.log] *)
Definition flog (a : f64) : f64 :=
  match a with
  | Fin x => if Rlt_dec 0 x then Fin (ln x) else if Req_EM_T x 0 then NInf else NaN
  | PInf => PInf
  | NInf | NaN => NaN
  end.

(** ** The standard normal distribution function ([scipy.stats.norm.cdf]) *)

Definition gauss_density (t : R) : R := exp (- (t * t) / 2).

Definition gauss_density_continuity : continuity gauss_density.
Proof. unfold gauss_density. reg. Defined.

(** [gauss_mass y] is [1/sqrt(2 pi)] times the integral of the density over
    [[0, y]] for [y >= 0], and [0] otherwise. *)
Definition gauss_mass (y : R) : R :=
  match Rle_dec 0 y with
  | left H =>
      / sqrt (2 * PI) *
      RiemannInt (@continuity_implies_RiemannInt gauss_density 0 y H
                    (fun x _ => gauss_density_continuity x))
  | right _ => 0
  end.

Definition Phi (x : R) : R :=
  if Rle_dec 0 x then / 2 + gauss_mass x else / 2 - gauss_mass (- x).

Definition norm_cdf (a : f64) : f64 :=
  match a with
  | Fin x => Fin (Phi x)
  | PInf => Fin 1
  | NInf => Fin 0
  | NaN => NaN
  end.

(** ** Black formulas ([option_pricing.py]) *)

(** The Python type of a float value: a built-in [float] or NumPy's
    [np.float64]. *)
Inductive ftype := PyFloat | NpFloat64.

(** [x / y] for floats of types [tx] and [ty]: between two Python floats a
    zero divisor raises [ZeroDivisionError]; as soon as one operand is an
    [np.float64] the IEEE quotient is returned (an infinity or NaN, with a
    warning only). *)
Definition float_div (tx ty : ftype) (x y : R) : res f64 :=
  match tx, ty with
  | PyFloat, PyFloat => q <- py_div x y ;; Ok (Fin q)
  | _, _ => Ok (fdiv (Fin x) (Fin y))
  end.

(** [d1 = (np.log(F / K) + (vol**2 / 2) * tau) / (vol * np.sqrt(tau))], where
    [q] is the already computed quotient [F / K]. *)
Definition black_d1 (q : f64) (vol tau : R) : f64 :=
  fdiv (fadd (flog q) (Fin (vol ^ 2 / 2 * tau))) (Fin (vol * sqrt tau)).

(** [d2 = d1 - vol * np.sqrt(tau)] *)
Definition black_d2 (d1 : f64) (vol tau : R) : f64 := fsub d1 (Fin (vol * sqrt tau)).

(** [CapFloorPricer.black_price_caplet]; [forward_type] and [strike_type] are
    the Python types of [forward_rate] and [strike]. *)
Definition black_price_caplet (forward_type strike_type : ftype)
    (forward_rate strike time_to_maturity volatility
    discount_factor notional delta_t : R) : res f64 :=
  if Rle_dec time_to_maturity 0 then
    Ok (Fin (Rmax 0 (forward_rate - strike) * discount_factor * notional * delta_t))
  else
    q <- float_div forward_type strike_type forward_rate strike ;;
    let d1 := black_d1 q volatility time_to_maturity in
    let d2 := black_d2 d1 volatility time_to_maturity in
    Ok (fmul (Fin (discount_factor * notional * delta_t))
             (fsub (fmul (Fin forward_rate) (norm_cdf d1))
                   (fmul (Fin strike) (norm_cdf d2)))).

(** [CapFloorPricer.black_price_floorlet] *)
Definition black_price_floorlet (forward_type strike_type : ftype)
    (forward_rate strike time_to_maturity volatility
    discount_factor notional delta_t : R) : res f64 :=
  if Rle_dec time_to_maturity 0 then
    Ok (Fin (Rmax 0 (strike - forward_rate) * discount_factor * notional * delta_t))
  else
    q <- float_div forward_type strike_type forward_rate strike ;;
    let d1 := black_d1 q volatility time_to_maturity in
    let d2 := black_d2 d1 volatility time_to_maturity in
    Ok (fmul (Fin (discount_factor * notional * delta_t))
             (fsub (fmul (Fin strike) (norm_cdf (fneg d2)))
                   (fmul (Fin forward_rate) (norm_cdf (fneg d1))))).

(** [SwaptionPricer.black_price] *)
Definition black_price (forward_type strike_type : ftype)
    (forward_swap_rate strike swap_annuity time_to_expiry volatility : R)
    (is_payer : bool) : res f64 :=
  if Rle_dec time_to_expiry 0 then
    if is_payer then Ok (Fin (Rmax 0 (forward_swap_rate - strike) * swap_annuity))
    else Ok (Fin (Rmax 0 (strike - forward_swap_rate) * swap_annuity))
  else
    q <- float_div forward_type strike_type forward_swap_rate strike ;;
    let d1 := black_d1 q volatility time_to_expiry in
    let d2 := black_d2 d1 volatility time_to_expiry in
    if is_payer then
      Ok (fmul (Fin swap_annuity)
               (fsub (fmul (Fin forward_swap_rate) (norm_cdf d1))
                     (fmul (Fin strike) (norm_cdf d2))))
    else
      Ok (fmul (Fin swap_annuity)
               (fsub (fmul (Fin strike) (norm_cdf (fneg d2)))
                     (fmul (Fin forward_swap_rate) (norm_cdf (fneg d1))))).

(** ** Rate models *)

(** The rate-model interface the pricers and the simulator use: the mutable
    fields [r0], [timesteps], [time_horizon] and [dt], and the model-specific
    closed forms.  Modelled from the spec: the base class [InterestRateModel]
    ([base_model.py], not in the sources) stores [r0], the parameters,
    [timesteps], [time_horizon] and [dt = time_horizon / timesteps] at
    construction, and provides [forward_rate]. *)
Record RateModel := mkRateModel {
  r0 : R;
  timesteps : nat;
  time_horizon : R;
  dt : R;
  forward_rate : R -> R -> R -> R -> res R;
  zero_coupon_bond_price : R -> R -> R -> res R
}.

Definition set_r0 (m : RateModel) (r : R) : RateModel :=
  mkRateModel r (timesteps m) (time_horizon m) (dt m) (forward_rate m)
    (zero_coupon_bond_price m).

Definition set_horizon (m : RateModel) (th : R) (ts : nat) : RateModel :=
  mkRateModel (r0 m) ts th (dt m) (forward_rate m) (zero_coupon_bond_price m).

(** [1e-10] *)
Definition eps10 : R := / 10 ^ 10.

(** ** Caps and floors ([CapFloorPricer.price_cap] / [price_floor]) *)

Section CapFloor.
Variable m : RateModel.
Variables (valuation_date strike payment_frequency notional : R).
Variable volatility : option R.

Definition vol_used : R := match volatility with Some v => v | None => 0.2 end.

(** The loop over [enumerate(payment_dates)]; [fixing_start] is the start date
    for the first period and the previous payment date afterwards. *)
Fixpoint cap_loop (pricelet : R -> R -> R -> R -> R -> R -> R -> res f64)
    (current_rate fixing_start : R) (dates : list R) (acc : f64) : res f64 :=
  match dates with
  | [] => Ok acc
  | payment_date :: rest =>
      fwd <- forward_rate m valuation_date fixing_start payment_date current_rate ;;
      df <- zero_coupon_bond_price m valuation_date payment_date current_rate ;;
      let time_to_fixing := Rmax 0 (fixing_start - valuation_date) in
      p <- pricelet fwd strike time_to_fixing vol_used df notional payment_frequency ;;
      cap_loop pricelet current_rate payment_date rest (fadd acc p)
  end.

(** [price_cap] and [price_floor].  The forward rates the rate models return
    are [np.float64] values (computed from [np.exp] discount factors), so the
    quotient [forward_rate / strike] in the Black formulas follows IEEE
    whatever the type of [strike]. *)
Definition price_cap (start_date end_date : R) : res f64 :=
  payment_dates <- arange (start_date + payment_frequency) (end_date + eps10)
                          payment_frequency ;;
  cap_loop (black_price_caplet NpFloat64 PyFloat) (r0 m) start_date payment_dates (Fin 0).

Definition price_floor (start_date end_date : R) : res f64 :=
  payment_dates <- arange (start_date + payment_frequency) (end_date + eps10)
                          payment_frequency ;;
  cap_loop (black_price_floorlet NpFloat64 PyFloat) (r0 m) start_date payment_dates (Fin 0).

(** The claim's right-hand side: the discounted forward-minus-strike cash flows
    [sum_i DF_i * notional * payment_frequency * (F_i - K)] over the same
    periods. *)
Fixpoint forward_cashflows (current_rate fixing_start : R) (dates : list R) : res R :=
  match dates with
  | [] => Ok 0
  | payment_date :: rest =>
      fwd <- forward_rate m valuation_date fixing_start payment_date current_rate ;;
      df <- zero_coupon_bond_price m valuation_date payment_date current_rate ;;
      s <- forward_cashflows current_rate payment_date rest ;;
      Ok (df * notional * payment_frequency * (fwd - strike) + s)
  end.

Definition discounted_forward_minus_strike (start_date end_date : R) : res R :=
  payment_dates <- arange (start_date + payment_frequency) (end_date + eps10)
                          payment_frequency ;;
  forward_cashflows (r0 m) start_date payment_dates.

End CapFloor.

(** The fixing periods [(d_{i-1}, d_i)] of a schedule, with [d_0] the start. *)
Fixpoint periods (fixing_start : R) (dates : list R) : list (R * R) :=
  match dates with
  | [] => []
  | d :: rest => (fixing_start, d) :: periods d rest
  end.

(** ** Cap, Floor and Collar instruments ([caps_floors.py]), with dates as
    floats (year fractions) *)

Record Cap := mkCap {
  cap_start_date : R;
  cap_maturity_date : R;
  cap_strike : R;
  cap_payment_frequency : R;
  cap_notional : R;
  cap_payment_dates : list R
}.

(** [Cap.__init__] and [generate_payment_schedule] (the float branch):
    [np.arange(start_date + payment_frequency, maturity_date + 1e-10,
    payment_frequency)]. *)
Definition Cap_init (start_date maturity_date strike payment_frequency notional : R)
    : res Cap :=
  payment_dates <- arange (start_date + payment_frequency) (maturity_date + eps10)
                          payment_frequency ;;
  Ok (mkCap start_date maturity_date strike payment_frequency notional payment_dates).

(** [Cap.price(pricer, valuation_date, volatility)]: delegates to
    [pricer.price_cap]; the pricer is a [CapFloorPricer] on the model [m]. *)
Definition Cap_price (c : Cap) (m : RateModel) (valuation_date : R) (volatility : option R)
    : res f64 :=
  price_cap m valuation_date (cap_strike c) (cap_payment_frequency c) (cap_notional c)
    volatility (cap_start_date c) (cap_maturity_date c).

Record Floor := mkFloor {
  floor_start_date : R;
  floor_maturity_date : R;
  floor_strike : R;
  floor_payment_frequency : R;
  floor_notional : R;
  floor_payment_dates : list R
}.

(** [Floor.__init__] and [generate_payment_schedule] (the float branch). *)
Definition Floor_init (start_date maturity_date strike payment_frequency notional : R)
    : res Floor :=
  payment_dates <- arange (start_date + payment_frequency) (maturity_date + eps10)
                          payment_frequency ;;
  Ok (mkFloor start_date maturity_date strike payment_frequency notional payment_dates).

(** [Floor.price(pricer, valuation_date, volatility)] *)
Definition Floor_price (f : Floor) (m : RateModel) (valuation_date : R)
    (volatility : option R) : res f64 :=
  price_floor m valuation_date (floor_strike f) (floor_payment_frequency f)
    (floor_notional f) volatility (floor_start_date f) (floor_maturity_date f).

Record Collar := mkCollar { collar_cap : Cap; collar_floor : Floor }.

(** [Collar.__init__]: a cap and a floor on the same dates. *)
Definition Collar_init (start_date maturity_date cap_strike floor_strike
    payment_frequency notional : R) : res Collar :=
  cap <- Cap_init start_date maturity_date cap_strike payment_frequency notional ;;
  floor <- Floor_init start_date maturity_date floor_strike payment_frequency notional ;;
  Ok (mkCollar cap floor).

(** [Collar.price]: long cap, short floor. *)
Definition Collar_price (co : Collar) (m : RateModel) (valuation_date : R)
    (volatility : option R) : res f64 :=
  cap_price <- Cap_price (collar_cap co) m valuation_date volatility ;;
  floor_price <- Floor_price (collar_floor co) m valuation_date volatility ;;
  Ok (fsub cap_price floor_price).

(** ** Swaptions ([SwaptionPricer.price]) *)

Section Swaption.
Variable m : RateModel.
(** [swap_pricer.par_rate(start, end, frequency)]: the injected swap pricer
    ([swaps.py] is not in the sources); [par_rate_type] is the Python type of
    the rates it returns and [strike_type] that of the strike passed in. *)
Variable par_rate : R -> R -> R -> res R.
Variables par_rate_type strike_type : ftype.

Fixpoint annuity_loop (valuation_date current_rate payment_frequency notional : R)
    (dates : list R) (acc : R) : res R :=
  match dates with
  | [] => Ok acc
  | payment_date :: rest =>
      df <- zero_coupon_bond_price m valuation_date payment_date current_rate ;;
      annuity_loop valuation_date current_rate payment_frequency notional rest
        (acc + payment_frequency * df * notional)
  end.

Definition swaption_price (valuation_date expiry_date underlying_swap_start
    underlying_swap_end strike payment_frequency notional : R)
    (volatility : option R) (is_payer : bool) : res f64 :=
  if Rlt_dec expiry_date underlying_swap_start then Err ValueError
  else
    let current_rate := r0 m in
    let time_to_expiry := Rmax 0 (expiry_date - valuation_date) in
    forward_swap_rate <- par_rate underlying_swap_start underlying_swap_end
                                  payment_frequency ;;
    payment_dates <- arange (underlying_swap_start + payment_frequency)
                            (underlying_swap_end + eps10) payment_frequency ;;
    swap_annuity <- annuity_loop valuation_date current_rate payment_frequency notional
                                 payment_dates 0 ;;
    let vol := match volatility with Some v => v | None => 0.2 end in
    black_price par_rate_type strike_type forward_swap_rate strike swap_annuity
      time_to_expiry vol is_payer.

End Swaption.

(** ** The square-root (CIR) model ([cir.py]) *)

Record CIRParams := mkCIRParams { kappa : R; theta : R; sigma : R }.

(** [CIR.zero_coupon_bond_price].  [2 * kappa * theta / sigma**2] is a
    division of Python floats (the parameters); the other quotients involve
    NumPy results. *)
Definition cir_zero_coupon_bond_price (p : CIRParams) (t T r : R) : res R :=
  if Rge_dec t T then Ok 1
  else
    let h := sqrt (kappa p ^ 2 + 2 * sigma p ^ 2) in
    let tau := T - t in
    let A_num := 2 * h * exp ((kappa p + h) * tau / 2) in
    let A_denom := 2 * h + (kappa p + h) * (exp (h * tau) - 1) in
    e <- py_div (2 * kappa p * theta p) (sigma p ^ 2) ;;
    let A := Rpower (A_num / A_denom) e in
    let B_num := 2 * (exp (h * tau) - 1) in
    let B_denom := 2 * h + (kappa p + h) * (exp (h * tau) - 1) in
    let B := B_num / B_denom in
    Ok (A * exp (- B * r)).

(** The closed form as the spec writes it, for [t < T]. *)
Definition cir_bond_formula_spec (p : CIRParams) (t T r : R) : R :=
  let h := sqrt (kappa p ^ 2 + 2 * sigma p ^ 2) in
  let tau := T - t in
  let A := Rpower (2 * h * exp ((kappa p + h) * tau / 2)
                   / (2 * h + (kappa p + h) * (exp (h * tau) - 1)))
                  (2 * kappa p * theta p / sigma p ^ 2) in
  let B := 2 * (exp (h * tau) - 1) / (2 * h + (kappa p + h) * (exp (h * tau) - 1)) in
  A * exp (- B * r).

(** Modelled from the spec: [InterestRateModel.forward_rate] (in the missing
    [base_model.py]), the simple forward rate implied by two zero-coupon prices
    over [[T1, T2]]. *)
Definition base_forward_rate (zcb : R -> R -> R -> res R) (t T1 T2 r : R) : res R :=
  p1 <- zcb t T1 r ;;
  p2 <- zcb t T2 r ;;
  q <- py_div p1 p2 ;;
  py_div (q - 1) (T2 - T1).

Definition cir_model (p : CIRParams) (r0 : R) (timesteps : nat) (time_horizon dt : R)
    : RateModel :=
  mkRateModel r0 timesteps time_horizon dt
    (base_forward_rate (cir_zero_coupon_bond_price p)) (cir_zero_coupon_bond_price p).

(** [CIR.__init__]: the two guards, then the base constructor (modelled from
    the spec: it stores the fields and [dt = time_horizon / timesteps]). *)
Definition CIR_init (r0 kappa theta sigma : R) (timesteps : nat) (time_horizon : R)
    : res (CIRParams * RateModel) :=
  if Rle_dec r0 0 then Err ValueError
  else if Rle_dec (2 * kappa * theta) (sigma ^ 2) then Err ValueError
  else
    let p := mkCIRParams kappa theta sigma in
    dt <- py_div time_horizon (INR timesteps) ;;
    Ok (p, cir_model p r0 timesteps time_horizon dt).

(** Rate paths: [rates[i][j]] for path [i] and time step [j]. *)
Definition mat := nat -> nat -> R.

(** The [float64] array of [CIR.simulate_rates], whose entries may be NaN. *)
Definition fmat := nat -> nat -> f64.

Definition set_col (a : fmat) (j : nat) (col : nat -> f64) : fmat :=
  fun i j' => if Nat.eqb j' j then col i else a i j'.

(** [np.sqrt]: NaN below zero. *)
Definition np_sqrt (a : f64) : f64 :=
  match a with
  | Fin x => if Rlt_dec x 0 then NaN else Fin (sqrt x)
  | PInf => PInf
  | NInf | NaN => NaN
  end.

(** [np.maximum(0, a)]: a NaN operand propagates. *)
Definition np_maximum0 (a : f64) : f64 :=
  match a with
  | Fin x => Fin (Rmax 0 x)
  | PInf => PInf
  | NInf => Fin 0
  | NaN => NaN
  end.

(** One step of the Euler scheme with reflection at zero, on [float64]s:
    [drift = kappa * (theta - np.maximum(0, prev)) * dt],
    [diffusion = sigma * np.sqrt(np.maximum(0, prev) * dt) * dW] and the new
    rate [np.maximum(0, prev + drift + diffusion)]. *)
Definition cir_step (p : CIRParams) (dt : R) (prev dW : f64) : f64 :=
  let drift := fmul (fmul (Fin (kappa p)) (fsub (Fin (theta p)) (np_maximum0 prev))) (Fin dt) in
  let diffusion :=
    fmul (fmul (Fin (sigma p)) (np_sqrt (fmul (np_maximum0 prev) (Fin dt)))) dW in
  np_maximum0 (fadd (fadd prev drift) diffusion).

Section CIRSimulation.
(** NumPy's global generator (the legacy [RandomState]): its state,
    [np.random.seed], and [gauss g n], [n] standard normal draws. *)
Variable rng : Type.
Variable seed_rng : Z -> rng.
Variable gauss : rng -> nat -> (nat -> R) * rng.

(** [np.random.normal(0, scale, n)]: [0 + scale * z] for [n] standard normal
    draws [z].  NumPy refuses only a negative scale, which [np.sqrt] never
    returns; a NaN scale passes and gives NaN draws. *)
Definition normal_draws (g : rng) (scale : f64) (n : nat) : (nat -> f64) * rng :=
  let (z, g') := gauss g n in (fun i => fadd (Fin 0) (fmul scale (Fin (z i))), g').

(** [for t in range(1, timesteps + 1)]; [k] iterations remain, [t] is the
    current step.  Each iteration draws [dW = np.random.normal(0,
    np.sqrt(dt), n_paths)], then evaluates the unused
    [d = 4 * kappa * theta / sigma**2] (a Python float division) before the
    update; the unused [c] and [ncp] involve NumPy values and cannot raise. *)
Fixpoint cir_loop (p : CIRParams) (dt : R) (n_paths : nat) (k t : nat) (rates : fmat)
    (g : rng) : res (fmat * rng) :=
  match k with
  | O => Ok (rates, g)
  | S k' =>
      let (dW, g') := normal_draws g (np_sqrt (Fin dt)) n_paths in
      _ <- py_div (4 * kappa p * theta p) (sigma p ^ 2) ;;
      cir_loop p dt n_paths k' (S t)
        (set_col rates t (fun i => cir_step p dt (rates i (t - 1)%nat) (dW i))) g'
  end.

(** [CIR.simulate_rates(n_paths, seed)], threading the global generator:
    [rates = np.zeros(...)], then [rates[:, 0] = self.r0]. *)
Definition cir_simulate_rates (p : CIRParams) (m : RateModel) (n_paths : nat)
    (seed : option Z) (g : rng) : res (fmat * rng) :=
  let g0 := match seed with Some s => seed_rng s | None => g end in
  let rates0 : fmat := fun _ j => if Nat.eqb j 0 then Fin (r0 m) else Fin 0 in
  cir_loop p (dt m) n_paths (timesteps m) 1 rates0 g0.

(** The generator state after [k] draws of [n_paths] normals, starting
    from [g]. *)
Fixpoint gen_state (n_paths : nat) (g : rng) (k : nat) : rng :=
  match k with
  | O => g
  | S k' => snd (gauss (gen_state n_paths g k') n_paths)
  end.

(** The increments [dW] drawn for time step [j >= 1] of a simulation whose
    generator starts in [g0]. *)
Definition dW_at (dt : R) (n_paths : nat) (g0 : rng) (j : nat) : nat -> f64 :=
  fst (normal_draws (gen_state n_paths g0 (j - 1)) (np_sqrt (Fin dt)) n_paths).

Definition start_state (seed : option Z) (g : rng) : rng :=
  match seed with Some s => seed_rng s | None => g end.

End CIRSimulation.

(** ** Yield to maturity ([BondPricer.calculate_yield_to_maturity]) *)

Definition Rltb (x y : R) : bool := if Rlt_dec x y then true else false.
Definition Rleb (x y : R) : bool := if Rle_dec x y then true else false.

(** The coupon dates built inside [price_difference]: both [np.arange] calls
    run when [valuation_date > 0]. *)
Definition ytm_coupon_dates (maturity frequency valuation_date : R) : res (list R) :=
  coupon_dates <- arange (valuation_date + frequency) (maturity + eps10) frequency ;;
  if Rlt_dec 0 valuation_date then
    original_coupon_dates <- arange frequency (maturity + eps10) frequency ;;
    Ok (filter (fun d => Rltb valuation_date d) original_coupon_dates)
  else Ok coupon_dates.

(** The length condition under which [np.arange(start, stop, step)] builds
    its array ([arange_ok_eq]): a non-zero step and a quotient
    [(stop - start) / step] in [[-2^63, 2^60 - 1]]. *)
Definition arange_fits (start stop step : R) : Prop :=
  step <> 0 /\ - 2 ^ 63 <= (stop - start) / step <= 2 ^ 60 - 1.

(** Both [np.arange] calls of [ytm_coupon_dates] fit. *)
Definition coupon_schedule_fits (maturity frequency valuation_date : R) : Prop :=
  arange_fits (valuation_date + frequency) (maturity + eps10) frequency /\
  (0 < valuation_date -> arange_fits frequency (maturity + eps10) frequency).

(** The flat-rate price of the coupons and of the redemption. *)
Definition flat_price (coupon_dates : list R) (coupon_amount notional maturity
    valuation_date ytm : R) : R :=
  fold_left (fun price d => price + coupon_amount * exp (- ytm * (d - valuation_date)))
    coupon_dates 0
  + notional * exp (- ytm * (maturity - valuation_date)).

(** [price_difference(ytm)] *)
Definition price_difference (bond_price maturity coupon_rate frequency notional
    valuation_date ytm : R) : res R :=
  coupon_dates <- ytm_coupon_dates maturity frequency valuation_date ;;
  let coupon_amount := notional * coupon_rate * frequency in
  Ok (flat_price coupon_dates coupon_amount notional maturity valuation_date ytm
      - bond_price).

(** The bisection loop; [price_difference(mid_rate)] is evaluated twice, as in
    the source. *)
Fixpoint bisection (f : R -> res R) (precision : R) (k : nat) (low high : R) : res R :=
  match k with
  | O => Ok ((low + high) / 2)
  | S k' =>
      let mid := (low + high) / 2 in
      fm <- f mid ;;
      if Rlt_dec (Rabs fm) precision then Ok mid
      else
        fm2 <- f mid ;;
        fl <- f low ;;
        if Rlt_dec (fm2 * fl) 0 then bisection f precision k' low mid
        else bisection f precision k' mid high
  end.

Definition calculate_yield_to_maturity (bond_price maturity coupon_rate frequency
    notional valuation_date : R) (max_iterations : Z) (precision : R) : res R :=
  if Rle_dec maturity valuation_date then Ok 0
  else
    bisection (price_difference bond_price maturity coupon_rate frequency notional
                 valuation_date)
      precision (Z.to_nat max_iterations) (1 / 10000) (1 / 2).

(** The bisection as the spec describes it, on a total price function [f]:
    return [mid] once [|f mid| < precision]; otherwise move [low] when
    [f(mid) * f(low) >= 0] and [high] otherwise; after the last iteration return
    the midpoint of the bracket. *)
Fixpoint bisection_spec (f : R -> R) (precision : R) (k : nat) (low high : R) : R :=
  match k with
  | O => (low + high) / 2
  | S k' =>
      let mid := (low + high) / 2 in
      if Rlt_dec (Rabs (f mid)) precision then mid
      else if Rge_dec (f mid * f low) 0 then bisection_spec f precision k' mid high
      else bisection_spec f precision k' low mid
  end.

(** ** Bond pricing ([BondPricer]) *)

Section BondPricing.
(** [self.rate_model] and [self.credit_spread] *)
Variable m : RateModel.
Variable credit_spread : R.

(** [if self.credit_spread > 0: discount_factor *= np.exp(-self.credit_spread * time)] *)
Definition credit_adjust (discount_factor time : R) : R :=
  if Rlt_dec 0 credit_spread then discount_factor * exp (- credit_spread * time)
  else discount_factor.

(** [BondPricer.price_zero_coupon_bond] *)
Definition price_zero_coupon_bond (maturity notional valuation_date : R) : res R :=
  if Rle_dec maturity valuation_date then Ok notional
  else
    let current_rate := r0 m in
    discount_factor <- zero_coupon_bond_price m valuation_date maturity current_rate ;;
    Ok (notional * credit_adjust discount_factor (maturity - valuation_date)).

(** The coupon loop of [price_fixed_coupon_bond]. *)
Fixpoint coupon_loop (current_rate valuation_date coupon_amount : R) (coupon_dates : list R)
    (bond_price : R) : res R :=
  match coupon_dates with
  | [] => Ok bond_price
  | coupon_date :: rest =>
      discount_factor <- zero_coupon_bond_price m valuation_date coupon_date current_rate ;;
      coupon_loop current_rate valuation_date coupon_amount rest
        (bond_price + coupon_amount * credit_adjust discount_factor (coupon_date - valuation_date))
  end.

(** [BondPricer.price_fixed_coupon_bond]; its coupon schedule is built by the
    same code as in [price_difference] ([ytm_coupon_dates]). *)
Definition price_fixed_coupon_bond (maturity coupon_rate frequency notional
    valuation_date : R) : res R :=
  if Rle_dec maturity valuation_date then Ok notional
  else
    let current_rate := r0 m in
    coupon_dates <- ytm_coupon_dates maturity frequency valuation_date ;;
    let coupon_amount := notional * coupon_rate * frequency in
    bond_price <- coupon_loop current_rate valuation_date coupon_amount coupon_dates 0 ;;
    discount_factor <- zero_coupon_bond_price m valuation_date maturity current_rate ;;
    Ok (bond_price + notional * credit_adjust discount_factor (maturity - valuation_date)).

(** The weighted-time sum of [calculate_duration] over the coupon dates. *)
Definition duration_weights (coupon_dates : list R) (coupon_amount valuation_date ytm : R) : R :=
  fold_left (fun weighted_time_sum coupon_date =>
               let time_to_payment := coupon_date - valuation_date in
               let present_value := coupon_amount * exp (- ytm * time_to_payment) in
               weighted_time_sum + time_to_payment * present_value)
    coupon_dates 0.

(** [BondPricer.calculate_duration] (Macaulay duration).  The final quotient
    has a NumPy numerator ([np.exp] enters every term), so a zero price gives
    an infinity or NaN rather than an exception. *)
Definition calculate_duration (maturity coupon_rate frequency notional
    valuation_date : R) : res f64 :=
  if Rle_dec maturity valuation_date then Ok (Fin 0)
  else
    bond_price <- price_fixed_coupon_bond maturity coupon_rate frequency notional
                    valuation_date ;;
    ytm <- calculate_yield_to_maturity bond_price maturity coupon_rate frequency notional
             valuation_date 100 (/ 10 ^ 8) ;;
    coupon_dates <- ytm_coupon_dates maturity frequency valuation_date ;;
    let coupon_amount := notional * coupon_rate * frequency in
    let time_to_maturity := maturity - valuation_date in
    let weighted_time_sum :=
      duration_weights coupon_dates coupon_amount valuation_date ytm
      + time_to_maturity * (notional * exp (- ytm * time_to_maturity)) in
    Ok (fdiv (Fin weighted_time_sum) (Fin bond_price)).

(** [BondPricer.calculate_modified_duration]: no maturity guard of its own;
    [ytm / frequency] divides Python floats. *)
Definition calculate_modified_duration (maturity coupon_rate frequency notional
    valuation_date : R) : res f64 :=
  bond_price <- price_fixed_coupon_bond maturity coupon_rate frequency notional
                  valuation_date ;;
  ytm <- calculate_yield_to_maturity bond_price maturity coupon_rate frequency notional
           valuation_date 100 (/ 10 ^ 8) ;;
  macaulay_duration <- calculate_duration maturity coupon_rate frequency notional
                         valuation_date ;;
  q <- py_div ytm frequency ;;
  Ok (fdiv macaulay_duration (Fin (1 + q))).

End BondPricing.

(** ** Hedging simulation ([HedgingSimulator.simulate]) *)

Definition upd (a : mat) (i j : nat) (v : R) : mat :=
  fun i' j' => if andb (Nat.eqb i' i) (Nat.eqb j' j) then v else a i' j'.

Definition zeros : mat := fun _ _ => 0.

(** [np.linspace(0, time_horizon, timesteps + 1)][t] *)
Definition linspace_at (time_horizon : R) (timesteps t : nat) : R :=
  match timesteps with
  | O => 0
  | _ => INR t * (time_horizon / INR timesteps)
  end.

Record SimResults := mkSimResults {
  res_n_paths : nat;
  res_timesteps : nat;
  res_times : nat -> R;
  res_rates : mat;
  res_instrument_values : mat;
  res_hedge_ratios : mat;
  res_hedge_values : mat;
  res_hedge_costs : mat;
  res_pnl : mat
}.

(** The state the path loop mutates: the shared rate model and the five
    result arrays. *)
Record SimState := mkSimState {
  st_model : RateModel;
  st_instrument_values : mat;
  st_hedge_values : mat;
  st_hedge_ratios : mat;
  st_pnl : mat;
  st_hedge_costs : mat
}.

(** [if time_horizon is None: time_horizon = self.rate_model.time_horizon] *)
Definition horizon_arg (m : RateModel) (time_horizon_arg : option R) : R :=
  match time_horizon_arg with Some th => th | None => time_horizon m end.

Section Hedging.
(** [instrument.price(pricer, valuation_date)]: the pricer reads the shared
    rate model. *)
Variable instrument_price : RateModel -> R -> R.
(** [hedging_strategy.compute_hedge_ratio(time, rate)] *)
Variable compute_hedge_ratio : R -> R -> R.
Variable rebalance_frequency : R.
(** [rate_model.simulate_rates(n_paths=n_paths, seed=seed)] for the fixed seed. *)
Variable simulate_rates : RateModel -> nat -> res mat.

(** The [while current_time <= time_horizon] loop; [None] when it has not
    stopped after [fuel] iterations (it never stops when
    [rebalance_frequency <= 0 <= time_horizon]). *)
Fixpoint rebalance_loop (fuel : nat) (time_horizon dt : R) (timesteps : nat)
    (current_time : R) (acc : list Z) : option (res (list Z)) :=
  match fuel with
  | O => None
  | S fuel' =>
      if Rle_dec current_time time_horizon then
        match py_div current_time dt with
        | Err e => Some (Err e)
        | Ok q =>
            let idx := py_int q in
            let acc' := if Z.leb idx (Z.of_nat timesteps) then acc ++ [idx] else acc in
            rebalance_loop fuel' time_horizon dt timesteps
              (current_time + rebalance_frequency) acc'
        end
      else Some (Ok acc)
  end.

Definition is_rebalance_step (steps : list Z) (t : nat) : bool :=
  existsb (Z.eqb (Z.of_nat t)) steps.

Section Path.
Variables (rates : mat) (times : nat -> R) (steps : list Z) (path : nat).

(** One iteration [t] of the inner loop. *)
Definition hedge_step (t : nat) (st : SimState) : SimState :=
  let m := set_r0 (st_model st) (rates path t) in
  let iv := upd (st_instrument_values st) path t (instrument_price m (times t)) in
  let hv := upd (st_hedge_values st) path t
              (st_hedge_ratios st path (t - 1)%nat * rates path t) in
  let pnl_t := (iv path t - iv path (t - 1)%nat) - (hv path t - hv path (t - 1)%nat) in
  if is_rebalance_step steps t then
    let old_hedge_ratio := st_hedge_ratios st path (t - 1)%nat in
    let new_hedge_ratio := compute_hedge_ratio (times t) (rates path t) in
    let transaction_cost := Rabs (new_hedge_ratio - old_hedge_ratio) * / 10000
                            * rates path t in
    let hc := upd (st_hedge_costs st) path t transaction_cost in
    let hr := upd (st_hedge_ratios st) path t new_hedge_ratio in
    let pnl_t' := pnl_t - transaction_cost in
    mkSimState m iv hv hr (upd (st_pnl st) path t (st_pnl st path (t - 1)%nat + pnl_t')) hc
  else
    let hr := upd (st_hedge_ratios st) path t (st_hedge_ratios st path (t - 1)%nat) in
    mkSimState m iv hv hr (upd (st_pnl st) path t (st_pnl st path (t - 1)%nat + pnl_t))
      (st_hedge_costs st).

(** [for t in range(1, timesteps + 1)]: [k] iterations from step [t]. *)
Fixpoint step_loop (k t : nat) (st : SimState) : SimState :=
  match k with
  | O => st
  | S k' => step_loop k' (S t) (hedge_step t st)
  end.

(** The body of [for path in iterator]. *)
Definition path_body (timesteps : nat) (st : SimState) : SimState :=
  let m := set_r0 (st_model st) (rates path 0%nat) in
  let iv := upd (st_instrument_values st) path 0%nat (instrument_price m (times 0%nat)) in
  let hedge_ratio := compute_hedge_ratio (times 0%nat) (rates path 0%nat) in
  let hr := upd (st_hedge_ratios st) path 0%nat hedge_ratio in
  let hv := upd (st_hedge_values st) path 0%nat (hedge_ratio * rates path 0%nat) in
  let pnl := upd (st_pnl st) path 0%nat 0 in
  step_loop timesteps 1 (mkSimState m iv hv hr pnl (st_hedge_costs st)).

End Path.

Fixpoint path_loop (rates : mat) (times : nat -> R) (steps : list Z) (timesteps : nat)
    (k path : nat) (st : SimState) : SimState :=
  match k with
  | O => st
  | S k' => path_loop rates times steps timesteps k' (S path)
              (path_body rates times steps path timesteps st)
  end.

(** The horizon adaptation: [timesteps = int(time_horizon / dt)] and both
    fields overwritten.  A negative step count is reported as [ValueError]
    (NumPy refuses the negative array dimension). *)
Definition adapt_model (m : RateModel) (th : R) : res RateModel :=
  if Req_EM_T th (time_horizon m) then Ok m
  else
    q <- py_div th (dt m) ;;
    let ts := py_int q in
    if Z.ltb ts 0 then Err ValueError else Ok (set_horizon m th (Z.to_nat ts)).

(** [HedgingSimulator.simulate(n_paths, time_horizon, seed)]: returns the
    results and the shared rate model as the call leaves it. *)
Definition simulate (fuel : nat) (m : RateModel) (n_paths : nat) (time_horizon_arg : option R)
    : option (res (SimResults * RateModel)) :=
  let th := horizon_arg m time_horizon_arg in
  match adapt_model m th with
  | Err e => Some (Err e)
  | Ok m1 =>
      match simulate_rates m1 n_paths with
      | Err e => Some (Err e)
      | Ok rates =>
          let ts := timesteps m1 in
          let times := linspace_at th ts in
          match rebalance_loop fuel th (dt m1) ts 0 [] with
          | None => None
          | Some (Err e) => Some (Err e)
          | Some (Ok steps) =>
              let st := path_loop rates times steps ts n_paths 0
                          (mkSimState m1 zeros zeros zeros zeros zeros) in
              Some (Ok (mkSimResults n_paths ts times rates (st_instrument_values st)
                          (st_hedge_ratios st) (st_hedge_values st)
                          (st_hedge_costs st) (st_pnl st), st_model st))
          end
      end
  end.

End Hedging.

(** ** Risk analytics ([HedgingSimulator.analyze_results]) *)

Module RLeBool.
Definition t := R.
Definition leb := Rleb.
Definition leb_total : forall x y, leb x y = true \/ leb y x = true.
Proof.
  intros x y; unfold leb, Rleb.
  destruct (Rle_dec x y); [left; reflexivity|].
  destruct (Rle_dec y x); [right; reflexivity|]. exfalso; lra.
Defined.
End RLeBool.

Module RSort := Sort RLeBool.

Definition np_sum (xs : list R) : R := fold_right Rplus 0 xs.

(** [np.mean]: NaN on an empty array. *)
Definition np_mean (xs : list R) : f64 :=
  match xs with
  | [] => NaN
  | _ => Fin (np_sum xs / INR (length xs))
  end.

(** [np.std] (population standard deviation). *)
Definition np_std (xs : list R) : f64 :=
  match xs with
  | [] => NaN
  | _ =>
      let mu := np_sum xs / INR (length xs) in
      Fin (sqrt (np_sum (map (fun x => (x - mu) ^ 2) xs) / INR (length xs)))
  end.

(** [np.percentile(a, q)] with the default linear interpolation: sort, take
    the virtual index [(n - 1) * q / 100] and interpolate between its two
    neighbours.  [q] outside [[0, 100]] raises [ValueError]; an empty array
    raises [IndexError]. *)
Definition percentile (a : list R) (q : R) : res R :=
  if Rlt_dec q 0 then Err ValueError
  else if Rlt_dec 100 q then Err ValueError
  else
    match RSort.sort a with
    | [] => Err IndexError
    | s =>
        let n := length s in
        let virtual_index := INR (n - 1) * (q / 100) in
        let lo := Z.to_nat (Int_part virtual_index) in
        let hi := Nat.min (S lo) (n - 1) in
        let gamma := virtual_index - INR lo in
        let x := nth lo s 0 in
        let y := nth hi s 0 in
        Ok (x + gamma * (y - x))
    end.

Record Analysis := mkAnalysis {
  mean_pnl : f64;
  std_pnl : f64;
  var : R;
  expected_shortfall : f64;
  sharpe_ratio : f64;
  mean_hedge_costs : f64;
  final_pnl_distribution : list R
}.

Definition final_pnl_of (r : SimResults) : list R :=
  map (fun i => res_pnl r i (res_timesteps r)) (seq 0 (res_n_paths r)).

Definition total_hedge_costs_of (r : SimResults) : list R :=
  map (fun i => np_sum (map (fun j => res_hedge_costs r i j) (seq 0 (S (res_timesteps r)))))
    (seq 0 (res_n_paths r)).

Definition analyze_results (results : SimResults) (confidence_level : R) : res Analysis :=
  let final_pnl := final_pnl_of results in
  let mean := np_mean final_pnl in
  let std := np_std final_pnl in
  let alpha := 1 - confidence_level in
  v <- percentile final_pnl (alpha * 100) ;;
  let es := np_mean (filter (fun x => Rleb x v) final_pnl) in
  let sharpe := match std with
                | Fin s => if Rlt_dec 0 s then fdiv mean (Fin s) else NaN
                | _ => NaN
                end in
  Ok (mkAnalysis mean std v es sharpe (np_mean (total_hedge_costs_of results)) final_pnl).

(** ** Arbitrage analysis ([ArbitrageAnalyzer], [opportunities.py]) *)

(** The strategy strings the analyzer reports, one constructor per literal. *)
Inductive Strategy :=
| BuyBondPayerSwap        (* "Acheter l'obligation, entrer dans un swap payeur (taux fixe)" *)
| SellBondReceiverSwap    (* "Vendre l'obligation, entrer dans un swap receveur (taux fixe)" *)
| NoSignificantArbitrage  (* "Pas d'opportunité d'arbitrage significative" *)
| BuyCap                  (* "Acheter le cap" *)
| SellCap                 (* "Vendre le cap" *)
| NoClearCapOpportunity   (* "Pas d'opportunité claire avec le cap" *)
| BuyFloor                (* "Acheter le floor" *)
| SellFloor               (* "Vendre le floor" *)
| NoClearFloorOpportunity (* "Pas d'opportunité claire avec le floor" *)
| FloorNotSpecified       (* "Floor non spécifié" *)
| BuyCapSellFloor         (* "Acheter le cap, vendre le floor (collar)" *)
| SellCapBuyFloor         (* "Vendre le cap, acheter le floor (reverse collar)" *)
| NoClearCollarOpportunity (* "Pas d'opportunité claire avec le collar" *)
| CollarNotApplicable.    (* "Collar non applicable" *)

(** [ArbitrageAnalyzer(bond_pricer, swap_pricer, option_pricer)]: the bond
    pricer is a [BondPricer] on [bond_rate_model] with [bond_credit_spread]
    ([self.rate_model] is the bond pricer's model); of the swap pricer only
    [par_rate] is used; the option pricer is a [CapFloorPricer] on its own
    rate model.  [None] stands for a missing pricer. *)
Record ArbitrageAnalyzer := mkArbitrageAnalyzer {
  bond_rate_model : RateModel;
  bond_credit_spread : R;
  swap_par_rate : option (R -> R -> R -> res R);
  option_rate_model : option RateModel
}.

(** The result dictionary of [analyze_bond_vs_swaps]. *)
Record BondSwapAnalysis := mkBondSwapAnalysis {
  bs_theoretical_bond_price : R;
  bs_observed_bond_price : R;
  bs_bond_ytm : R;
  bs_swap_rate : R;
  bs_spread : R;
  bs_arbitrage_opportunity : bool;
  bs_strategy : Strategy;
  bs_estimated_profit : f64;
  bs_estimated_profit_after_costs : f64
}.

(** [ArbitrageAnalyzer.analyze_bond_vs_swaps]; [bond_price = None] uses the
    theoretical price.  The modified duration (a NumPy value) is computed only
    when an opportunity is flagged. *)
Definition analyze_bond_vs_swaps (a : ArbitrageAnalyzer) (bond_maturity bond_coupon_rate : R)
    (bond_price : option R) (frequency notional valuation_date transaction_costs
    spread_tolerance : R) : res BondSwapAnalysis :=
  match swap_par_rate a with
  | None => Err ValueError
  | Some par_rate =>
      let m := bond_rate_model a in
      let cs := bond_credit_spread a in
      theoretical_bond_price <- price_fixed_coupon_bond m cs bond_maturity bond_coupon_rate
                                  frequency notional valuation_date ;;
      let observed_bond_price :=
        match bond_price with Some p => p | None => theoretical_bond_price end in
      bond_ytm <- calculate_yield_to_maturity observed_bond_price bond_maturity
                    bond_coupon_rate frequency notional valuation_date 100 (/ 10 ^ 8) ;;
      swap_rate <- par_rate valuation_date bond_maturity frequency ;;
      let spread := bond_ytm - swap_rate in
      let arbitrage_opportunity := Rltb (spread_tolerance + transaction_costs) (Rabs spread) in
      let strategy :=
        if arbitrage_opportunity then
          if Rlt_dec 0 spread then BuyBondPayerSwap else SellBondReceiverSwap
        else NoSignificantArbitrage in
      profits <- (if arbitrage_opportunity then
                    modified_duration <- calculate_modified_duration m cs bond_maturity
                                           bond_coupon_rate frequency notional valuation_date ;;
                    let estimated_profit :=
                      fmul (fmul (Fin (Rabs spread)) modified_duration) (Fin notional) in
                    Ok (estimated_profit,
                        fsub estimated_profit (Fin (transaction_costs * notional)))
                  else Ok (Fin 0, Fin 0)) ;;
      Ok (mkBondSwapAnalysis theoretical_bond_price observed_bond_price bond_ytm swap_rate
            spread arbitrage_opportunity strategy (fst profits) (snd profits))
  end.

(** The result dictionary of [analyze_asset_swap]. *)
Record AssetSwapAnalysis := mkAssetSwapAnalysis {
  as_theoretical_bond_price : R;
  as_observed_bond_price : R;
  as_bond_ytm : R;
  as_swap_rate : R;
  as_asset_swap_spread : f64;
  as_arbitrage_opportunity : bool;
  as_strategy : Strategy;
  as_estimated_profit : f64;
  as_estimated_profit_after_costs : f64
}.

(** [a > x] for a float [a] and a finite [x]: false when [a] is NaN. *)
Definition fgtb (a : f64) (x : R) : bool :=
  match a with
  | Fin y => Rltb x y
  | PInf => true
  | NInf | NaN => false
  end.

(** [ArbitrageAnalyzer.analyze_asset_swap].  [bond_price_type] is the Python
    type of the observed [bond_price] (the repository's example passes an
    [np.float64], a multiple of a computed price); [bond_coupon_rate] and
    [notional] are Python floats.  So [bond_coupon_rate * notional /
    bond_price] raises on a zero Python-float price and gives an infinity or
    NaN on a zero [np.float64] price. *)
Definition analyze_asset_swap (a : ArbitrageAnalyzer) (bond_maturity bond_coupon_rate
    bond_price : R) (bond_price_type : ftype)
    (frequency notional valuation_date transaction_costs spread_tolerance : R)
    : res AssetSwapAnalysis :=
  match swap_par_rate a with
  | None => Err ValueError
  | Some par_rate =>
      let m := bond_rate_model a in
      let cs := bond_credit_spread a in
      theoretical_bond_price <- price_fixed_coupon_bond m cs bond_maturity bond_coupon_rate
                                  frequency notional valuation_date ;;
      bond_ytm <- calculate_yield_to_maturity bond_price bond_maturity bond_coupon_rate
                    frequency notional valuation_date 100 (/ 10 ^ 8) ;;
      swap_rate <- par_rate valuation_date bond_maturity frequency ;;
      adjusted_coupon <- float_div PyFloat bond_price_type (bond_coupon_rate * notional)
                           bond_price ;;
      let asset_swap_spread := fsub adjusted_coupon (Fin swap_rate) in
      let arbitrage_opportunity :=
        fgtb asset_swap_spread (spread_tolerance + transaction_costs) in
      if arbitrage_opportunity then
        let estimated_profit :=
          fmul (fmul asset_swap_spread (Fin notional)) (Fin bond_maturity) in
        Ok (mkAssetSwapAnalysis theoretical_bond_price bond_price bond_ytm swap_rate
              asset_swap_spread arbitrage_opportunity BuyBondPayerSwap estimated_profit
              (fsub estimated_profit (Fin (transaction_costs * notional))))
      else
        Ok (mkAssetSwapAnalysis theoretical_bond_price bond_price bond_ytm swap_rate
              asset_swap_spread arbitrage_opportunity NoSignificantArbitrage (Fin 0) (Fin 0))
  end.

(** The forward-rate loop of [analyze_bond_vs_capfloor]: for each [t] of the
    schedule with [t - frequency >= valuation_date], the model's forward rate
    on [(t - frequency, t)] at its [r0]. *)
Fixpoint forward_rates_loop (m : RateModel) (valuation_date frequency : R) (ts : list R)
    : res (list R) :=
  match ts with
  | [] => Ok []
  | t :: rest =>
      if Rge_dec (t - frequency) valuation_date then
        fwd <- forward_rate m valuation_date (t - frequency) t (r0 m) ;;
        forward_rates <- forward_rates_loop m valuation_date frequency rest ;;
        Ok (fwd :: forward_rates)
      else forward_rates_loop m valuation_date frequency rest
  end.

(** [np.mean(forward_rates) if forward_rates else self.rate_model.r0] *)
Definition average_forward_rate (m : RateModel) (forward_rates : list R) : R :=
  match forward_rates with
  | [] => r0 m
  | _ => np_sum forward_rates / INR (length forward_rates)
  end.

(** The cap leg of the decision: strategy and [cap_arbitrage]. *)
Definition cap_decision (avg_forward_rate cap_strike spread_tolerance : R) : Strategy * bool :=
  if Rlt_dec (cap_strike + spread_tolerance) avg_forward_rate then (BuyCap, true)
  else if Rlt_dec avg_forward_rate (cap_strike - spread_tolerance) then (SellCap, true)
  else (NoClearCapOpportunity, false).

(** The floor leg, when a floor strike is given. *)
Definition floor_decision (avg_forward_rate floor_strike spread_tolerance : R) : Strategy * bool :=
  if Rlt_dec avg_forward_rate (floor_strike - spread_tolerance) then (BuyFloor, true)
  else if Rlt_dec (floor_strike + spread_tolerance) avg_forward_rate then (SellFloor, true)
  else (NoClearFloorOpportunity, false).

(** The collar leg (long cap, short floor), when a floor strike is given. *)
Definition collar_decision (avg_forward_rate cap_strike floor_strike : R)
    (cap_arbitrage floor_arbitrage : bool) : Strategy * bool :=
  if cap_arbitrage && floor_arbitrage then
    if Rltb cap_strike avg_forward_rate && Rltb floor_strike avg_forward_rate then
      (BuyCapSellFloor, true)
    else if Rltb avg_forward_rate cap_strike && Rltb avg_forward_rate floor_strike then
      (SellCapBuyFloor, true)
    else (NoClearCollarOpportunity, false)
  else (NoClearCollarOpportunity, false).

(** The keys [analyze_bond_vs_capfloor] adds when a floor strike is given. *)
Record FloorAnalysis := mkFloorAnalysis {
  fa_floor_strike : R;
  fa_floor_price : f64;
  fa_floor_strategy : Strategy;
  fa_floor_arbitrage : bool;
  fa_collar_price : f64;
  fa_collar_strategy : Strategy;
  fa_collar_arbitrage : bool
}.

(** The result dictionary of [analyze_bond_vs_capfloor]. *)
Record CapFloorAnalysis := mkCapFloorAnalysis {
  cf_theoretical_bond_price : R;
  cf_observed_bond_price : R;
  cf_bond_ytm : R;
  avg_forward_rate : R;
  cf_cap_strike : R;
  cf_cap_price : f64;
  cf_cap_strategy : Strategy;
  cf_cap_arbitrage : bool;
  cf_floor : option FloorAnalysis
}.

(** [ArbitrageAnalyzer.analyze_bond_vs_capfloor]: the cap and the floor run
    from the valuation date to the bond's maturity, priced by the option
    pricer's [price_cap] / [price_floor]; the forward rates come from the bond
    pricer's model.  The strategies of the unused legs ([floor_strategy] and
    [collar_strategy] without a floor strike) are not returned. *)
Definition analyze_bond_vs_capfloor (a : ArbitrageAnalyzer) (bond_maturity bond_coupon_rate
    cap_strike : R) (floor_strike bond_price : option R) (frequency notional valuation_date : R)
    (volatility : option R) (transaction_costs spread_tolerance : R) : res CapFloorAnalysis :=
  match option_rate_model a with
  | None => Err ValueError
  | Some om =>
      let m := bond_rate_model a in
      let cs := bond_credit_spread a in
      theoretical_bond_price <- price_fixed_coupon_bond m cs bond_maturity bond_coupon_rate
                                  frequency notional valuation_date ;;
      let observed_bond_price :=
        match bond_price with Some p => p | None => theoretical_bond_price end in
      bond_ytm <- calculate_yield_to_maturity observed_bond_price bond_maturity
                    bond_coupon_rate frequency notional valuation_date 100 (/ 10 ^ 8) ;;
      ts <- arange (valuation_date + frequency) (bond_maturity + eps10) frequency ;;
      forward_rates <- forward_rates_loop m valuation_date frequency ts ;;
      let avg := average_forward_rate m forward_rates in
      cap_price <- price_cap om valuation_date cap_strike frequency notional volatility
                     valuation_date bond_maturity ;;
      floor_price <- match floor_strike with
                     | Some fs =>
                         fp <- price_floor om valuation_date fs frequency notional volatility
                                 valuation_date bond_maturity ;;
                         Ok (Some fp)
                     | None => Ok None
                     end ;;
      let cap_dec := cap_decision avg cap_strike spread_tolerance in
      let floor_part :=
        match floor_strike, floor_price with
        | Some fs, Some fp =>
            let floor_dec := floor_decision avg fs spread_tolerance in
            let collar_dec := collar_decision avg cap_strike fs (snd cap_dec) (snd floor_dec) in
            Some (mkFloorAnalysis fs fp (fst floor_dec) (snd floor_dec) (fsub cap_price fp)
                    (fst collar_dec) (snd collar_dec))
        | _, _ => None
        end in
      Ok (mkCapFloorAnalysis theoretical_bond_price observed_bond_price bond_ytm avg cap_strike
            cap_price (fst cap_dec) (snd cap_dec) floor_part)
  end.

(** ** Concrete collaborators used for witnesses and counterexamples *)

(** A flat-curve rate model: every forward rate is [f] and discount factors
    are [exp(-f * (T - t))] (the pricers accept any object with these
    methods). *)
Definition flat_rate_model (r f : R) : RateModel :=
  mkRateModel r 100 1 (/ 100)
    (fun _ _ _ _ => Ok f)
    (fun t T _ => if Rge_dec t T then Ok 1 else Ok (exp (- f * (T - t)))).

(** A flat-rate model with [time_horizon = 1] and one step of [dt = 1], for
    the concrete hedging runs below. *)
Definition demo_hedge_model : RateModel :=
  mkRateModel (3/100) 1 1 1 (fun _ _ _ _ => Ok (5/100))
    (fun t T _ => if Rge_dec t T then Ok 1 else Ok (exp (- (5/100) * (T - t)))).

(** ** Lemmas on the float model and the normal distribution *)

Lemma flog_neg : forall x, x < 0 -> flog (Fin x) = NaN.
Proof.
  intros x Hx; unfold flog.
  destruct (Rlt_dec 0 x); [lra|]. destruct (Req_EM_T x 0); [lra|]. reflexivity.
Qed.

Lemma flog_pos : forall x, 0 < x -> flog (Fin x) = Fin (ln x).
Proof. intros x Hx; unfold flog. destruct (Rlt_dec 0 x); [reflexivity|lra]. Qed.

Lemma black_d1_nan : forall q vol tau, q < 0 -> black_d1 (Fin q) vol tau = NaN.
Proof. intros; unfold black_d1; rewrite flog_neg by assumption; reflexivity. Qed.

Lemma py_div_nonzero : forall x y, y <> 0 -> py_div x y = Ok (x / y).
Proof. intros x y H; unfold py_div; destruct (Req_EM_T y 0); [contradiction|reflexivity]. Qed.

Lemma py_div_zero : forall x, py_div x 0 = Err ZeroDivisionError.
Proof. intros; unfold py_div; destruct (Req_EM_T 0 0); [reflexivity|lra]. Qed.

Lemma fdiv_fin_nonzero : forall x y, y <> 0 -> fdiv (Fin x) (Fin y) = Fin (x / y).
Proof. intros x y H; unfold fdiv; destruct (Req_EM_T y 0); [contradiction|reflexivity]. Qed.

Lemma float_div_nonzero : forall tx ty x y, y <> 0 -> float_div tx ty x y = Ok (Fin (x / y)).
Proof.
  intros tx ty x y H. destruct tx, ty; unfold float_div;
    try (rewrite fdiv_fin_nonzero by assumption; reflexivity).
  rewrite py_div_nonzero by assumption; reflexivity.
Qed.

Lemma opposite_signs_quotient : forall F K, F * K < 0 -> K <> 0 /\ F / K < 0.
Proof.
  intros F K H. assert (K <> 0) by (intro; subst; lra). split; [assumption|].
  assert (F / K = F * K / (K * K)) by (field; assumption). rewrite H1.
  assert (0 < K * K) by (apply Rsqr_pos_lt; assumption).
  apply Rdiv_neg_pos; assumption.
Qed.

Lemma caplet_opposite_signs : forall tf ts F K tau vol df N dt,
  0 < tau -> F * K < 0 -> black_price_caplet tf ts F K tau vol df N dt = Ok NaN.
Proof.
  intros tf ts F K tau vol df N dt Ht Hs. destruct (opposite_signs_quotient F K Hs) as [HK Hq].
  unfold black_price_caplet. destruct (Rle_dec tau 0); [lra|].
  rewrite float_div_nonzero by assumption. cbn [bind]. unfold black_d2.
  rewrite black_d1_nan by assumption. reflexivity.
Qed.

Lemma floorlet_opposite_signs : forall tf ts F K tau vol df N dt,
  0 < tau -> F * K < 0 -> black_price_floorlet tf ts F K tau vol df N dt = Ok NaN.
Proof.
  intros tf ts F K tau vol df N dt Ht Hs. destruct (opposite_signs_quotient F K Hs) as [HK Hq].
  unfold black_price_floorlet. destruct (Rle_dec tau 0); [lra|].
  rewrite float_div_nonzero by assumption. cbn [bind]. unfold black_d2.
  rewrite black_d1_nan by assumption. reflexivity.
Qed.

Lemma swaption_black_opposite_signs : forall tf ts F K A tau vol is_payer,
  0 < tau -> F * K < 0 -> black_price tf ts F K A tau vol is_payer = Ok NaN.
Proof.
  intros tf ts F K A tau vol is_payer Ht Hs. destruct (opposite_signs_quotient F K Hs) as [HK Hq].
  unfold black_price. destruct (Rle_dec tau 0); [lra|].
  rewrite float_div_nonzero by assumption. cbn [bind]. unfold black_d2.
  rewrite black_d1_nan by assumption. destruct is_payer; reflexivity.
Qed.

(** * Claims *)

(** C1 (amended).  With a positive time to maturity/expiry the three Black
    functions do no domain check on the forward rate or the strike: for a
    non-zero forward and strike of opposite signs [np.log] of the negative
    quotient is NaN, and each function returns NaN without raising, whatever
    the Python types (float or [np.float64]) of the forward and the strike. *)
Theorem C1_black_no_domain_check : forall tf ts F K tau vol df N dt A is_payer,
  0 < tau -> F * K < 0 ->
  black_price_caplet tf ts F K tau vol df N dt = Ok NaN /\
  black_price_floorlet tf ts F K tau vol df N dt = Ok NaN /\
  black_price tf ts F K A tau vol is_payer = Ok NaN.
Proof.
  intros tf ts F K tau vol df N dt A is_payer Ht Hs. split; [|split].
  - apply caplet_opposite_signs; assumption.
  - apply floorlet_opposite_signs; assumption.
  - apply swaption_black_opposite_signs; assumption.
Qed.

Lemma C1_black_no_domain_check_witness :
  (0 < 1 /\ (-1/100) * (5/100) < 0) /\
  black_price_caplet NpFloat64 PyFloat (-1/100) (5/100) 1 (2/10) 1 1 (1/2) = Ok NaN.
Proof.
  split; [split; lra|].
  apply (proj1 (C1_black_no_domain_check NpFloat64 PyFloat (-1/100) (5/100) 1 (2/10) 1 1 (1/2)
                  1 true ltac:(lra) ltac:(lra))).
Defined.

(** C1 counterexample: a caplet with a negative ([np.float64]) forward rate,
    a positive strike and one year to maturity returns NaN instead of
    raising. *)
Lemma C1_counterexample :
  black_price_caplet NpFloat64 PyFloat (-1/100) (5/100) 1 (2/10) 1 1 (1/2) = Ok NaN.
Proof. apply caplet_opposite_signs; lra. Qed.

Lemma eps10_bounds : 0 < eps10 <= 1/2.
Proof.
  unfold eps10. split.
  - apply Rinv_0_lt_compat, pow_lt. lra.
  - apply (Rle_trans _ (/ 2)); [|lra].
    apply Rinv_le_contravar; [lra|]. simpl. lra.
Qed.

Lemma Rceil_bounds : forall x, x <= IZR (Rceil x) < x + 1.
Proof.
  intros x. unfold Rceil. rewrite opp_IZR.
  destruct (base_Int_part (- x)) as [H1 H2]. lra.
Qed.

Lemma Rceil_small : forall x, 0 < x -> x <= 1 -> Rceil x = 1%Z.
Proof.
  intros x H1 H2. unfold Rceil, Int_part.
  rewrite <- (tech_up (- x) 0); [reflexivity| |]; simpl; lra.
Qed.

Lemma Rceil_index : forall (i : nat) x, (i < Z.to_nat (Rceil x))%nat -> INR i < x.
Proof.
  intros i x H. unfold Rceil in H.
  destruct (base_Int_part (- x)) as [_ H2].
  assert (Hz : (Z.of_nat i < - Int_part (- x))%Z) by lia.
  apply Zlt_le_succ in Hz. apply IZR_le in Hz.
  rewrite succ_IZR, <- INR_IZR_INZ, opp_IZR in Hz. lra.
Qed.

Lemma Rceil_nonpos : forall x, x <= 0 -> Z.to_nat (Rceil x) = 0%nat.
Proof.
  intros x H. destruct (Rceil_bounds x) as [_ H2].
  assert (Rceil x < 1)%Z by (apply lt_IZR; lra). lia.
Qed.

Lemma Rceil_pos : forall x, 0 < x -> (1 <= Z.to_nat (Rceil x))%nat.
Proof.
  intros x Hx. unfold Rceil.
  destruct (base_Int_part (- x)) as [H1 _].
  assert (Hz : (Int_part (- x) < 0)%Z).
  { apply lt_IZR. lra. }
  lia.
Qed.

Lemma arange_Ok : forall start stop step l, arange start stop step = Ok l ->
  step <> 0 /\
  l = map (fun i => start + INR i * step) (seq 0 (Z.to_nat (Rceil ((stop - start) / step)))).
Proof.
  intros start stop step l H. unfold arange in H.
  destruct (Req_EM_T step 0) as [E|E]; [discriminate|]. split; [exact E|].
  destruct (orb _ _); [discriminate|].
  destruct (Z.leb_spec (Rceil ((stop - start) / step)) 0) as [Hn|Hn].
  - injection H as <-.
    assert (Z.to_nat (Rceil ((stop - start) / step)) = 0%nat) as -> by lia. reflexivity.
  - destruct (Z.ltb _ _); [discriminate|]. injection H as <-. reflexivity.
Qed.

(** [np.arange] succeeds whenever the quotient [(stop - start) / step] lies in
    [[-2^63, 2^60 - 1]]: the length is then in the [intp] range and its byte
    size fits. *)
Lemma arange_ok_eq : forall start stop step, step <> 0 ->
  - 2 ^ 63 <= (stop - start) / step -> (stop - start) / step <= 2 ^ 60 - 1 ->
  arange start stop step =
  Ok (map (fun i => start + INR i * step) (seq 0 (Z.to_nat (Rceil ((stop - start) / step))))).
Proof.
  intros start stop step Hs Hlo Hhi. unfold arange.
  destruct (Req_EM_T step 0) as [E|_]; [contradiction|].
  set (x := (stop - start) / step) in *.
  destruct (Rceil_bounds x) as [Hc1 Hc2].
  assert (Hlo' : (- 9223372036854775808 <= Rceil x)%Z) by (apply le_IZR; lra).
  assert (Hhi' : (Rceil x < 1152921504606846976)%Z) by (apply lt_IZR; lra).
  unfold max_intp. change (2 ^ 63)%Z with 9223372036854775808%Z.
  destruct (Z.ltb_spec (Rceil x) (Z.opp 9223372036854775808)); [lia|].
  destruct (Z.ltb_spec 9223372036854775808 (Rceil x)); [lia|]. cbn [orb].
  destruct (Z.leb_spec (Rceil x) 0).
  - assert (Z.to_nat (Rceil x) = 0%nat) as -> by lia. reflexivity.
  - destruct (Z.ltb_spec (9223372036854775808 - 1) (8 * Rceil x)); [lia|]. reflexivity.
Qed.

Lemma arange_ok : forall start stop step, step <> 0 ->
  - 2 ^ 63 <= (stop - start) / step -> (stop - start) / step <= 2 ^ 60 - 1 ->
  exists l, arange start stop step = Ok l.
Proof. intros. eexists. apply arange_ok_eq; assumption. Qed.

Lemma arange_single : forall a b s, 0 < s -> a < b -> b - a <= s ->
  arange a b s = Ok [a].
Proof.
  intros a b s Hs Hab Hb.
  assert (Hq : 0 < (b - a) / s) by (apply Rdiv_lt_0_compat; lra).
  assert (Hq1 : (b - a) / s <= 1).
  { apply (Rmult_le_reg_r s); [assumption|]. unfold Rdiv.
    rewrite Rmult_assoc, Rinv_l by lra. lra. }
  rewrite arange_ok_eq by lra. rewrite Rceil_small by assumption.
  simpl. f_equal. f_equal. ring.
Qed.

Lemma arange_in : forall start stop step l d, 0 < step ->
  arange start stop step = Ok l -> In d l ->
  d < stop /\ exists i : nat, d = start + INR i * step.
Proof.
  intros start stop step l d Hs H Hd. apply arange_Ok in H. destruct H as [_ ->].
  apply in_map_iff in Hd. destruct Hd as [i [<- Hi]].
  apply in_seq in Hi. destruct Hi as [_ Hi]. simpl in Hi.
  apply Rceil_index in Hi. split; [|exists i; reflexivity].
  apply (Rmult_lt_compat_r step) in Hi; [|exact Hs].
  unfold Rdiv in Hi. rewrite Rmult_assoc, Rinv_l, Rmult_1_r in Hi by lra. lra.
Qed.

Lemma arange_empty : forall start stop step, step <> 0 ->
  - 2 ^ 63 <= (stop - start) / step -> (stop - start) / step <= 0 ->
  arange start stop step = Ok [].
Proof.
  intros start stop step Hs Hlo H. rewrite arange_ok_eq by lra.
  rewrite Rceil_nonpos by exact H. reflexivity.
Qed.

Lemma arange_cons : forall start stop step, 0 < step -> start < stop ->
  (stop - start) / step <= 2 ^ 60 - 1 ->
  exists l, arange start stop step = Ok (start :: l).
Proof.
  intros start stop step Hs Hlt Hhi.
  assert (Hq : 0 < (stop - start) / step) by (apply Rdiv_lt_0_compat; lra).
  rewrite arange_ok_eq by lra.
  assert (Hn : (1 <= Z.to_nat (Rceil ((stop - start) / step)))%nat) by (apply Rceil_pos; lra).
  destruct (Z.to_nat (Rceil ((stop - start) / step))) as [|k]; [lia|].
  cbn [seq map]. eexists. f_equal. f_equal. cbn [INR]. ring.
Qed.

(** A quotient beyond [2^60 - 1] makes [np.arange] raise [ValueError]: the
    length is either out of the [intp] range or its byte size is. *)
Lemma arange_too_long : forall start stop step, step <> 0 ->
  2 ^ 60 - 1 < (stop - start) / step -> arange start stop step = Err ValueError.
Proof.
  intros start stop step Hs Hhi. unfold arange.
  destruct (Req_EM_T step 0) as [E|_]; [contradiction|].
  set (x := (stop - start) / step) in *.
  destruct (Rceil_bounds x) as [Hc1 Hc2].
  assert (Hhi' : (1152921504606846975 < Rceil x)%Z) by (apply lt_IZR; lra).
  unfold max_intp. change (2 ^ 63)%Z with 9223372036854775808%Z.
  destruct (Z.ltb_spec (Rceil x) (Z.opp 9223372036854775808)); [lia|].
  destruct (Z.ltb_spec 9223372036854775808 (Rceil x)); [reflexivity|]. cbn [orb].
  destruct (Z.leb_spec (Rceil x) 0); [lia|].
  destruct (Z.ltb_spec (9223372036854775808 - 1) (8 * Rceil x)); [reflexivity|lia].
Qed.

(** A quotient below [-2^63 - 1] makes the length fall out of the [intp]
    range: [ValueError]. *)
Lemma arange_too_negative : forall start stop step, step <> 0 ->
  (stop - start) / step < - 2 ^ 63 - 1 -> arange start stop step = Err ValueError.
Proof.
  intros start stop step Hs Hlo. unfold arange.
  destruct (Req_EM_T step 0) as [E|_]; [contradiction|].
  set (x := (stop - start) / step) in *.
  destruct (Rceil_bounds x) as [Hc1 Hc2].
  assert (Hlo' : (Rceil x < - 9223372036854775808)%Z) by (apply lt_IZR; lra).
  change (2 ^ 63)%Z with 9223372036854775808%Z.
  destruct (Z.ltb_spec (Rceil x) (Z.opp 9223372036854775808)); [reflexivity|lia].
Qed.

Lemma annuity_loop_ok : forall m valuation cr freq notional dates acc,
  (forall t T r, exists D, zero_coupon_bond_price m t T r = Ok D) ->
  exists A, annuity_loop m valuation cr freq notional dates acc = Ok A.
Proof.
  intros m valuation cr freq notional dates. induction dates as [|d ds IH]; intros acc Hz.
  - exists acc; reflexivity.
  - simpl. destruct (Hz valuation d cr) as [D HD]. rewrite HD. simpl. apply IH; assumption.
Qed.

Lemma swaption_early_expiry_rejected : forall m par_rate tp ts valuation expiry start end_ K
    freq N vol is_payer,
  expiry < start ->
  swaption_price m par_rate tp ts valuation expiry start end_ K freq N vol is_payer
  = Err ValueError.
Proof.
  intros. unfold swaption_price. destruct (Rlt_dec expiry start); [reflexivity|lra].
Qed.

(** C2 (code bug).  The guard of [SwaptionPricer.price] only rejects
    [expiry_date < underlying_swap_start], although its error message says the
    two dates must be equal: a swaption expiring at 2 on a swap starting at 1
    passes validation and is valued by the Black formula. *)
Theorem C2_swaption_late_expiry_accepted : forall m par_rate tp ts F,
  par_rate 1 3 (1/2) = Ok F ->
  (forall t T r, exists D, zero_coupon_bond_price m t T r = Ok D) ->
  exists A,
    swaption_price m par_rate tp ts 0 2 1 3 (5/100) (1/2) 1 None true
    = black_price tp ts F (5/100) A 2 (2/10) true.
Proof.
  intros m par_rate tp ts F HF Hz. unfold swaption_price.
  destruct (Rlt_dec 2 1); [lra|]. rewrite HF. simpl.
  pose proof eps10_bounds.
  destruct (arange_ok (1 + 1/2) (3 + eps10) (1/2)) as [l Hl]; [lra|lra|lra|]. rewrite Hl. simpl.
  destruct (annuity_loop_ok m 0 (r0 m) (1/2) 1 l 0 Hz) as [A HA]. rewrite HA. simpl.
  exists A. replace (Rmax 0 (2 - 0)) with 2; [reflexivity|].
  rewrite Rmax_right; lra.
Qed.

Lemma C2_swaption_late_expiry_accepted_witness :
  (Ok (5/100) = Ok (5/100) :> res R /\
   forall t T r, exists D,
     zero_coupon_bond_price (flat_rate_model (3/100) (5/100)) t T r = Ok D) /\
  exists A,
    swaption_price (flat_rate_model (3/100) (5/100)) (fun _ _ _ => Ok (5/100))
      NpFloat64 PyFloat 0 2 1 3 (5/100) (1/2) 1 None true
    = black_price NpFloat64 PyFloat (5/100) (5/100) A 2 (2/10) true.
Proof.
  assert (Hz : forall t T r, exists D,
     zero_coupon_bond_price (flat_rate_model (3/100) (5/100)) t T r = Ok D).
  { intros t T r. simpl. destruct (Rge_dec t T); eexists; reflexivity. }
  split; [split; [reflexivity|exact Hz]|].
  apply (C2_swaption_late_expiry_accepted (flat_rate_model (3/100) (5/100))
           (fun _ _ _ => Ok (5/100)) NpFloat64 PyFloat (5/100) eq_refl Hz).
Defined.

(** C3 (amended).  For a square-root model: [zero_coupon_bond_price(t, T, r)]
    is [1.0] when [t >= T]; when [t < T] and [sigma <> 0] it is the closed form
    [A * exp(-B * r)] of the spec; when [t < T] and [sigma = 0] (allowed by the
    constructor) the exponent [2 * kappa * theta / sigma**2] raises
    [ZeroDivisionError]. *)
Theorem C3_cir_bond_price : forall p t T r,
  (t >= T -> cir_zero_coupon_bond_price p t T r = Ok 1) /\
  (t < T -> sigma p <> 0 ->
     cir_zero_coupon_bond_price p t T r = Ok (cir_bond_formula_spec p t T r)) /\
  (t < T -> sigma p = 0 -> cir_zero_coupon_bond_price p t T r = Err ZeroDivisionError).
Proof.
  intros p t T r. unfold cir_zero_coupon_bond_price.
  split; [|split]; intros Ht.
  - destruct (Rge_dec t T); [reflexivity|lra].
  - intros Hs. destruct (Rge_dec t T); [lra|].
    rewrite py_div_nonzero by (apply pow_nonzero; assumption). reflexivity.
  - intros Hs. destruct (Rge_dec t T); [lra|]. rewrite Hs.
    replace (0 ^ 2) with 0 by ring. rewrite py_div_zero. reflexivity.
Qed.

Lemma C3_cir_bond_price_witness :
  (0 < 5 /\ 1 / 100 <> 0) /\
  cir_zero_coupon_bond_price (mkCIRParams (1/2) (5/100) (1/100)) 0 5 (3/100)
  = Ok (cir_bond_formula_spec (mkCIRParams (1/2) (5/100) (1/100)) 0 5 (3/100)).
Proof.
  split; [split; lra|].
  apply (proj1 (proj2 (C3_cir_bond_price (mkCIRParams (1/2) (5/100) (1/100)) 0 5 (3/100))));
    simpl; lra.
Defined.

(** C3 counterexample: [CIR(r0=0.03, kappa=0.5, theta=0.05, sigma=0)] is
    accepted by the constructor, and [zero_coupon_bond_price(0, 5, 0.03)]
    raises [ZeroDivisionError] instead of returning [A * exp(-B r)]. *)
Lemma C3_counterexample :
  exists p m, CIR_init (3/100) (1/2) (5/100) 0 100 1 = Ok (p, m) /\
              cir_zero_coupon_bond_price p 0 5 (3/100) = Err ZeroDivisionError.
Proof.
  unfold CIR_init. destruct (Rle_dec (3/100) 0); [lra|].
  destruct (Rle_dec (2 * (1/2) * (5/100)) (0 ^ 2)); [simpl in r; lra|].
  rewrite py_div_nonzero by (simpl; lra). simpl.
  eexists; eexists; split; [reflexivity|].
  unfold cir_zero_coupon_bond_price. simpl.
  destruct (Rge_dec 0 5); [lra|]. replace (0 * (0 * 1)) with 0 by ring.
  rewrite py_div_zero. reflexivity.
Qed.

(** ** The CIR simulation loop *)

Section CIRLoop.
Variable rng : Type.
Variable seed_rng : Z -> rng.
Variable gauss : rng -> nat -> (nat -> R) * rng.

Lemma fmul_nan_r : forall a, fmul a NaN = NaN.
Proof. destruct a; reflexivity. Qed.

Lemma fadd_nan_r : forall a, fadd a NaN = NaN.
Proof. destruct a; reflexivity. Qed.

(** On finite values and a non-negative step, [cir_step] is the real update
    [max(0, r + kappa (theta - max(0, r)) dt + sigma sqrt(max(0, r) dt) dW)]. *)
Lemma cir_step_fin : forall p dt x w, 0 <= dt ->
  cir_step p dt (Fin x) (Fin w)
  = Fin (Rmax 0 (x + kappa p * (theta p - Rmax 0 x) * dt
                 + sigma p * sqrt (Rmax 0 x * dt) * w)).
Proof.
  intros p dt x w Hdt. unfold cir_step, np_maximum0, np_sqrt. cbn [fmul fsub fneg fadd].
  destruct (Rlt_dec (Rmax 0 x * dt) 0) as [H|_].
  - assert (0 <= Rmax 0 x * dt) by (apply Rmult_le_pos; [apply Rmax_l|assumption]). lra.
  - cbn [fmul fadd]. unfold Rminus. reflexivity.
Qed.

Lemma cir_step_nan_draw : forall p dt prev, cir_step p dt prev NaN = NaN.
Proof. intros. unfold cir_step. rewrite fmul_nan_r, fadd_nan_r. reflexivity. Qed.

Lemma normal_draws_fin : forall g dt n i, 0 <= dt ->
  exists w, fst (normal_draws rng gauss g (np_sqrt (Fin dt)) n) i = Fin w.
Proof.
  intros g dt n i Hdt. unfold normal_draws, np_sqrt.
  destruct (Rlt_dec dt 0); [lra|]. destruct (gauss g n) as [z g']. cbn. eexists; reflexivity.
Qed.

Lemma normal_draws_nan : forall g dt n i, dt < 0 ->
  fst (normal_draws rng gauss g (np_sqrt (Fin dt)) n) i = NaN.
Proof.
  intros g dt n i Hdt. unfold normal_draws, np_sqrt.
  destruct (Rlt_dec dt 0); [|lra]. destruct (gauss g n) as [z g']. reflexivity.
Qed.

Lemma normal_draws_state : forall g sc n, snd (normal_draws rng gauss g sc n) = snd (gauss g n).
Proof. intros. unfold normal_draws. destruct (gauss g n); reflexivity. Qed.

Lemma gen_state_shift : forall n g k,
  gen_state rng gauss n (snd (gauss g n)) k = gen_state rng gauss n g (S k).
Proof.
  intros n g k. induction k as [|k IH]; [reflexivity|].
  simpl. rewrite IH. reflexivity.
Qed.

(** A property of entries kept by every step of the loop holds of the whole
    array it returns. *)
Lemma cir_loop_preserves : forall (P : f64 -> Prop) p dt n k t rates g rates' g',
  (forall g x i, P x -> P (cir_step p dt x (fst (normal_draws rng gauss g (np_sqrt (Fin dt)) n) i))) ->
  (forall i j, P (rates i j)) ->
  cir_loop rng gauss p dt n k t rates g = Ok (rates', g') ->
  forall i j, P (rates' i j).
Proof.
  intros P p dt n k. induction k as [|k IH]; intros t rates g rates' g' Hstep Hr Hl.
  - simpl in Hl. inversion Hl; subst; assumption.
  - cbn [cir_loop] in Hl. destruct (normal_draws rng gauss g (np_sqrt (Fin dt)) n) as [dW g1] eqn:Hn.
    destruct (py_div (4 * kappa p * theta p) _); cbn [bind] in Hl; [|discriminate].
    refine (IH _ _ _ _ _ Hstep _ Hl).
    intros i j. unfold set_col. destruct (Nat.eqb j t); [|apply Hr].
    replace dW with (fst (normal_draws rng gauss g (np_sqrt (Fin dt)) n)) by (rewrite Hn; reflexivity).
    apply Hstep, Hr.
Qed.

Lemma cir_loop_frame : forall p dt n k t rates g rates' g',
  cir_loop rng gauss p dt n k t rates g = Ok (rates', g') ->
  forall i j, (j < t)%nat -> rates' i j = rates i j.
Proof.
  intros p dt n k. induction k as [|k IH]; intros t rates g rates' g' Hl i j Hj.
  - simpl in Hl. inversion Hl; subst; reflexivity.
  - cbn [cir_loop] in Hl. destruct (normal_draws rng gauss g (np_sqrt (Fin dt)) n) as [dW g1].
    destruct (py_div (4 * kappa p * theta p) _); cbn [bind] in Hl; [|discriminate].
    rewrite (IH _ _ _ _ _ Hl i j ltac:(lia)). unfold set_col.
    destruct (Nat.eqb_spec j t); [lia|reflexivity].
Qed.

Lemma cir_loop_steps : forall p dt n k t rates g rates' g',
  (1 <= t)%nat ->
  cir_loop rng gauss p dt n k t rates g = Ok (rates', g') ->
  forall i j, (t <= j < t + k)%nat ->
  rates' i j = cir_step p dt (rates' i (j - 1)%nat)
                 (fst (normal_draws rng gauss (gen_state rng gauss n g (j - t))
                         (np_sqrt (Fin dt)) n) i).
Proof.
  intros p dt n k. induction k as [|k IH]; intros t rates g rates' g' Ht Hl i j Hj.
  - lia.
  - cbn [cir_loop] in Hl. destruct (normal_draws rng gauss g (np_sqrt (Fin dt)) n) as [dW g1] eqn:Hn.
    destruct (py_div (4 * kappa p * theta p) _); cbn [bind] in Hl; [|discriminate].
    destruct (Nat.eq_dec j t) as [->|Hne].
    + rewrite (cir_loop_frame _ _ _ _ _ _ _ _ _ Hl i t ltac:(lia)).
      rewrite (cir_loop_frame _ _ _ _ _ _ _ _ _ Hl i (t - 1) ltac:(lia)).
      unfold set_col. rewrite Nat.eqb_refl.
      destruct (Nat.eqb_spec (t - 1) t); [lia|].
      replace (t - t)%nat with 0%nat by lia. cbn [gen_state]. rewrite Hn. reflexivity.
    + rewrite (IH (S t) _ _ _ _ ltac:(lia) Hl i j ltac:(lia)).
      replace (j - t)%nat with (S (j - S t)) by lia.
      rewrite <- gen_state_shift.
      assert (g1 = snd (gauss g n)) as ->.
      { rewrite <- (normal_draws_state g (np_sqrt (Fin dt)) n), Hn. reflexivity. }
      reflexivity.
Qed.

End CIRLoop.

(** C4 (amended).  For a square-root model with [r0 > 0] and the Feller
    condition, every step [j] in [1 .. timesteps] of the array returned by
    [simulate_rates] applies [cir_step] to the previous entry and the normals
    drawn for that step.  With a non-negative [dt] every entry is a finite,
    non-negative float and the step is
    [r_j = max(0, r_{j-1} + kappa (theta - max(0, r_{j-1})) dt
                 + sigma sqrt(max(0, r_{j-1}) dt) dW_j)].
    With a negative [dt] (a negative [time_horizon], which the constructor
    accepts) [np.sqrt(dt)] is NaN, the draws are NaN and every entry of the
    steps [1 .. timesteps] is NaN. *)
Theorem C4_cir_paths_nonnegative :
  forall (rng : Type) (seed_rng : Z -> rng) (gauss : rng -> nat -> (nat -> R) * rng)
         p m n seed g rates g',
  0 < r0 m -> sigma p ^ 2 < 2 * kappa p * theta p ->
  cir_simulate_rates rng seed_rng gauss p m n seed g = Ok (rates, g') ->
  (forall i j, (1 <= j <= timesteps m)%nat ->
     rates i j = cir_step p (dt m) (rates i (j - 1)%nat)
                   (dW_at rng gauss (dt m) n (start_state rng seed_rng seed g) j i)) /\
  (0 <= dt m ->
     (forall i j, exists x, rates i j = Fin x /\ 0 <= x) /\
     (forall i j, (1 <= j <= timesteps m)%nat ->
        exists x w, rates i (j - 1)%nat = Fin x /\
          dW_at rng gauss (dt m) n (start_state rng seed_rng seed g) j i = Fin w /\
          rates i j = Fin (Rmax 0 (x + kappa p * (theta p - Rmax 0 x) * dt m
                                   + sigma p * sqrt (Rmax 0 x * dt m) * w)))) /\
  (dt m < 0 -> forall i j, (1 <= j <= timesteps m)%nat -> rates i j = NaN).
Proof.
  intros rng seed_rng gauss p m n seed g rates g' Hr0 _ Hs.
  unfold cir_simulate_rates in Hs.
  assert (Hstep : forall i j, (1 <= j <= timesteps m)%nat ->
     rates i j = cir_step p (dt m) (rates i (j - 1)%nat)
                   (dW_at rng gauss (dt m) n (start_state rng seed_rng seed g) j i)).
  { intros i j Hj.
    rewrite (cir_loop_steps rng gauss p (dt m) n (timesteps m) 1%nat _ _ _ _ ltac:(lia) Hs i j
               ltac:(lia)).
    reflexivity. }
  split; [exact Hstep|split].
  - intros Hdt.
    assert (Hnn : forall i j, exists x, rates i j = Fin x /\ 0 <= x).
    { refine (cir_loop_preserves rng gauss (fun a => exists x, a = Fin x /\ 0 <= x)
                _ _ _ _ _ _ _ _ _ _ _ Hs).
      - intros g0 a i [x [-> Hx]].
        destruct (normal_draws_fin rng gauss g0 (dt m) n i Hdt) as [w ->].
        rewrite cir_step_fin by exact Hdt. eexists; split; [reflexivity|apply Rmax_l].
      - intros i j. destruct (Nat.eqb j 0); eexists; (split; [reflexivity|lra]). }
    split; [exact Hnn|].
    intros i j Hj. destruct (Hnn i (j - 1)%nat) as [x [Hx _]].
    destruct (normal_draws_fin rng gauss (gen_state rng gauss n (start_state rng seed_rng seed g)
                (j - 1)) (dt m) n i Hdt) as [w Hw].
    exists x, w. split; [exact Hx|]. split; [exact Hw|].
    rewrite Hstep by exact Hj. rewrite Hx. unfold dW_at. rewrite Hw.
    apply cir_step_fin; exact Hdt.
  - intros Hdt i j Hj. rewrite Hstep by exact Hj. unfold dW_at.
    rewrite normal_draws_nan by exact Hdt. apply cir_step_nan_draw.
Qed.

(** C8.  With a seed, [simulate_rates] reseeds the global generator first, so
    two calls with the same seed (whatever the generator state in between, in
    particular the state the first call left) return the same array entry for
    entry, or raise the same error. *)
Theorem C8_seeded_simulation_deterministic :
  forall (rng : Type) (seed_rng : Z -> rng) (gauss : rng -> nat -> (nat -> R) * rng)
         p m n s g1 g2,
  match cir_simulate_rates rng seed_rng gauss p m n (Some s) g1,
        cir_simulate_rates rng seed_rng gauss p m n (Some s) g2 with
  | Ok (A, _), Ok (B, _) => forall i j, A i j = B i j
  | Err e1, Err e2 => e1 = e2
  | _, _ => False
  end.
Proof.
  intros. unfold cir_simulate_rates.
  destruct (cir_loop rng gauss p (dt m) n (timesteps m) 1 _ (seed_rng s)) as [[A g']|e];
    reflexivity.
Qed.

(** ** Yield to maturity *)

Lemma bisection_total : forall f g prec k low high,
  (forall y, f y = Ok (g y)) ->
  bisection f prec k low high = Ok (bisection_spec g prec k low high).
Proof.
  intros f g prec k. induction k as [|k IH]; intros low high Hf; [reflexivity|].
  simpl. rewrite !Hf. simpl.
  destruct (Rlt_dec (Rabs (g ((low + high) / 2))) prec); [reflexivity|].
  simpl.
  destruct (Rlt_dec (g ((low + high) / 2) * g low) 0);
    destruct (Rge_dec (g ((low + high) / 2) * g low) 0); try lra; apply IH; assumption.
Qed.

Lemma ytm_coupon_dates_ok : forall M f v, coupon_schedule_fits M f v ->
  exists dates, ytm_coupon_dates M f v = Ok dates.
Proof.
  intros M f v [[Hf [H1a H1b]] H2]. unfold ytm_coupon_dates.
  destruct (arange_ok (v + f) (M + eps10) f Hf H1a H1b) as [l1 H1]. rewrite H1. cbn [bind].
  destruct (Rlt_dec 0 v) as [Hv|Hv].
  - destruct (H2 Hv) as [_ [H2a H2b]].
    destruct (arange_ok f (M + eps10) f Hf H2a H2b) as [l2 H2']. rewrite H2'. cbn [bind].
    eexists; reflexivity.
  - eexists; reflexivity.
Qed.

(** For a positive frequency and [v < M], the schedule fits once
    [(M + 1e-10 + |v|) / f <= 2^60 - 1]. *)
Lemma coupon_schedule_fits_pos : forall M f v, 0 < f -> v < M ->
  (M + eps10 + Rabs v) / f <= 2 ^ 60 - 1 -> coupon_schedule_fits M f v.
Proof.
  intros M f v Hf Hv H. pose proof eps10_bounds.
  assert (Hq : forall a b, a <= b -> a / f <= b / f).
  { intros a b Hab. unfold Rdiv. apply Rmult_le_compat_r; [|exact Hab].
    left; apply Rinv_0_lt_compat; exact Hf. }
  assert (Hm1 : -1 <= (- f) / f) by (right; field; lra).
  split.
  - split; [lra|]. split.
    + apply (Rle_trans _ (-1)); [lra|]. apply (Rle_trans _ ((- f) / f)); [exact Hm1|].
      apply Hq. lra.
    + apply (Rle_trans _ ((M + eps10 + Rabs v) / f)); [|exact H].
      apply Hq. pose proof (Rle_abs (- v)). rewrite Rabs_Ropp in H1. lra.
  - intros Hv0. split; [lra|]. split.
    + apply (Rle_trans _ (-1)); [lra|]. apply (Rle_trans _ ((- f) / f)); [exact Hm1|].
      apply Hq. lra.
    + apply (Rle_trans _ ((M + eps10 + Rabs v) / f)); [|exact H].
      apply Hq. pose proof (Rabs_pos v). lra.
Qed.

Lemma ytm_coupon_dates_zero : forall M v, ytm_coupon_dates M 0 v = Err ZeroDivisionError.
Proof.
  intros M v. unfold ytm_coupon_dates, arange.
  destruct (Req_EM_T 0 0); [reflexivity|lra].
Qed.

Lemma ytm_coupon_dates_too_long : forall M f v, f <> 0 ->
  2 ^ 60 - 1 < ((M + eps10) - (v + f)) / f -> ytm_coupon_dates M f v = Err ValueError.
Proof.
  intros M f v Hf H. unfold ytm_coupon_dates. rewrite arange_too_long by assumption.
  reflexivity.
Qed.

Lemma ytm_of_dates : forall P M c f N v maxit prec dates,
  v < M -> ytm_coupon_dates M f v = Ok dates ->
  calculate_yield_to_maturity P M c f N v maxit prec
  = Ok (bisection_spec (fun y => flat_price dates (N * c * f) N M v y - P) prec
          (Z.to_nat maxit) (1 / 10000) (1 / 2)).
Proof.
  intros P M c f N v maxit prec dates Hv Hd.
  unfold calculate_yield_to_maturity. destruct (Rle_dec M v); [lra|].
  apply bisection_total. intros y. unfold price_difference. rewrite Hd. reflexivity.
Qed.

Lemma ytm_dates_error : forall P M c f N v maxit prec e,
  v < M -> (1 <= maxit)%Z -> ytm_coupon_dates M f v = Err e ->
  calculate_yield_to_maturity P M c f N v maxit prec = Err e.
Proof.
  intros P M c f N v maxit prec e Hv Hk Hd. unfold calculate_yield_to_maturity.
  destruct (Rle_dec M v); [lra|].
  destruct (Z.to_nat maxit) as [|k] eqn:Hn; [lia|]. cbn [bisection].
  unfold price_difference. rewrite Hd. reflexivity.
Qed.

Lemma ytm_zero_frequency_raises : forall P M c N v maxit prec,
  v < M -> (1 <= maxit)%Z ->
  calculate_yield_to_maturity P M c 0 N v maxit prec = Err ZeroDivisionError.
Proof.
  intros. apply ytm_dates_error; try assumption. apply ytm_coupon_dates_zero.
Qed.

(** C5 (amended).  For [maturity > valuation_date], whenever the coupon
    schedule of [price_difference] (one or two [np.arange] calls) can be
    built, [calculate_yield_to_maturity] raises no error and returns the
    result of the bisection of the claim on the bracket [[0.0001, 0.5]],
    against [f(y) = flat price of the retained coupons and the redemption at
    the flat rate [y] minus [bond_price]]; the schedule can be built when the
    frequency is non-zero and the quotients [(end - start) / frequency] of
    the [np.arange] calls that run lie in [[-2^63, 2^60 - 1]].  Otherwise, with at least one iteration, the
    routine raises the error of [np.arange]: [ZeroDivisionError] for a zero
    frequency, [ValueError] when the schedule is longer than NumPy allows
    (e.g. frequency [1e-300]). *)
Theorem C5_ytm_bisection : forall P M c f N v maxit prec,
  v < M ->
  (forall dates, ytm_coupon_dates M f v = Ok dates ->
     calculate_yield_to_maturity P M c f N v maxit prec
     = Ok (bisection_spec (fun y => flat_price dates (N * c * f) N M v y - P) prec
             (Z.to_nat maxit) (1 / 10000) (1 / 2))) /\
  (coupon_schedule_fits M f v -> exists dates, ytm_coupon_dates M f v = Ok dates) /\
  (forall e, ytm_coupon_dates M f v = Err e -> (1 <= maxit)%Z ->
     calculate_yield_to_maturity P M c f N v maxit prec = Err e) /\
  (f = 0 -> ytm_coupon_dates M f v = Err ZeroDivisionError) /\
  (f <> 0 -> 2 ^ 60 - 1 < ((M + eps10) - (v + f)) / f ->
     ytm_coupon_dates M f v = Err ValueError).
Proof.
  intros P M c f N v maxit prec Hv. split; [|split; [|split; [|split]]].
  - intros dates Hd. apply ytm_of_dates; assumption.
  - apply ytm_coupon_dates_ok.
  - intros e He Hk. apply ytm_dates_error; assumption.
  - intros ->. apply ytm_coupon_dates_zero.
  - apply ytm_coupon_dates_too_long.
Qed.

Lemma C5_ytm_bisection_witness :
  0 < 5 /\
  exists dates, ytm_coupon_dates 5 1 0 = Ok dates /\
    calculate_yield_to_maturity 95 5 (5/100) 1 100 0 100 (/ 10 ^ 8)
    = Ok (bisection_spec (fun y => flat_price dates (100 * (5/100) * 1) 100 5 0 y - 95)
            (/ 10 ^ 8) (Z.to_nat 100) (1 / 10000) (1 / 2)).
Proof.
  split; [lra|]. pose proof eps10_bounds.
  destruct (C5_ytm_bisection 95 5 (5/100) 1 100 0 100 (/ 10 ^ 8) ltac:(lra))
    as [Hok [Hdates _]].
  destruct Hdates as [dates Hd].
  - apply coupon_schedule_fits_pos; [lra|lra|].
    rewrite Rabs_R0. unfold Rdiv. rewrite Rinv_1, Rmult_1_r. lra.
  - exists dates. split; [exact Hd|]. exact (Hok dates Hd).
Defined.

(** C5 counterexample: with [frequency = 0] (and the default 100 iterations)
    the routine raises [ZeroDivisionError] from [np.arange]. *)
Lemma C5_counterexample :
  calculate_yield_to_maturity 95 5 (5/100) 0 100 0 100 (/ 10 ^ 8) = Err ZeroDivisionError.
Proof. apply ytm_zero_frequency_raises; [lra|lia]. Qed.

(** ** Cap/floor parity *)

Lemma gauss_mass_0 : gauss_mass 0 = 0.
Proof.
  unfold gauss_mass. destruct (Rle_dec 0 0) as [H|H]; [|reflexivity].
  rewrite RiemannInt_P9. ring.
Qed.

Lemma Phi_sym : forall x, Phi x + Phi (- x) = 1.
Proof.
  intros x. unfold Phi.
  destruct (Rle_dec 0 x); destruct (Rle_dec 0 (- x)).
  - assert (x = 0) by lra. subst. rewrite Ropp_0, gauss_mass_0. field.
  - rewrite Ropp_involutive. field.
  - field.
  - lra.
Qed.

Lemma Rmax_intrinsic_diff : forall F K, Rmax 0 (F - K) - Rmax 0 (K - F) = F - K.
Proof.
  intros F K. destruct (Rle_dec (F - K) 0).
  - rewrite (Rmax_left 0 (F - K)) by lra. rewrite (Rmax_right 0 (K - F)) by lra. ring.
  - rewrite (Rmax_right 0 (F - K)) by lra. rewrite (Rmax_left 0 (K - F)) by lra. ring.
Qed.

Lemma caplet_minus_floorlet : forall tf ts F K tau vol df N dt,
  0 < F -> 0 < K -> (vol <> 0 \/ F <> K) ->
  exists c f, black_price_caplet tf ts F K tau vol df N dt = Ok (Fin c) /\
              black_price_floorlet tf ts F K tau vol df N dt = Ok (Fin f) /\
              c - f = df * N * dt * (F - K).
Proof.
  intros tf ts F K tau vol df N dt HF HK Hv.
  unfold black_price_caplet, black_price_floorlet.
  destruct (Rle_dec tau 0) as [Ht|Ht].
  - do 2 eexists; split; [reflexivity|split; [reflexivity|]].
    transitivity ((Rmax 0 (F - K) - Rmax 0 (K - F)) * df * N * dt); [ring|].
    rewrite Rmax_intrinsic_diff. ring.
  - rewrite float_div_nonzero by lra. cbn [bind].
    assert (Hq : 0 < F / K) by (apply Rdiv_lt_0_compat; assumption).
    unfold black_d2, black_d1. rewrite flog_pos by assumption.
    change (fadd (Fin (ln (F / K))) (Fin (vol ^ 2 / 2 * tau)))
      with (Fin (ln (F / K) + vol ^ 2 / 2 * tau)).
    assert (Hs : 0 < sqrt tau) by (apply sqrt_lt_R0; lra).
    unfold fdiv.
    destruct (Req_EM_T (vol * sqrt tau) 0) as [H0|H0].
    + assert (Hvol : vol = 0).
      { destruct (Rmult_integral _ _ H0); [assumption|lra]. }
      assert (HFK : F <> K) by (destruct Hv; [contradiction|assumption]).
      assert (Hln : ln (F / K) + vol ^ 2 / 2 * tau <> 0).
      { rewrite Hvol. intro Hc. apply HFK.
        assert (ln (F / K) = ln 1) by (rewrite ln_1; lra).
        apply ln_inv in H; [|assumption|lra].
        apply (Rmult_eq_reg_r (/ K)); [|apply Rinv_neq_0_compat; lra].
        unfold Rdiv in H. rewrite H. field. lra. }
      set (x := ln (F / K) + vol ^ 2 / 2 * tau) in *. clearbody x.
      rewrite H0. unfold fsign.
      destruct (Rlt_dec 0 x);
        [|destruct (Rlt_dec x 0); [|lra]];
        simpl; do 2 eexists; (split; [reflexivity|split; [reflexivity|]]); ring.
    + simpl. do 2 eexists; split; [reflexivity|split; [reflexivity|]].
      set (d1 := (ln (F / K) + vol * (vol * 1) / 2 * tau) / (vol * sqrt tau)).
      set (d2 := d1 + - (vol * sqrt tau)).
      assert (E1 : Phi (- d1) = 1 - Phi d1) by (pose proof (Phi_sym d1); lra).
      assert (E2 : Phi (- d2) = 1 - Phi d2) by (pose proof (Phi_sym d2); lra).
      rewrite E1, E2. ring.
Qed.

Lemma cap_floor_loops : forall m val K freq N vol cr dates fs ac af,
  Forall (fun ab => exists F D,
            forward_rate m val (fst ab) (snd ab) cr = Ok F /\ 0 < F /\
            zero_coupon_bond_price m val (snd ab) cr = Ok D /\
            (vol_used vol <> 0 \/ F <> K))
         (periods fs dates) ->
  0 < K ->
  exists c f s,
    cap_loop m val K freq N vol (black_price_caplet NpFloat64 PyFloat) cr fs dates (Fin ac) = Ok (Fin c) /\
    cap_loop m val K freq N vol (black_price_floorlet NpFloat64 PyFloat) cr fs dates (Fin af) = Ok (Fin f) /\
    forward_cashflows m val K freq N cr fs dates = Ok s /\
    c - f = ac - af + s.
Proof.
  intros m val K freq N vol cr dates. induction dates as [|d ds IH]; intros fs ac af Hp HK.
  - exists ac, af, 0. repeat split; try reflexivity. ring.
  - simpl in Hp. inversion Hp as [|ab l Hab Hrest]; subst. simpl in Hab.
    destruct Hab as [F [D [HF [HFpos [HD Hv]]]]].
    destruct (caplet_minus_floorlet NpFloat64 PyFloat F K (Rmax 0 (fs - val)) (vol_used vol) D N freq
                HFpos HK Hv) as [c1 [f1 [Hc [Hf Hcf]]]].
    destruct (IH d (ac + c1) (af + f1) Hrest HK) as [c [f [s [Hc' [Hf' [Hs' Heq]]]]]].
    exists c, f, (D * N * freq * (F - K) + s). simpl.
    rewrite HF, HD. simpl. rewrite Hc, Hf. simpl. rewrite Hc', Hf'.
    rewrite Hs'. simpl.
    repeat split; try reflexivity. lra.
Qed.

Lemma caplet_atm_zero_vol : forall tf ts F tau df N dt, 0 < F -> 0 < tau ->
  black_price_caplet tf ts F F tau 0 df N dt = Ok NaN.
Proof.
  intros tf ts F tau df N dt HF Ht. unfold black_price_caplet.
  destruct (Rle_dec tau 0) as [H|H]; [lra|].
  rewrite float_div_nonzero by lra. cbn [bind].
  replace (F / F) with 1 by (field; lra).
  unfold black_d2, black_d1. rewrite flog_pos, ln_1 by lra.
  unfold fdiv, fadd.
  destruct (Req_EM_T (0 * sqrt tau) 0) as [_|H0]; [|exfalso; apply H0; ring].
  unfold fsign.
  destruct (Rlt_dec 0 (0 + 0 ^ 2 / 2 * tau)); [exfalso; lra|].
  destruct (Rlt_dec (0 + 0 ^ 2 / 2 * tau) 0); [exfalso; lra|].
  reflexivity.
Qed.

Lemma floorlet_atm_zero_vol : forall tf ts F tau df N dt, 0 < F -> 0 < tau ->
  black_price_floorlet tf ts F F tau 0 df N dt = Ok NaN.
Proof.
  intros tf ts F tau df N dt HF Ht. unfold black_price_floorlet.
  destruct (Rle_dec tau 0) as [H|H]; [lra|].
  rewrite float_div_nonzero by lra. cbn [bind].
  replace (F / F) with 1 by (field; lra).
  unfold black_d2, black_d1. rewrite flog_pos, ln_1 by lra.
  unfold fdiv, fadd.
  destruct (Req_EM_T (0 * sqrt tau) 0) as [_|H0]; [|exfalso; apply H0; ring].
  unfold fsign.
  destruct (Rlt_dec 0 (0 + 0 ^ 2 / 2 * tau)); [exfalso; lra|].
  destruct (Rlt_dec (0 + 0 ^ 2 / 2 * tau) 0); [exfalso; lra|].
  reflexivity.
Qed.

(** Claim C7 (corrected): cap/floor parity.  When every period's forward rate
    [F_i] and the strike are positive and the Black formula is defined
    (non-zero volatility, or [F_i <> K]), [price_cap] and [price_floor] return
    finite values whose difference is exactly
    [sum_i DF_i * notional * payment_frequency * (F_i - K)]. *)
Theorem C7_cap_floor_parity : forall m valuation_date K freq N vol start end_ dates,
  arange (start + freq) (end_ + eps10) freq = Ok dates ->
  0 < K ->
  Forall (fun ab => exists F D,
            forward_rate m valuation_date (fst ab) (snd ab) (r0 m) = Ok F /\ 0 < F /\
            zero_coupon_bond_price m valuation_date (snd ab) (r0 m) = Ok D /\
            (vol_used vol <> 0 \/ F <> K))
         (periods start dates) ->
  exists c f s,
    price_cap m valuation_date K freq N vol start end_ = Ok (Fin c) /\
    price_floor m valuation_date K freq N vol start end_ = Ok (Fin f) /\
    discounted_forward_minus_strike m valuation_date K freq N start end_ = Ok s /\
    c - f = s.
Proof.
  intros m val K freq N vol start end_ dates Ha HK Hp.
  destruct (cap_floor_loops m val K freq N vol (r0 m) dates start 0 0 Hp HK)
    as [c [f [s [Hc [Hf [Hs Heq]]]]]].
  exists c, f, s. unfold price_cap, price_floor, discounted_forward_minus_strike.
  rewrite Ha. cbn [bind]. rewrite Hc, Hf, Hs. repeat split. lra.
Qed.

Lemma C7_cap_floor_parity_witness :
  exists c f s,
    price_cap (flat_rate_model (3/100) (5/100)) 0 (3/100) (1/2) 1 None 1 (3/2) = Ok (Fin c) /\
    price_floor (flat_rate_model (3/100) (5/100)) 0 (3/100) (1/2) 1 None 1 (3/2) = Ok (Fin f) /\
    discounted_forward_minus_strike (flat_rate_model (3/100) (5/100)) 0 (3/100) (1/2) 1 1 (3/2) = Ok s /\
    c - f = s.
Proof.
  assert (Ha : arange (1 + 1/2) (3/2 + eps10) (1/2) = Ok [1 + 1/2]).
  { pose proof eps10_bounds. apply arange_single; lra. }
  apply (C7_cap_floor_parity (flat_rate_model (3/100) (5/100)) 0 (3/100) (1/2) 1 None 1 (3/2)
           [1 + 1/2] Ha); [lra|].
  constructor; [|constructor]. simpl.
  exists (5/100), (exp (- (5/100) * (1 + 1/2 - 0))).
  split; [reflexivity|]. split; [lra|]. split.
  - destruct (Rge_dec 0 (1 + 1/2)); [lra|reflexivity].
  - left. unfold vol_used. lra.
Defined.

(** Counterexample to C7 as stated: with zero volatility and an at-the-money
    forward ([F = K = 0.05]) the cap and the floor both evaluate to NaN, so
    their difference is not the finite forward-minus-strike value. *)
Lemma C7_counterexample :
  exists s,
    price_cap (flat_rate_model (3/100) (5/100)) 0 (5/100) (1/2) 1 (Some 0) 1 (3/2) = Ok NaN /\
    price_floor (flat_rate_model (3/100) (5/100)) 0 (5/100) (1/2) 1 (Some 0) 1 (3/2) = Ok NaN /\
    discounted_forward_minus_strike (flat_rate_model (3/100) (5/100)) 0 (5/100) (1/2) 1 1 (3/2) = Ok s /\
    fsub NaN NaN <> Fin s.
Proof.
  assert (Ha : arange (1 + 1/2) (3/2 + eps10) (1/2) = Ok [1 + 1/2]).
  { pose proof eps10_bounds. apply arange_single; lra. }
  unfold price_cap, price_floor, discounted_forward_minus_strike. rewrite Ha.
  cbn [bind cap_loop forward_cashflows flat_rate_model forward_rate zero_coupon_bond_price].
  destruct (Rge_dec 0 (1 + 1/2)); [lra|]. cbn [bind].
  unfold vol_used. rewrite (Rmax_right 0 (1 - 0)) by lra.
  rewrite caplet_atm_zero_vol, floorlet_atm_zero_vol by lra.
  eexists. split; [reflexivity|]. split; [reflexivity|]. split; [reflexivity|].
  discriminate.
Qed.

(** ** Hedging simulation: schedule, hedge costs and the shared model *)

Lemma py_int_0 : py_int 0 = 0%Z.
Proof.
  unfold py_int, Int_part. destruct (Rle_dec 0 0) as [_|H]; [|lra].
  rewrite <- (tech_up 0 1); simpl; [reflexivity|lra|lra].
Qed.

Lemma py_div_ok : forall x y q, py_div x y = Ok q -> q = x / y.
Proof.
  intros x y q H. unfold py_div in H. destruct (Req_EM_T y 0); inversion H; reflexivity.
Qed.

Lemma adapt_model_spec : forall m th m1, adapt_model m th = Ok m1 ->
  dt m1 = dt m /\ time_horizon m1 = th /\
  (th = time_horizon m -> m1 = m) /\
  (th <> time_horizon m -> Z.of_nat (timesteps m1) = py_int (th / dt m)).
Proof.
  intros m th m1 H. unfold adapt_model in H.
  destruct (Req_EM_T th (time_horizon m)) as [E|E].
  - inversion H; subst. repeat split; intros; try reflexivity; contradiction.
  - destruct (py_div th (dt m)) as [q|e] eqn:Hq; [|discriminate]. cbn [bind] in H.
    apply py_div_ok in Hq. subst q.
    destruct (Z.ltb (py_int (th / dt m)) 0) eqn:Hl; [discriminate|].
    inversion H; subst. simpl. repeat split; intros; try reflexivity; try contradiction.
    apply Z.ltb_ge in Hl. apply Z2Nat.id. assumption.
Qed.

Section HedgingFacts.
Variable instrument_price : RateModel -> R -> R.
Variable compute_hedge_ratio : R -> R -> R.
Variable rebalance_frequency : R.
Variable simulate_rates : RateModel -> nat -> res mat.

Lemma rebalance_loop_indices : forall fuel th dt ts k ct acc steps,
  ct = INR k * rebalance_frequency ->
  (forall j, (j < k)%nat -> INR j * rebalance_frequency <= th) ->
  rebalance_loop rebalance_frequency fuel th dt ts ct acc = Some (Ok steps) ->
  forall z, In z steps -> In z acc \/
    exists j, (forall i, (i <= j)%nat -> INR i * rebalance_frequency <= th) /\
              z = py_int (INR j * rebalance_frequency / dt).
Proof.
  induction fuel as [|fuel IH]; intros th dt ts k ct acc steps Hct Hk H z Hz;
    simpl in H; [discriminate|].
  destruct (Rle_dec ct th) as [Hle|Hle].
  - destruct (py_div ct dt) as [q|e] eqn:Hq; [|discriminate].
    apply py_div_ok in Hq. subst q.
    assert (Hk' : forall j, (j < S k)%nat -> INR j * rebalance_frequency <= th).
    { intros j Hj. destruct (Nat.eq_dec j k) as [->|Hne]; [lra|]. apply Hk. lia. }
    assert (Hct' : ct + rebalance_frequency = INR (S k) * rebalance_frequency)
      by (rewrite S_INR, Hct; ring).
    destruct (IH th dt ts (S k) _ _ steps Hct' Hk' H z Hz)
      as [Hin|Hex]; [|right; exact Hex].
    destruct (Z.leb (py_int (ct / dt)) (Z.of_nat ts)); [|left; exact Hin].
    apply in_app_or in Hin. destruct Hin as [Hin|[<-|[]]]; [left; exact Hin|].
    right. exists k. split.
    + intros i Hi. destruct (Nat.eq_dec i k) as [->|Hne]; [lra|]. apply Hk. lia.
    + subst ct. reflexivity.
  - inversion H; subst. left. exact Hz.
Qed.

(** With [time_horizon <= rebalance_frequency] the schedule only holds step [0]
    and, when the two are equal, step [int(time_horizon / dt)]. *)
Lemma rebalance_steps_sparse : forall fuel th dt ts steps,
  th <= rebalance_frequency ->
  rebalance_loop rebalance_frequency fuel th dt ts 0 [] = Some (Ok steps) ->
  forall z, In z steps ->
    (z = 0%Z \/ z = py_int (th / dt)) /\ (th < rebalance_frequency -> z = 0%Z).
Proof.
  intros fuel th dt ts steps Hth H z Hz.
  destruct (rebalance_loop_indices fuel th dt ts 0 0 [] steps
              ltac:(simpl; ring) ltac:(intros; lia) H z Hz) as [[]|[j [Hj Hz']]].
  subst z.
  assert (H0 : 0 <= th) by (pose proof (Hj 0%nat ltac:(lia)); simpl in *; lra).
  destruct j as [|j].
  - replace (INR 0 * rebalance_frequency / dt) with 0 by (simpl; unfold Rdiv; ring).
    rewrite py_int_0. split; [left|intros]; reflexivity.
  - assert (H1 : rebalance_frequency <= th)
      by (pose proof (Hj 1%nat ltac:(lia)); simpl in *; lra).
    assert (Hf : rebalance_frequency = th) by lra.
    split; [|intros; lra].
    destruct j as [|j].
    + right. f_equal. rewrite Hf. simpl. unfold Rdiv. ring.
    + assert (H2 := Hj 2%nat ltac:(lia)). simpl in H2.
      assert (Hz0 : rebalance_frequency = 0) by lra.
      left. rewrite Hz0. replace (INR (S (S j)) * 0 / dt) with 0 by (unfold Rdiv; ring).
      apply py_int_0.
Qed.

Lemma hedge_step_costs : forall rates times steps path t st i j,
  st_hedge_costs (hedge_step instrument_price compute_hedge_ratio rates times steps path t st) i j
    = st_hedge_costs st i j \/
  (j = t /\ is_rebalance_step steps t = true).
Proof.
  intros. unfold hedge_step.
  destruct (is_rebalance_step steps t) eqn:E; simpl; [|left; reflexivity].
  unfold upd. destruct (Nat.eqb i path && Nat.eqb j t)%bool eqn:E2; [|left; reflexivity].
  apply Bool.andb_true_iff in E2. destruct E2 as [_ E2]. apply Nat.eqb_eq in E2.
  right. split; [assumption|reflexivity].
Qed.

Lemma hedge_step_model : forall rates times steps path t st,
  st_model (hedge_step instrument_price compute_hedge_ratio rates times steps path t st)
    = set_r0 (st_model st) (rates path t).
Proof.
  intros. unfold hedge_step. destruct (is_rebalance_step steps t); reflexivity.
Qed.

Lemma step_loop_costs : forall rates times steps path k t st i j,
  st_hedge_costs (step_loop instrument_price compute_hedge_ratio rates times steps path k t st) i j
    = st_hedge_costs st i j \/
  ((t <= j)%nat /\ is_rebalance_step steps j = true).
Proof.
  intros rates times steps path k. induction k as [|k IH]; intros t st i j; simpl.
  - left. reflexivity.
  - destruct (IH (S t) (hedge_step instrument_price compute_hedge_ratio rates times steps path t st) i j)
      as [E|[Hj Hr]]; [|right; split; [lia|assumption]].
    rewrite E. destruct (hedge_step_costs rates times steps path t st i j) as [E'|[-> Hr]].
    + left. exact E'.
    + right. split; [lia|assumption].
Qed.

Lemma step_loop_model : forall rates times steps path k t st,
  st_model (step_loop instrument_price compute_hedge_ratio rates times steps path (S k) t st)
    = set_r0 (st_model st) (rates path (t + k)%nat).
Proof.
  intros rates times steps path k. induction k as [|k IH]; intros t st.
  - simpl. rewrite hedge_step_model, Nat.add_0_r. reflexivity.
  - change (step_loop instrument_price compute_hedge_ratio rates times steps path (S (S k)) t st)
      with (step_loop instrument_price compute_hedge_ratio rates times steps path (S k) (S t)
              (hedge_step instrument_price compute_hedge_ratio rates times steps path t st)).
    rewrite IH, hedge_step_model. replace (S t + k)%nat with (t + S k)%nat by lia.
    reflexivity.
Qed.

Lemma path_body_costs : forall rates times steps path ts st i j,
  st_hedge_costs (path_body instrument_price compute_hedge_ratio rates times steps path ts st) i j
    = st_hedge_costs st i j \/
  ((1 <= j)%nat /\ is_rebalance_step steps j = true).
Proof.
  intros. unfold path_body.
  match goal with
  | |- context [step_loop _ _ _ _ _ _ _ _ ?s0] =>
      destruct (step_loop_costs rates times steps path ts 1 s0 i j) as [E|H];
        [left; exact E|right; exact H]
  end.
Qed.

Lemma path_body_model : forall rates times steps path ts st,
  st_model (path_body instrument_price compute_hedge_ratio rates times steps path ts st)
    = set_r0 (st_model st) (rates path ts).
Proof.
  intros. unfold path_body. destruct ts as [|ts].
  - reflexivity.
  - rewrite step_loop_model. reflexivity.
Qed.

Lemma path_loop_costs : forall rates times steps ts k path st i j,
  st_hedge_costs (path_loop instrument_price compute_hedge_ratio rates times steps ts k path st) i j
    = st_hedge_costs st i j \/
  ((1 <= j)%nat /\ is_rebalance_step steps j = true).
Proof.
  intros rates times steps ts k. induction k as [|k IH]; intros path st i j; simpl.
  - left. reflexivity.
  - destruct (IH (S path) (path_body instrument_price compute_hedge_ratio rates times steps path ts st) i j)
      as [E|Hr]; [|right; exact Hr].
    rewrite E. apply path_body_costs.
Qed.

Lemma path_loop_model : forall rates times steps ts k path st,
  st_model (path_loop instrument_price compute_hedge_ratio rates times steps ts (S k) path st)
    = set_r0 (st_model st) (rates (path + k)%nat ts).
Proof.
  intros rates times steps ts k. induction k as [|k IH]; intros path st.
  - simpl. rewrite path_body_model, Nat.add_0_r. reflexivity.
  - change (path_loop instrument_price compute_hedge_ratio rates times steps ts (S (S k)) path st)
      with (path_loop instrument_price compute_hedge_ratio rates times steps ts (S k) (S path)
              (path_body instrument_price compute_hedge_ratio rates times steps path ts st)).
    rewrite IH, path_body_model. replace (S path + k)%nat with (path + S k)%nat by lia.
    reflexivity.
Qed.

Lemma is_rebalance_step_in : forall steps t,
  is_rebalance_step steps t = true -> In (Z.of_nat t) steps.
Proof.
  intros steps t H. unfold is_rebalance_step in H. apply existsb_exists in H.
  destruct H as [z [Hz E]]. apply Z.eqb_eq in E. subst z. exact Hz.
Qed.

(** Every non-zero hedge cost sits at a step [j >= 1] of the rebalancing
    schedule that [simulate] computed. *)
Lemma simulate_hedge_costs_support : forall fuel m n tharg Rs m',
  simulate instrument_price compute_hedge_ratio rebalance_frequency simulate_rates
    fuel m n tharg = Some (Ok (Rs, m')) ->
  exists ts steps,
    rebalance_loop rebalance_frequency fuel (horizon_arg m tharg) (dt m) ts 0 [] = Some (Ok steps) /\
    forall i j, res_hedge_costs Rs i j = 0 \/ ((1 <= j)%nat /\ In (Z.of_nat j) steps).
Proof.
  intros fuel m n tharg Rs m' H. unfold simulate in H.
  destruct (adapt_model m (horizon_arg m tharg)) as [m1|e] eqn:Ha; [|discriminate].
  destruct (adapt_model_spec _ _ _ Ha) as [Hdt _].
  destruct (simulate_rates m1 n) as [rates|e]; [|discriminate].
  destruct (rebalance_loop rebalance_frequency fuel (horizon_arg m tharg) (dt m1)
              (timesteps m1) 0 []) as [[steps|e]|] eqn:Hr; try discriminate.
  inversion H; subst. clear H.
  exists (timesteps m1), steps. rewrite <- Hdt. split; [exact Hr|].
  intros i j. simpl.
  destruct (path_loop_costs rates (linspace_at (horizon_arg m tharg) (timesteps m1)) steps
              (timesteps m1) n 0 (mkSimState m1 zeros zeros zeros zeros zeros) i j)
    as [E|[Hj Hs]].
  - left. rewrite E. reflexivity.
  - right. split; [exact Hj|]. apply is_rebalance_step_in. exact Hs.
Qed.

Lemma simulate_model : forall fuel m n tharg Rs m',
  simulate instrument_price compute_hedge_ratio rebalance_frequency simulate_rates
    fuel m n tharg = Some (Ok (Rs, m')) ->
  (1 <= n)%nat ->
  exists m1, adapt_model m (horizon_arg m tharg) = Ok m1 /\
    m' = set_r0 m1 (res_rates Rs (n - 1)%nat (timesteps m1)) /\
    res_timesteps Rs = timesteps m1.
Proof.
  intros fuel m n tharg Rs m' H Hn. unfold simulate in H.
  destruct (adapt_model m (horizon_arg m tharg)) as [m1|e] eqn:Ha; [|discriminate].
  destruct (simulate_rates m1 n) as [rates|e]; [|discriminate].
  destruct (rebalance_loop rebalance_frequency fuel (horizon_arg m tharg) (dt m1)
              (timesteps m1) 0 []) as [[steps|e]|] eqn:Hr; try discriminate.
  inversion H; subst. clear H.
  exists m1. split; [reflexivity|]. simpl. split; [|reflexivity].
  destruct n as [|k]; [lia|].
  rewrite path_loop_model. simpl. rewrite Nat.sub_0_r. reflexivity.
Qed.

End HedgingFacts.

(** A concrete hedging run: the flat-rate model (horizon 1, 100 steps of
    0.01), constant simulated rates, an instrument priced at the current rate,
    a hedge ratio equal to the time, and a rebalancing frequency of 2. *)
Lemma demo_rebalance : rebalance_loop 2 5 1 (/ 100) 100 0 [] = Some (Ok [0%Z]).
Proof.
  cbn [rebalance_loop]. destruct (Rle_dec 0 1) as [_|H]; [|lra].
  rewrite py_div_nonzero by lra. cbn [bind]. replace (0 / / 100) with 0 by field.
  rewrite py_int_0. cbn [Z.leb Z.compare Z.of_nat app].
  destruct (Rle_dec (0 + 2) 1); [lra|]. reflexivity.
Qed.

Lemma demo_simulate_ok : exists Rs m',
  simulate (fun m _ => r0 m) (fun t _ => t) 2 (fun m _ => Ok (fun _ _ => r0 m)) 5
    (flat_rate_model (3/100) (5/100)) 1 None = Some (Ok (Rs, m')).
Proof.
  unfold simulate, horizon_arg, adapt_model.
  destruct (Req_EM_T _ _) as [_|H]; [|exfalso; apply H; reflexivity].
  cbn [bind flat_rate_model time_horizon dt timesteps]. rewrite demo_rebalance.
  eexists. eexists. reflexivity.
Qed.

(** A second run with two paths and two steps: [simulate(n_paths=2,
    time_horizon=2)] on [demo_hedge_model] (so the horizon and the step count
    are overwritten), rates [r0 + (i + j) / 100] on path [i] at step [j], an
    instrument priced at the current rate, a hedge ratio equal to the time and
    a rebalancing frequency of 1 (every step rebalances). *)
Lemma py_int_IZR : forall z, (0 <= z)%Z -> py_int (IZR z) = z.
Proof.
  intros z Hz. unfold py_int, Int_part. destruct (Rle_dec 0 (IZR z)) as [_|H].
  - rewrite <- (tech_up (IZR z) (z + 1)); [ring| rewrite plus_IZR; lra | rewrite plus_IZR; lra].
  - apply IZR_le in Hz. lra.
Qed.

Lemma demo_hedge_rebalance : rebalance_loop 1 5 2 1 2 0 [] = Some (Ok [0%Z; 1%Z; 2%Z]).
Proof.
  cbn [rebalance_loop]. destruct (Rle_dec 0 2) as [_|H]; [|lra].
  rewrite py_div_nonzero by lra. replace (0 / 1) with (IZR 0) by field.
  rewrite py_int_IZR by lia. cbn [Z.leb Z.compare Z.of_nat app].
  destruct (Rle_dec (0 + 1) 2) as [_|H]; [|lra].
  rewrite py_div_nonzero by lra. replace ((0 + 1) / 1) with (IZR 1) by field.
  rewrite py_int_IZR by lia. cbn [Z.leb Z.compare Z.of_nat app].
  destruct (Rle_dec (0 + 1 + 1) 2) as [_|H]; [|lra].
  rewrite py_div_nonzero by lra. replace ((0 + 1 + 1) / 1) with (IZR 2) by field.
  rewrite py_int_IZR by lia. cbn [Z.leb Z.compare Z.of_nat app].
  destruct (Rle_dec (0 + 1 + 1 + 1) 2) as [H|_]; [lra|]. reflexivity.
Qed.

Lemma demo_hedge_adapt : adapt_model demo_hedge_model 2 =
  Ok (set_horizon demo_hedge_model 2 2).
Proof.
  unfold adapt_model. cbn [demo_hedge_model time_horizon dt].
  destruct (Req_EM_T 2 1) as [H|_]; [lra|].
  rewrite py_div_nonzero by lra. cbn [bind]. replace (2 / 1) with (IZR 2) by field.
  rewrite py_int_IZR by lia. reflexivity.
Qed.

(** Closes the arithmetic of the concrete run. *)
Ltac demo_arith :=
  cbn -[INR Rplus Rmult Rminus Rdiv Rinv Rabs Rlt_dec Rle_dec];
  try replace (2 / INR 2) with 1 by (simpl; field); simpl INR;
  rewrite ?Rabs_pos_eq by lra; field.

Lemma demo_hedge_run : exists Rs m',
  simulate (fun m _ => r0 m) (fun t _ => t) 1
    (fun m _ => Ok (fun i j => r0 m + INR (i + j) / 100)) 5 demo_hedge_model 2 (Some 2)
  = Some (Ok (Rs, m')) /\
  res_n_paths Rs = 2%nat /\ res_timesteps Rs = 2%nat /\
  (forall i j, res_rates Rs i j = 3/100 + INR (i + j) / 100) /\
  (forall i t, (i < 2)%nat -> (t <= 2)%nat -> res_hedge_ratios Rs i t = INR t) /\
  res_pnl Rs 0%nat 2%nat = -3/100 - 9/1000000 /\ res_pnl Rs 1%nat 2%nat = -4/100 - 11/1000000 /\
  res_hedge_costs Rs 0%nat 0%nat = 0 /\ res_hedge_costs Rs 0%nat 1%nat = 4/1000000 /\
  res_hedge_costs Rs 0%nat 2%nat = 5/1000000 /\
  res_hedge_costs Rs 1%nat 0%nat = 0 /\ res_hedge_costs Rs 1%nat 1%nat = 5/1000000 /\
  res_hedge_costs Rs 1%nat 2%nat = 6/1000000.
Proof.
  unfold simulate. cbn [horizon_arg]. rewrite demo_hedge_adapt. cbn [bind].
  cbn [set_horizon demo_hedge_model dt timesteps]. rewrite demo_hedge_rebalance.
  eexists; eexists; split; [reflexivity|].
  split; [reflexivity|]. split; [reflexivity|]. split; [intros i j; reflexivity|].
  split.
  { intros i t Hi Ht.
    destruct i as [|[|i]]; [| |lia]; (destruct t as [|[|[|t]]]; [| | |lia]); demo_arith. }
  repeat split; demo_arith.
Qed.

Lemma Int_part_frac : forall x, 0 <= x < 1 -> Int_part x = 0%Z.
Proof.
  intros x Hx. unfold Int_part. rewrite <- (tech_up x 1); [reflexivity|lra|lra].
Qed.

(** Claim C6 (corrected): when [time_horizon <= rebalance_frequency], the
    hedge cost at step 0 is always zero (the loop over [t] starts at 1), and
    every entry at a step other than [int(time_horizon / dt)] is zero; when
    [time_horizon < rebalance_frequency] every hedge cost is zero.  So a path
    has at most one non-zero cost, never at the first rebalancing step 0. *)
Theorem C6_hedge_costs_sparse :
  forall instrument_price compute_hedge_ratio rebalance_frequency simulate_rates
         fuel m n tharg Rs m',
  horizon_arg m tharg <= rebalance_frequency ->
  simulate instrument_price compute_hedge_ratio rebalance_frequency simulate_rates
    fuel m n tharg = Some (Ok (Rs, m')) ->
  (forall i, res_hedge_costs Rs i 0%nat = 0) /\
  (forall i j, Z.of_nat j <> py_int (horizon_arg m tharg / dt m) ->
     res_hedge_costs Rs i j = 0) /\
  (horizon_arg m tharg < rebalance_frequency -> forall i j, res_hedge_costs Rs i j = 0).
Proof.
  intros ip chr rf sr fuel m n tharg Rs m' Hth H.
  destruct (simulate_hedge_costs_support ip chr rf sr fuel m n tharg Rs m' H)
    as [ts [steps [Hr Hc]]].
  pose proof (rebalance_steps_sparse rf fuel (horizon_arg m tharg) (dt m) ts steps Hth Hr)
    as Hs.
  split; [|split].
  - intros i. destruct (Hc i 0%nat) as [E|[Hj _]]; [exact E|lia].
  - intros i j Hne. destruct (Hc i j) as [E|[Hj Hin]]; [exact E|].
    destruct (Hs _ Hin) as [[Hz|Hz] _]; [lia|contradiction].
  - intros Hlt i j. destruct (Hc i j) as [E|[Hj Hin]]; [exact E|].
    destruct (Hs _ Hin) as [_ Hz]. specialize (Hz Hlt). lia.
Qed.

Lemma C6_hedge_costs_sparse_witness :
  horizon_arg (flat_rate_model (3/100) (5/100)) None <= 2 /\
  exists Rs m',
    simulate (fun m _ => r0 m) (fun t _ => t) 2 (fun m _ => Ok (fun _ _ => r0 m)) 5
      (flat_rate_model (3/100) (5/100)) 1 None = Some (Ok (Rs, m')) /\
    (forall i, res_hedge_costs Rs i 0%nat = 0) /\
    (forall i j, Z.of_nat j <> py_int (horizon_arg (flat_rate_model (3/100) (5/100)) None
                                        / dt (flat_rate_model (3/100) (5/100))) ->
       res_hedge_costs Rs i j = 0) /\
    (horizon_arg (flat_rate_model (3/100) (5/100)) None < 2 ->
       forall i j, res_hedge_costs Rs i j = 0).
Proof.
  assert (Hth : horizon_arg (flat_rate_model (3/100) (5/100)) None <= 2)
    by (unfold horizon_arg; simpl; lra).
  split; [exact Hth|].
  destruct demo_simulate_ok as [Rs [m' H]].
  exists Rs, m'. split; [exact H|].
  exact (C6_hedge_costs_sparse _ _ _ _ _ _ _ _ Rs m' Hth H).
Defined.

(** Counterexample to C6 as stated: with [rebalance_frequency = 2 > 1 =
    time_horizon] the run succeeds and every hedge cost of every path is zero,
    so no path has exactly one non-zero entry. *)
Lemma C6_counterexample : exists Rs m',
  simulate (fun m _ => r0 m) (fun t _ => t) 2 (fun m _ => Ok (fun _ _ => r0 m)) 5
    (flat_rate_model (3/100) (5/100)) 1 None = Some (Ok (Rs, m')) /\
  horizon_arg (flat_rate_model (3/100) (5/100)) None <= 2 /\
  forall i j, res_hedge_costs Rs i j = 0.
Proof.
  destruct demo_simulate_ok as [Rs [m' H]].
  exists Rs, m'. split; [exact H|].
  assert (Hth : horizon_arg (flat_rate_model (3/100) (5/100)) None < 2)
    by (unfold horizon_arg; simpl; lra).
  split; [lra|].
  destruct (simulate_hedge_costs_support _ _ _ _ _ _ _ _ Rs m' H) as [ts [steps [Hr Hc]]].
  intros i j. destruct (Hc i j) as [E|[Hj Hin]]; [exact E|].
  destruct (rebalance_steps_sparse _ _ _ _ _ steps (Rlt_le _ _ Hth) Hr _ Hin) as [_ Hz].
  specialize (Hz Hth). lia.
Qed.

(** Claim C10: [simulate] leaves its mark on the rate model it shares with the
    caller.  After a successful run with [n_paths >= 1] the model's [r0] is the
    last simulated rate of the last path; its [time_horizon] is the horizon of
    the run; when that horizon differs from the model's, [timesteps] has been
    overwritten with [int(time_horizon / dt)]; [dt] is unchanged.  Nothing is
    restored. *)
Theorem C10_simulate_mutates_model :
  forall instrument_price compute_hedge_ratio rebalance_frequency simulate_rates
         fuel m n tharg Rs m',
  simulate instrument_price compute_hedge_ratio rebalance_frequency simulate_rates
    fuel m n tharg = Some (Ok (Rs, m')) ->
  (1 <= n)%nat ->
  r0 m' = res_rates Rs (n - 1)%nat (res_timesteps Rs) /\
  timesteps m' = res_timesteps Rs /\
  time_horizon m' = horizon_arg m tharg /\
  (horizon_arg m tharg <> time_horizon m ->
     Z.of_nat (timesteps m') = py_int (horizon_arg m tharg / dt m)) /\
  (horizon_arg m tharg = time_horizon m -> timesteps m' = timesteps m) /\
  dt m' = dt m.
Proof.
  intros ip chr rf sr fuel m n tharg Rs m' H Hn.
  destruct (simulate_model ip chr rf sr fuel m n tharg Rs m' H Hn) as [m1 [Ha [-> Hts]]].
  destruct (adapt_model_spec _ _ _ Ha) as [Hdt [Hth [Heq Hne]]].
  simpl. rewrite Hts. repeat split; try assumption; try reflexivity.
  intros E. rewrite (Heq E). reflexivity.
Qed.

Lemma C10_simulate_mutates_model_witness : exists Rs m',
  simulate (fun m _ => r0 m) (fun t _ => t) 1
    (fun m _ => Ok (fun i j => r0 m + INR (i + j) / 100)) 5 demo_hedge_model 2 (Some 2)
  = Some (Ok (Rs, m')) /\
  (1 <= 2)%nat /\
  (r0 m' = res_rates Rs (2 - 1)%nat (res_timesteps Rs) /\
   timesteps m' = res_timesteps Rs /\
   time_horizon m' = horizon_arg demo_hedge_model (Some 2) /\
   (horizon_arg demo_hedge_model (Some 2) <> time_horizon demo_hedge_model ->
      Z.of_nat (timesteps m') = py_int (horizon_arg demo_hedge_model (Some 2) / dt demo_hedge_model)) /\
   (horizon_arg demo_hedge_model (Some 2) = time_horizon demo_hedge_model ->
      timesteps m' = timesteps demo_hedge_model) /\
   dt m' = dt demo_hedge_model) /\
  r0 m' = 6 / 100 /\ r0 demo_hedge_model = 3 / 100 /\
  timesteps m' = 2%nat /\ timesteps demo_hedge_model = 1%nat /\
  time_horizon m' = 2 /\ time_horizon demo_hedge_model = 1.
Proof.
  destruct demo_hedge_run as [Rs [m' [H [Hn [Hts [Hr _]]]]]].
  exists Rs, m'. split; [exact H|]. split; [lia|].
  pose proof (C10_simulate_mutates_model _ _ _ _ _ _ _ _ Rs m' H ltac:(lia)) as HC.
  split; [exact HC|].
  destruct HC as [E1 [E2 [E3 _]]].
  split; [rewrite E1, Hr, Hts; simpl; field|]. split; [reflexivity|].
  split; [rewrite E2, Hts; reflexivity|]. split; [reflexivity|].
  split; [rewrite E3; reflexivity|reflexivity].
Defined.

(** ** Risk analytics *)

Lemma np_mean_nonempty : forall l, l <> [] ->
  np_mean l = Fin (np_sum l / INR (length l)).
Proof. intros [|x l] H; [contradiction|reflexivity]. Qed.

Lemma np_std_nonempty : forall l, l <> [] ->
  np_std l = Fin (sqrt (np_sum (map (fun x => (x - np_sum l / INR (length l)) ^ 2) l)
                        / INR (length l))).
Proof. intros [|x l] H; [contradiction|reflexivity]. Qed.

Lemma Int_part_nat : forall r, 0 <= r ->
  (0 <= Int_part r)%Z /\ INR (Z.to_nat (Int_part r)) = IZR (Int_part r).
Proof.
  intros r Hr. destruct (base_Int_part r) as [H1 H2].
  assert (H0 : (0 <= Int_part r)%Z).
  { apply Z.lt_succ_r. apply lt_IZR. rewrite succ_IZR. lra. }
  split; [exact H0|]. rewrite INR_IZR_INZ, Z2Nat.id by exact H0. reflexivity.
Qed.

(** The linear-interpolation percentile of a non-empty array, for
    [0 <= q <= 100], exists and is at least one of the array's values. *)
Lemma percentile_bounded_below : forall a q, a <> [] -> 0 <= q <= 100 ->
  exists v, percentile a q = Ok v /\ exists x, In x a /\ x <= v.
Proof.
  intros a q Ha Hq. unfold percentile.
  destruct (Rlt_dec q 0); [lra|]. destruct (Rlt_dec 100 q); [lra|].
  assert (Hp := RSort.Permuted_sort a).
  destruct (RSort.sort a) as [|h t] eqn:Hs.
  { apply Permutation_sym, Permutation_nil in Hp. contradiction. }
  eexists. split; [reflexivity|].
  replace (length (h :: t) - 1)%nat with (length t) by (simpl; lia).
  set (vi := INR (length t) * (q / 100)).
  assert (Hvi0 : 0 <= vi).
  { unfold vi. apply Rmult_le_pos; [apply pos_INR|lra]. }
  assert (Hvi1 : vi <= INR (length t)).
  { unfold vi. pose proof (pos_INR (length t)).
    rewrite <- (Rmult_1_r (INR (length t))) at 2.
    apply Rmult_le_compat_l; lra. }
  destruct (Int_part_nat vi Hvi0) as [HZ HI].
  destruct (base_Int_part vi) as [B1 B2].
  set (lo := Z.to_nat (Int_part vi)) in *.
  assert (Hlo : (lo <= length t)%nat) by (apply INR_le; lra).
  set (hi := Nat.min (S lo) (length t)).
  assert (Hhi : (hi <= length t)%nat) by (unfold hi; lia).
  set (x := nth lo (h :: t) 0). set (y := nth hi (h :: t) 0).
  assert (Hx : In x a).
  { apply (Permutation_in _ (Permutation_sym Hp)). apply nth_In. simpl. lia. }
  assert (Hy : In y a).
  { apply (Permutation_in _ (Permutation_sym Hp)). apply nth_In. simpl. lia. }
  set (g := vi - INR lo).
  assert (Hg : 0 <= g <= 1) by (unfold g; lra).
  destruct (Rle_dec x y) as [Hxy|Hxy].
  - exists x. split; [exact Hx|].
    assert (0 <= g * (y - x)) by (apply Rmult_le_pos; lra). lra.
  - exists y. split; [exact Hy|].
    assert (g * (x - y) <= 1 * (x - y)) by (apply Rmult_le_compat_r; lra). lra.
Qed.

Lemma final_pnl_of_length : forall Rs, length (final_pnl_of Rs) = res_n_paths Rs.
Proof. intros. unfold final_pnl_of. rewrite length_map, length_seq. reflexivity. Qed.

Lemma total_hedge_costs_of_length : forall Rs,
  length (total_hedge_costs_of Rs) = res_n_paths Rs.
Proof. intros. unfold total_hedge_costs_of. rewrite length_map, length_seq. reflexivity. Qed.

(** Claim C9: for [n_paths >= 1] and a confidence level [c] in (0, 1),
    [analyze_results] succeeds; the mean and (population) standard deviation
    are those of the final P&L; VaR is its [(1 - c) * 100] percentile;
    the P&L values at or below VaR form a non-empty set whose mean is the
    Expected Shortfall; the Sharpe ratio is [mean / std] when [std > 0] and
    NaN when [std = 0]; [mean_hedge_costs] is the mean over paths of each
    path's summed hedge costs. *)
Theorem C9_analyze_results : forall Rs c,
  (1 <= res_n_paths Rs)%nat -> 0 < c < 1 ->
  exists a, analyze_results Rs c = Ok a /\
    let fp := final_pnl_of Rs in
    let n := INR (res_n_paths Rs) in
    let mu := np_sum fp / n in
    let sd := sqrt (np_sum (map (fun x => (x - mu) ^ 2) fp) / n) in
    let tail := filter (fun x => Rleb x (var a)) fp in
    mean_pnl a = Fin mu /\
    std_pnl a = Fin sd /\
    percentile fp ((1 - c) * 100) = Ok (var a) /\
    tail <> [] /\
    expected_shortfall a = Fin (np_sum tail / INR (length tail)) /\
    (0 < sd -> sharpe_ratio a = Fin (mu / sd)) /\
    (sd = 0 -> sharpe_ratio a = NaN) /\
    mean_hedge_costs a = Fin (np_sum (total_hedge_costs_of Rs) / n).
Proof.
  intros Rs c Hn Hc.
  assert (Hfp : final_pnl_of Rs <> []).
  { intro E. pose proof (final_pnl_of_length Rs) as L. rewrite E in L. simpl in L. lia. }
  assert (Hth : total_hedge_costs_of Rs <> []).
  { intro E. pose proof (total_hedge_costs_of_length Rs) as L. rewrite E in L. simpl in L. lia. }
  destruct (percentile_bounded_below (final_pnl_of Rs) ((1 - c) * 100) Hfp
              ltac:(split; lra)) as [v [Hv [x [Hx Hxv]]]].
  unfold analyze_results. rewrite Hv. cbn [bind].
  rewrite (np_mean_nonempty _ Hfp), (np_std_nonempty _ Hfp), (np_mean_nonempty _ Hth).
  rewrite final_pnl_of_length, total_hedge_costs_of_length.
  eexists. split; [reflexivity|]. cbv zeta.
  cbn [mean_pnl std_pnl var expected_shortfall sharpe_ratio mean_hedge_costs].
  set (mu := np_sum (final_pnl_of Rs) / INR (res_n_paths Rs)).
  set (sd := sqrt (np_sum (map (fun x0 => (x0 - mu) ^ 2) (final_pnl_of Rs))
                   / INR (res_n_paths Rs))).
  assert (Htail : filter (fun x0 => Rleb x0 v) (final_pnl_of Rs) <> []).
  { intro E. assert (Hin : In x (filter (fun x0 => Rleb x0 v) (final_pnl_of Rs))).
    { apply filter_In. split; [exact Hx|]. unfold Rleb.
      destruct (Rle_dec x v); [reflexivity|contradiction]. }
    rewrite E in Hin. destruct Hin. }
  split; [reflexivity|]. split; [reflexivity|]. split; [reflexivity|].
  split; [exact Htail|]. split; [apply np_mean_nonempty; exact Htail|].
  split; [|split; [|reflexivity]].
  - intros Hsd. destruct (Rlt_dec 0 sd) as [_|H]; [|contradiction].
    unfold fdiv. destruct (Req_EM_T sd 0); [lra|reflexivity].
  - intros Hsd. destruct (Rlt_dec 0 sd) as [H|_]; [lra|reflexivity].
Qed.

Lemma C9_analyze_results_witness :
  exists Rs m',
  simulate (fun m _ => r0 m) (fun t _ => t) 1
    (fun m _ => Ok (fun i j => r0 m + INR (i + j) / 100)) 5 demo_hedge_model 2 (Some 2)
  = Some (Ok (Rs, m')) /\
  (1 <= res_n_paths Rs)%nat /\ 0 < 95 / 100 < 1 /\
  exists a, analyze_results Rs (95 / 100) = Ok a /\
    let fp := final_pnl_of Rs in
    let n := INR (res_n_paths Rs) in
    let mu := np_sum fp / n in
    let sd := sqrt (np_sum (map (fun x => (x - mu) ^ 2) fp) / n) in
    let tail := filter (fun x => Rleb x (var a)) fp in
    (mean_pnl a = Fin mu /\
     std_pnl a = Fin sd /\
     percentile fp ((1 - 95 / 100) * 100) = Ok (var a) /\
     tail <> [] /\
     expected_shortfall a = Fin (np_sum tail / INR (length tail)) /\
     (0 < sd -> sharpe_ratio a = Fin (mu / sd)) /\
     (sd = 0 -> sharpe_ratio a = NaN) /\
     mean_hedge_costs a = Fin (np_sum (total_hedge_costs_of Rs) / n)) /\
    fp = [-3/100 - 9/1000000; -4/100 - 11/1000000] /\
    var a = (-4/100 - 11/1000000) + 5/100 * ((-3/100 - 9/1000000) - (-4/100 - 11/1000000)) /\
    tail = [-4/100 - 11/1000000] /\
    0 < sd /\ sharpe_ratio a = Fin (mu / sd) /\
    total_hedge_costs_of Rs = [0 + (4/1000000 + (5/1000000 + 0)); 0 + (5/1000000 + (6/1000000 + 0))].
Proof.
  destruct demo_hedge_run as [Rs [m' [H [Hn [Hts [_ [_ [P0 [P1 [C00 [C01 [C02 [C10 [C11 C12]]]]]]]]]]]]]].
  exists Rs, m'. split; [exact H|].
  assert (Hn1 : (1 <= res_n_paths Rs)%nat) by (rewrite Hn; lia).
  assert (Hc : 0 < 95 / 100 < 1) by lra.
  split; [exact Hn1|]. split; [exact Hc|].
  destruct (C9_analyze_results Rs (95 / 100) Hn1 Hc) as [a [Ha Hconj]].
  exists a. split; [exact Ha|]. cbv zeta in Hconj |- *.
  assert (Hfp : final_pnl_of Rs = [-3/100 - 9/1000000; -4/100 - 11/1000000]).
  { unfold final_pnl_of. rewrite Hn, Hts. cbn [seq map]. rewrite P0, P1. reflexivity. }
  destruct Hconj as [Hm [Hs [Hp [Ht [He [Hsh [Hsh0 Hmh]]]]]]].
  assert (Hv : var a = (-4/100 - 11/1000000)
                       + 5/100 * ((-3/100 - 9/1000000) - (-4/100 - 11/1000000))).
  { rewrite Hfp in Hp. unfold percentile in Hp.
    destruct (Rlt_dec ((1 - 95 / 100) * 100) 0); [lra|].
    destruct (Rlt_dec 100 ((1 - 95 / 100) * 100)); [lra|].
    cbn in Hp.
    unfold Rleb in Hp.
    destruct (Rle_dec (-3/100 - 9/1000000) (-4/100 - 11/1000000)); [lra|].
    cbn -[INR Rplus Rmult Rminus Rdiv Rinv Int_part] in Hp.
    rewrite Int_part_frac in Hp by (simpl; lra). cbn -[INR Rplus Rmult Rminus Rdiv Rinv] in Hp.
    injection Hp as <-. simpl INR. field. }
  split; [repeat split; assumption|].
  split; [exact Hfp|]. split; [exact Hv|].
  assert (Htail : filter (fun x => Rleb x (var a)) (final_pnl_of Rs) = [-4/100 - 11/1000000]).
  { rewrite Hfp, Hv. cbn [filter]. unfold Rleb.
    destruct (Rle_dec (-3/100 - 9/1000000) _); [lra|].
    destruct (Rle_dec (-4/100 - 11/1000000) _); [reflexivity|lra]. }
  split; [exact Htail|].
  assert (Hsd : 0 < sqrt (np_sum (map (fun x => (x - np_sum (final_pnl_of Rs) / INR (res_n_paths Rs)) ^ 2)
                        (final_pnl_of Rs)) / INR (res_n_paths Rs))).
  { apply sqrt_lt_R0. rewrite Hfp, Hn. unfold np_sum. simpl. lra. }
  split; [exact Hsd|]. split; [exact (Hsh Hsd)|].
  unfold total_hedge_costs_of. rewrite Hn, Hts. cbn [seq map np_sum fold_right].
  rewrite C00, C01, C02, C10, C11, C12. reflexivity.
Defined.

(** ** Bond pricing: coupon schedule, flat curves, durations *)

Lemma ytm_coupon_dates_in : forall M f v dates d, 0 < f ->
  ytm_coupon_dates M f v = Ok dates -> In d dates ->
  v < d /\ d < M + eps10 /\
  exists k : nat, d = (if Rlt_dec 0 v then 0 else v) + INR (S k) * f.
Proof.
  intros M f v dates d Hf H Hd. unfold ytm_coupon_dates in H.
  destruct (arange (v + f) (M + eps10) f) as [l1|e] eqn:H1; [|discriminate].
  cbn [bind] in H. destruct (Rlt_dec 0 v) as [Hv|Hv].
  - destruct (arange f (M + eps10) f) as [l2|e] eqn:H2; [|discriminate].
    cbn [bind] in H. inversion H; subst dates. clear H.
    apply filter_In in Hd. destruct Hd as [Hd Hlt].
    destruct (arange_in _ _ _ _ _ Hf H2 Hd) as [Hb [i Hi]].
    unfold Rltb in Hlt. destruct (Rlt_dec v d) as [Hvd|]; [|discriminate].
    split; [exact Hvd|]. split; [exact Hb|]. exists i. rewrite S_INR, Hi. ring.
  - inversion H; subst dates. clear H.
    destruct (arange_in _ _ _ _ _ Hf H1 Hd) as [Hb [i Hi]].
    split; [|split; [exact Hb|exists i; rewrite S_INR, Hi; ring]].
    rewrite Hi. pose proof (pos_INR i).
    assert (0 <= INR i * f) by (apply Rmult_le_pos; lra). lra.
Qed.

(** Coupon dates and bond prices in the flat-curve case. *)
Lemma coupon_loop_flat : forall m cs f dates v ca acc,
  (forall T, v < T -> zero_coupon_bond_price m v T (r0 m) = Ok (exp (- f * (T - v)))) ->
  (forall d, In d dates -> v < d) ->
  coupon_loop m cs (r0 m) v ca dates acc
  = Ok (fold_left (fun price d =>
          price + ca * exp (- (f + (if Rlt_dec 0 cs then cs else 0)) * (d - v)))
        dates acc).
Proof.
  intros m cs f dates. induction dates as [|d ds IH]; intros v ca acc Hz Hd; [reflexivity|].
  simpl. rewrite Hz by (apply Hd; left; reflexivity). cbn [bind].
  rewrite IH by (assumption || (intros; apply Hd; right; assumption)).
  f_equal. f_equal. unfold credit_adjust.
  destruct (Rlt_dec 0 cs); [|f_equal; f_equal; f_equal; ring].
  rewrite <- exp_plus. f_equal. f_equal. f_equal. ring.
Qed.

Lemma fold_left_shift : forall (g : R -> R) dates acc,
  fold_left (fun s d => s + g d) dates acc = acc + fold_left (fun s d => s + g d) dates 0.
Proof.
  intros g dates. induction dates as [|d ds IH]; intros acc; simpl; [ring|].
  rewrite IH, (IH (0 + g d)). ring.
Qed.

Lemma bisection_bracket : forall f prec k low high y, low < high ->
  bisection f prec k low high = Ok y -> low < y < high.
Proof.
  intros f prec k. induction k as [|k IH]; intros low high y Hlh H; simpl in H.
  - inversion H. lra.
  - destruct (f ((low + high) / 2)) as [fm|e]; [|discriminate]. cbn [bind] in H.
    destruct (Rlt_dec (Rabs fm) prec).
    + inversion H. lra.
    + destruct (f low) as [fl|e]; [|discriminate]. cbn [bind] in H.
      destruct (Rlt_dec (fm * fl) 0).
      * apply IH in H; lra.
      * apply IH in H; lra.
Qed.

Lemma duration_weights_nonneg : forall dates ca v ytm acc, 0 <= ca -> 0 <= acc ->
  (forall d, In d dates -> v < d) ->
  0 <= fold_left (fun weighted_time_sum coupon_date =>
               let time_to_payment := coupon_date - v in
               let present_value := ca * exp (- ytm * time_to_payment) in
               weighted_time_sum + time_to_payment * present_value) dates acc.
Proof.
  intros dates ca v ytm. induction dates as [|d ds IH]; intros acc Hca Hacc Hd; simpl; [lra|].
  apply IH; [exact Hca| |intros; apply Hd; right; assumption].
  assert (v < d) by (apply Hd; left; reflexivity).
  pose proof (exp_pos (- ytm * (d - v))).
  assert (0 <= (d - v) * (ca * exp (- ytm * (d - v)))).
  { apply Rmult_le_pos; [lra|apply Rmult_le_pos; lra]. }
  lra.
Qed.

(** X1: a zero-coupon bond's credit spread.  A non-positive spread is ignored;
    a positive spread [s] multiplies the price by [exp(-s * (maturity -
    valuation_date))], which lowers any positive price. *)
Theorem zero_coupon_credit_spread : forall m cs T N v df,
  zero_coupon_bond_price m v T (r0 m) = Ok df ->
  (cs <= 0 -> price_zero_coupon_bond m cs T N v = price_zero_coupon_bond m 0 T N v) /\
  (0 < cs -> v < T ->
     price_zero_coupon_bond m cs T N v = Ok (N * df * exp (- cs * (T - v))) /\
     price_zero_coupon_bond m 0 T N v = Ok (N * df) /\
     (0 < N * df -> N * df * exp (- cs * (T - v)) < N * df)).
Proof.
  intros m cs T N v df Hdf. unfold price_zero_coupon_bond, credit_adjust. split.
  - intros Hcs. destruct (Rle_dec T v); [reflexivity|].
    destruct (zero_coupon_bond_price m v T (r0 m)); [|reflexivity]. cbn [bind].
    destruct (Rlt_dec 0 cs); [lra|]. destruct (Rlt_dec 0 0); [lra|reflexivity].
  - intros Hcs HvT. destruct (Rle_dec T v); [lra|]. rewrite Hdf. cbn [bind].
    destruct (Rlt_dec 0 cs); [|lra]. destruct (Rlt_dec 0 0); [lra|].
    split; [f_equal; ring|]. split; [reflexivity|].
    intros Hp. assert (exp (- cs * (T - v)) < 1).
    { rewrite <- exp_0. apply exp_increasing. assert (0 < cs * (T - v)) by (apply Rmult_lt_0_compat; lra).
      lra. }
    rewrite <- (Rmult_1_r (N * df)) at 2. apply Rmult_lt_compat_l; assumption.
Qed.

Lemma zero_coupon_credit_spread_witness :
  zero_coupon_bond_price (flat_rate_model (3/100) (5/100)) 0 2 (r0 (flat_rate_model (3/100) (5/100)))
    = Ok (exp (- (5/100) * (2 - 0))) /\
  ((1/100 <= 0 -> price_zero_coupon_bond (flat_rate_model (3/100) (5/100)) (1/100) 2 100 0
                  = price_zero_coupon_bond (flat_rate_model (3/100) (5/100)) 0 2 100 0) /\
   (0 < 1/100 -> 0 < 2 ->
     price_zero_coupon_bond (flat_rate_model (3/100) (5/100)) (1/100) 2 100 0
       = Ok (100 * exp (- (5/100) * (2 - 0)) * exp (- (1/100) * (2 - 0))) /\
     price_zero_coupon_bond (flat_rate_model (3/100) (5/100)) 0 2 100 0
       = Ok (100 * exp (- (5/100) * (2 - 0))) /\
     (0 < 100 * exp (- (5/100) * (2 - 0)) ->
        100 * exp (- (5/100) * (2 - 0)) * exp (- (1/100) * (2 - 0))
        < 100 * exp (- (5/100) * (2 - 0))))).
Proof.
  assert (H : zero_coupon_bond_price (flat_rate_model (3/100) (5/100)) 0 2
                (r0 (flat_rate_model (3/100) (5/100))) = Ok (exp (- (5/100) * (2 - 0)))).
  { simpl. destruct (Rge_dec 0 2); [lra|reflexivity]. }
  split; [exact H|]. exact (zero_coupon_credit_spread _ (1/100) 2 100 0 _ H).
Defined.

(** X2: for a positive frequency every coupon date of [price_fixed_coupon_bond],
    [price_difference] and [calculate_duration] lies strictly after the
    valuation date and strictly before [maturity + 1e-10], on the grid
    [k * frequency] (valuation date > 0) or [valuation_date + k * frequency]
    (otherwise), [k >= 1]. *)
Theorem coupon_dates_bounds : forall M f v dates, 0 < f ->
  ytm_coupon_dates M f v = Ok dates ->
  forall d, In d dates ->
    v < d /\ d < M + eps10 /\
    exists k : nat, d = (if Rlt_dec 0 v then 0 else v) + INR (S k) * f.
Proof.
  intros M f v dates Hf H d Hd. exact (ytm_coupon_dates_in M f v dates d Hf H Hd).
Qed.

Lemma ytm_coupon_dates_single : ytm_coupon_dates 1 1 0 = Ok [1].
Proof.
  unfold ytm_coupon_dates. pose proof eps10_bounds.
  rewrite arange_single by lra. cbn [bind].
  destruct (Rlt_dec 0 0); [lra|]. f_equal. f_equal. ring.
Qed.

Lemma coupon_dates_bounds_witness :
  0 < 1 /\ ytm_coupon_dates 1 1 0 = Ok [1] /\
  forall d, In d [1] ->
    0 < d /\ d < 1 + eps10 /\
    exists k : nat, d = (if Rlt_dec 0 0 then 0 else 0) + INR (S k) * 1.
Proof.
  split; [lra|]. split; [exact ytm_coupon_dates_single|].
  exact (coupon_dates_bounds 1 1 0 [1] ltac:(lra) ytm_coupon_dates_single).
Defined.

(** X3: on a flat curve ([P(v, T) = exp(-f * (T - v))] for [T > v]), a
    positive frequency and a coupon schedule short enough for [np.arange]
    ([(T + 1e-10 + |v|) / frequency <= 2^60 - 1]), [price_fixed_coupon_bond]
    succeeds, and its price is
    exactly the flat-yield price that [calculate_yield_to_maturity] searches
    with, at the yield [f + credit_spread] ([f] alone when the spread is not
    positive): [price_difference] vanishes there. *)
Theorem fixed_coupon_flat_curve_yield : forall m cs f T c freq N v,
  (forall T', v < T' -> zero_coupon_bond_price m v T' (r0 m) = Ok (exp (- f * (T' - v)))) ->
  0 < freq -> v < T -> (T + eps10 + Rabs v) / freq <= 2 ^ 60 - 1 ->
  exists P, price_fixed_coupon_bond m cs T c freq N v = Ok P /\
    price_difference P T c freq N v (f + (if Rlt_dec 0 cs then cs else 0)) = Ok 0.
Proof.
  intros m cs f T c freq N v Hz Hf HvT Hlen.
  destruct (ytm_coupon_dates_ok T freq v (coupon_schedule_fits_pos T freq v Hf HvT Hlen))
    as [dates Hd].
  assert (Hgt : forall d, In d dates -> v < d).
  { intros d Hin. exact (proj1 (ytm_coupon_dates_in T freq v dates d Hf Hd Hin)). }
  set (y := f + (if Rlt_dec 0 cs then cs else 0)).
  set (P := flat_price dates (N * c * freq) N T v y).
  exists P. unfold price_fixed_coupon_bond, price_difference.
  destruct (Rle_dec T v); [lra|]. rewrite Hd. cbn [bind].
  rewrite (coupon_loop_flat m cs f) by assumption. cbn [bind]. rewrite Hz by exact HvT. cbn [bind].
  split; [|unfold P; f_equal; ring].
  f_equal. unfold P, flat_price, y. f_equal. unfold credit_adjust.
  destruct (Rlt_dec 0 cs); [|f_equal; f_equal; f_equal; ring].
  rewrite <- exp_plus. f_equal. f_equal. ring.
Qed.

Lemma fixed_coupon_flat_curve_yield_witness :
  (forall T', 0 < T' -> zero_coupon_bond_price (flat_rate_model (3/100) (5/100)) 0 T'
                          (r0 (flat_rate_model (3/100) (5/100))) = Ok (exp (- (5/100) * (T' - 0)))) /\
  0 < 1 /\ 0 < 3 /\ (3 + eps10 + Rabs 0) / 1 <= 2 ^ 60 - 1 /\
  exists P, price_fixed_coupon_bond (flat_rate_model (3/100) (5/100)) (1/100) 3 (4/100) 1 100 0 = Ok P /\
    price_difference P 3 (4/100) 1 100 0 (5/100 + (if Rlt_dec 0 (1/100) then 1/100 else 0)) = Ok 0.
Proof.
  assert (Hz : forall T', 0 < T' -> zero_coupon_bond_price (flat_rate_model (3/100) (5/100)) 0 T'
                 (r0 (flat_rate_model (3/100) (5/100))) = Ok (exp (- (5/100) * (T' - 0)))).
  { intros T' HT. simpl. destruct (Rge_dec 0 T'); [lra|reflexivity]. }
  assert (Hlen : (3 + eps10 + Rabs 0) / 1 <= 2 ^ 60 - 1).
  { pose proof eps10_bounds. rewrite Rabs_R0. unfold Rdiv. rewrite Rinv_1, Rmult_1_r. lra. }
  split; [exact Hz|]. split; [lra|]. split; [lra|]. split; [exact Hlen|].
  exact (fixed_coupon_flat_curve_yield _ (1/100) (5/100) 3 (4/100) 1 100 0 Hz ltac:(lra)
           ltac:(lra) Hlen).
Defined.

Lemma div_nonneg_neg : forall x y, 0 <= x -> y < 0 -> x / y <= 0.
Proof.
  intros x y Hx Hy. unfold Rdiv.
  assert (/ y < 0) by (apply Rinv_lt_0_compat; exact Hy). nra.
Qed.

Lemma neg_step_quotient : forall a b f, f < 0 -> a <= b -> b / (- f) <= 2 ^ 63 - 1 ->
  - 2 ^ 63 <= (a - f) / f.
Proof.
  intros a b f Hf Hab Hb.
  assert (E : (a - f) / f = - (a / (- f)) - 1) by (field; lra). rewrite E.
  assert (a / (- f) <= b / (- f)).
  { unfold Rdiv. apply Rmult_le_compat_r; [left; apply Rinv_0_lt_compat; lra|exact Hab]. }
  lra.
Qed.

(** X4: with a negative frequency whose schedule length stays within NumPy's
    limit ([(T + 1e-10 + |v|) / |frequency| <= 2^63 - 1]) the coupon schedule
    is empty, so [price_fixed_coupon_bond] pays no coupon at all and returns
    exactly [price_zero_coupon_bond] of the same maturity and notional. *)
Theorem negative_frequency_drops_coupons : forall m cs T c freq N v,
  freq < 0 -> v < T -> (T + eps10 + Rabs v) / (- freq) <= 2 ^ 63 - 1 ->
  ytm_coupon_dates T freq v = Ok [] /\
  price_fixed_coupon_bond m cs T c freq N v = price_zero_coupon_bond m cs T N v.
Proof.
  intros m cs T c freq N v Hf HvT Hlen. pose proof eps10_bounds as He.
  assert (Q1 : - 2 ^ 63 <= (T + eps10 - (v + freq)) / freq).
  { replace (T + eps10 - (v + freq)) with ((T + eps10 - v) - freq) by ring.
    apply (neg_step_quotient _ (T + eps10 + Rabs v)); [lra| |exact Hlen].
    pose proof (Rle_abs (- v)) as Ha. rewrite Rabs_Ropp in Ha. lra. }
  assert (Q2 : 0 < v -> - 2 ^ 63 <= (T + eps10 - freq) / freq).
  { intros Hv. apply (neg_step_quotient _ (T + eps10 + Rabs v)); [lra| |exact Hlen].
    pose proof (Rabs_pos v). lra. }
  assert (Hd : ytm_coupon_dates T freq v = Ok []).
  { unfold ytm_coupon_dates.
    rewrite arange_empty by (lra || (apply div_nonneg_neg; lra)). cbn [bind].
    destruct (Rlt_dec 0 v) as [Hv|]; [|reflexivity]. specialize (Q2 Hv).
    rewrite arange_empty by (lra || (apply div_nonneg_neg; lra)). reflexivity. }
  split; [exact Hd|].
  unfold price_fixed_coupon_bond, price_zero_coupon_bond.
  destruct (Rle_dec T v); [lra|]. rewrite Hd. cbn [bind coupon_loop].
  destruct (zero_coupon_bond_price m v T (r0 m)); [|reflexivity]. cbn [bind].
  f_equal. ring.
Qed.

Lemma negative_frequency_drops_coupons_witness :
  -1 < 0 /\ 0 < 2 /\ (2 + eps10 + Rabs 0) / (- -1) <= 2 ^ 63 - 1 /\
  ytm_coupon_dates 2 (-1) 0 = Ok [] /\
  price_fixed_coupon_bond (flat_rate_model (3/100) (5/100)) 0 2 (4/100) (-1) 100 0
    = price_zero_coupon_bond (flat_rate_model (3/100) (5/100)) 0 2 100 0.
Proof.
  assert (Hlen : (2 + eps10 + Rabs 0) / (- -1) <= 2 ^ 63 - 1).
  { pose proof eps10_bounds. rewrite Rabs_R0. replace (- -1) with 1 by ring. unfold Rdiv.
    rewrite Rinv_1, Rmult_1_r. lra. }
  split; [lra|]. split; [lra|]. split; [exact Hlen|].
  exact (negative_frequency_drops_coupons _ 0 2 (4/100) (-1) 100 0 ltac:(lra) ltac:(lra) Hlen).
Defined.

(** X5: [calculate_yield_to_maturity] returns 0 for a matured bond and
    otherwise a yield strictly inside the initial bracket [(0.0001, 0.5)],
    whatever the price, the iteration budget or the precision: no yield
    outside that range is ever reported. *)
Theorem ytm_within_bracket : forall P M c f N v maxit prec y,
  calculate_yield_to_maturity P M c f N v maxit prec = Ok y ->
  (M <= v /\ y = 0) \/ (v < M /\ 1 / 10000 < y < 1 / 2).
Proof.
  intros P M c f N v maxit prec y H. unfold calculate_yield_to_maturity in H.
  destruct (Rle_dec M v) as [Hm|Hm].
  - left. inversion H. split; [exact Hm|reflexivity].
  - right. split; [lra|]. apply bisection_bracket in H; [exact H|lra].
Qed.

Lemma price_fixed_dates : forall m cs T c freq N v P, v < T ->
  price_fixed_coupon_bond m cs T c freq N v = Ok P ->
  exists dates, ytm_coupon_dates T freq v = Ok dates.
Proof.
  intros m cs T c freq N v P HvT HP. unfold price_fixed_coupon_bond in HP.
  destruct (Rle_dec T v); [lra|].
  destruct (ytm_coupon_dates T freq v) as [dates|e]; [eexists; reflexivity|discriminate].
Qed.

Lemma calculate_duration_pos : forall m cs T c freq N v P,
  v < T -> 0 < freq -> 0 < N -> 0 <= c ->
  price_fixed_coupon_bond m cs T c freq N v = Ok P -> 0 < P ->
  exists D, calculate_duration m cs T c freq N v = Ok (Fin D) /\ 0 < D.
Proof.
  intros m cs T c freq N v P HvT Hf HN Hc HP Hpos.
  destruct (price_fixed_dates m cs T c freq N v P HvT HP) as [dates Hd].
  assert (Hgt : forall d, In d dates -> v < d).
  { intros d Hin. exact (proj1 (ytm_coupon_dates_in T freq v dates d Hf Hd Hin)). }
  unfold calculate_duration. destruct (Rle_dec T v); [lra|]. rewrite HP. cbn [bind].
  unfold calculate_yield_to_maturity. destruct (Rle_dec T v); [lra|].
  rewrite (bisection_total _
             (fun y => flat_price dates (N * c * freq) N T v y - P)).
  2:{ intros y. unfold price_difference. rewrite Hd. reflexivity. }
  cbn [bind]. rewrite Hd. cbn [bind].
  set (ytm := bisection_spec _ _ _ _ _).
  assert (HW : 0 <= duration_weights dates (N * c * freq) v ytm).
  { apply duration_weights_nonneg; [|lra|exact Hgt].
    apply Rmult_le_pos; [apply Rmult_le_pos|]; lra. }
  assert (HM : 0 < (T - v) * (N * exp (- ytm * (T - v)))).
  { apply Rmult_lt_0_compat; [lra|apply Rmult_lt_0_compat; [lra|apply exp_pos]]. }
  unfold fdiv. destruct (Req_EM_T P 0); [lra|].
  eexists. split; [reflexivity|]. apply Rdiv_lt_0_compat; lra.
Qed.

(** X6: the Macaulay duration of a live bond with a positive frequency and
    notional, a non-negative coupon rate and a positive price is a finite
    positive number. *)
Theorem duration_positive : forall m cs T c freq N v P,
  v < T -> 0 < freq -> 0 < N -> 0 <= c ->
  price_fixed_coupon_bond m cs T c freq N v = Ok P -> 0 < P ->
  exists D, calculate_duration m cs T c freq N v = Ok (Fin D) /\ 0 < D.
Proof. exact calculate_duration_pos. Qed.

Lemma duration_positive_witness :
  exists P, price_fixed_coupon_bond (flat_rate_model (3/100) (5/100)) 0 1 (4/100) 1 100 0 = Ok P /\
    0 < P /\
    exists D, calculate_duration (flat_rate_model (3/100) (5/100)) 0 1 (4/100) 1 100 0 = Ok (Fin D)
              /\ 0 < D.
Proof.
  assert (HP : price_fixed_coupon_bond (flat_rate_model (3/100) (5/100)) 0 1 (4/100) 1 100 0
               = Ok (0 + 100 * (4/100) * 1 * exp (- (5/100) * (1 - 0))
                     + 100 * exp (- (5/100) * (1 - 0)))).
  { unfold price_fixed_coupon_bond. destruct (Rle_dec 1 0); [lra|].
    rewrite ytm_coupon_dates_single. cbn [bind coupon_loop flat_rate_model zero_coupon_bond_price r0].
    destruct (Rge_dec 0 1); [lra|]. cbn [bind coupon_loop].
    unfold credit_adjust. destruct (Rlt_dec 0 0); [lra|]. reflexivity. }
  assert (Hpos : 0 < 0 + 100 * (4/100) * 1 * exp (- (5/100) * (1 - 0))
                     + 100 * exp (- (5/100) * (1 - 0))).
  { pose proof (exp_pos (- (5/100) * (1 - 0))). lra. }
  eexists. split; [exact HP|]. split; [exact Hpos|].
  exact (duration_positive _ 0 1 (4/100) 1 100 0 _ ltac:(lra) ltac:(lra) ltac:(lra) ltac:(lra)
           HP Hpos).
Defined.

(** X7: [calculate_modified_duration] has no maturity guard of its own: a zero
    frequency always raises [ZeroDivisionError] (from [np.arange] for a live
    bond, from [ytm / frequency] for a matured one), while a matured bond with
    a non-zero frequency gets a modified duration of 0. *)
Theorem modified_duration_edges : forall m cs T c freq N v,
  (freq = 0 -> calculate_modified_duration m cs T c freq N v = Err ZeroDivisionError) /\
  (T <= v -> freq <> 0 -> calculate_modified_duration m cs T c freq N v = Ok (Fin 0)).
Proof.
  intros m cs T c freq N v. split.
  - intros ->. unfold calculate_modified_duration, price_fixed_coupon_bond.
    destruct (Rle_dec T v) as [Hm|Hm].
    + cbn [bind]. unfold calculate_yield_to_maturity, calculate_duration.
      destruct (Rle_dec T v); [|contradiction]. cbn [bind].
      rewrite py_div_zero. reflexivity.
    + unfold ytm_coupon_dates, arange. destruct (Req_EM_T 0 0); [reflexivity|lra].
  - intros Hm Hf. unfold calculate_modified_duration, price_fixed_coupon_bond.
    destruct (Rle_dec T v); [|contradiction]. cbn [bind].
    unfold calculate_yield_to_maturity, calculate_duration.
    destruct (Rle_dec T v); [|contradiction]. cbn [bind].
    rewrite py_div_nonzero by exact Hf. cbn [bind].
    unfold fdiv. destruct (Req_EM_T (1 + 0 / freq) 0) as [E|E].
    + exfalso. unfold Rdiv in E. lra.
    + f_equal. f_equal. unfold Rdiv. ring.
Qed.

(** ** Swaptions and collars *)

Lemma black_payer_minus_receiver : forall tf ts F K A tau vol,
  0 < F -> 0 < K -> (vol <> 0 \/ F <> K) ->
  exists p q, black_price tf ts F K A tau vol true = Ok (Fin p) /\
              black_price tf ts F K A tau vol false = Ok (Fin q) /\
              p - q = A * (F - K).
Proof.
  intros tf ts F K A tau vol HF HK Hv.
  unfold black_price.
  destruct (Rle_dec tau 0) as [Ht|Ht].
  - do 2 eexists; split; [reflexivity|split; [reflexivity|]].
    transitivity ((Rmax 0 (F - K) - Rmax 0 (K - F)) * A); [ring|].
    rewrite Rmax_intrinsic_diff. ring.
  - rewrite float_div_nonzero by lra. cbn [bind].
    assert (Hq : 0 < F / K) by (apply Rdiv_lt_0_compat; assumption).
    unfold black_d2, black_d1. rewrite flog_pos by assumption.
    change (fadd (Fin (ln (F / K))) (Fin (vol ^ 2 / 2 * tau)))
      with (Fin (ln (F / K) + vol ^ 2 / 2 * tau)).
    assert (Hs : 0 < sqrt tau) by (apply sqrt_lt_R0; lra).
    unfold fdiv.
    destruct (Req_EM_T (vol * sqrt tau) 0) as [H0|H0].
    + assert (Hvol : vol = 0).
      { destruct (Rmult_integral _ _ H0); [assumption|lra]. }
      assert (HFK : F <> K) by (destruct Hv; [contradiction|assumption]).
      assert (Hln : ln (F / K) + vol ^ 2 / 2 * tau <> 0).
      { rewrite Hvol. intro Hc. apply HFK.
        assert (ln (F / K) = ln 1) by (rewrite ln_1; lra).
        apply ln_inv in H; [|assumption|lra].
        apply (Rmult_eq_reg_r (/ K)); [|apply Rinv_neq_0_compat; lra].
        unfold Rdiv in H. rewrite H. field. lra. }
      set (x := ln (F / K) + vol ^ 2 / 2 * tau) in *. clearbody x.
      rewrite H0. unfold fsign.
      destruct (Rlt_dec 0 x);
        [|destruct (Rlt_dec x 0); [|lra]];
        simpl; do 2 eexists; (split; [reflexivity|split; [reflexivity|]]); ring.
    + simpl. do 2 eexists; split; [reflexivity|split; [reflexivity|]].
      set (d1 := (ln (F / K) + vol * (vol * 1) / 2 * tau) / (vol * sqrt tau)).
      set (d2 := d1 + - (vol * sqrt tau)).
      assert (E1 : Phi (- d1) = 1 - Phi d1) by (pose proof (Phi_sym d1); lra).
      assert (E2 : Phi (- d2) = 1 - Phi d2) by (pose proof (Phi_sym d2); lra).
      rewrite E1, E2. ring.
Qed.

(** X8: payer/receiver parity of [SwaptionPricer.price].  When the swaption
    passes validation, its payment schedule fits [np.arange]'s length limit,
    the forward swap rate [F] and the strike [K] are positive and the Black
    formula is not the degenerate [0/0] case, the payer price minus the
    receiver price equals the swap annuity [A] times [F - K]. *)
Theorem swaption_payer_receiver_parity :
  forall m par_rate tp ts val expiry start end_ K freq N vol F,
  start <= expiry ->
  par_rate start end_ freq = Ok F -> 0 < F -> 0 < K ->
  arange_fits (start + freq) (end_ + eps10) freq ->
  (forall t T r, exists D, zero_coupon_bond_price m t T r = Ok D) ->
  ((match vol with Some v => v | None => 0.2 end) <> 0 \/ F <> K) ->
  exists dates A p q,
    arange (start + freq) (end_ + eps10) freq = Ok dates /\
    annuity_loop m val (r0 m) freq N dates 0 = Ok A /\
    swaption_price m par_rate tp ts val expiry start end_ K freq N vol true = Ok (Fin p) /\
    swaption_price m par_rate tp ts val expiry start end_ K freq N vol false = Ok (Fin q) /\
    p - q = A * (F - K).
Proof.
  intros m par_rate tp ts val expiry start end_ K freq N vol F Hse HF HFp HK [Hf [Hlo Hhi]] Hz Hv.
  destruct (arange_ok (start + freq) (end_ + eps10) freq Hf Hlo Hhi) as [dates Hd].
  destruct (annuity_loop_ok m val (r0 m) freq N dates 0 Hz) as [A HA].
  destruct (black_payer_minus_receiver tp ts F K A (Rmax 0 (expiry - val))
              (match vol with Some v => v | None => 0.2 end) HFp HK Hv)
    as [p [q [Hp [Hq Hpq]]]].
  exists dates, A, p, q. split; [exact Hd|]. split; [exact HA|].
  unfold swaption_price. destruct (Rlt_dec expiry start); [lra|].
  rewrite HF. cbn [bind]. rewrite Hd. cbn [bind]. rewrite HA. cbn [bind].
  split; [exact Hp|]. split; [exact Hq|exact Hpq].
Qed.

Lemma swaption_payer_receiver_parity_witness :
  exists dates A p q,
    arange (1 + 1/2) (3 + eps10) (1/2) = Ok dates /\
    annuity_loop (flat_rate_model (3/100) (5/100)) 0 (3/100) (1/2) 1 dates 0 = Ok A /\
    swaption_price (flat_rate_model (3/100) (5/100)) (fun _ _ _ => Ok (5/100))
      NpFloat64 PyFloat 0 1 1 3 (3/100) (1/2) 1 None true = Ok (Fin p) /\
    swaption_price (flat_rate_model (3/100) (5/100)) (fun _ _ _ => Ok (5/100))
      NpFloat64 PyFloat 0 1 1 3 (3/100) (1/2) 1 None false = Ok (Fin q) /\
    p - q = A * (5/100 - 3/100).
Proof.
  assert (Hfit : arange_fits (1 + 1/2) (3 + eps10) (1/2)).
  { pose proof eps10_bounds. unfold arange_fits. split; [lra|split; lra]. }
  apply (swaption_payer_receiver_parity (flat_rate_model (3/100) (5/100))
           (fun _ _ _ => Ok (5/100)) NpFloat64 PyFloat 0 1 1 3 (3/100) (1/2) 1 None (5/100)
           ltac:(lra) eq_refl ltac:(lra) ltac:(lra) Hfit).
  - intros t T r. simpl. destruct (Rge_dec t T); eexists; reflexivity.
  - left. lra.
Defined.

(** X9: [Cap.__init__] and [Floor.__init__] raise [ZeroDivisionError] for a
    zero payment frequency and [ValueError] when the schedule is longer than
    [np.arange] allows; for a positive frequency and a schedule within that
    limit both build the same schedule, whose dates lie on the grid
    [start + f, start + 2f, ...] and strictly before [maturity + 1e-10]. *)
Theorem cap_floor_schedule : forall s M K freq N,
  (freq = 0 -> Cap_init s M K freq N = Err ZeroDivisionError /\
               Floor_init s M K freq N = Err ZeroDivisionError) /\
  (freq <> 0 -> 2 ^ 60 - 1 < (M + eps10 - (s + freq)) / freq ->
     Cap_init s M K freq N = Err ValueError /\ Floor_init s M K freq N = Err ValueError) /\
  (0 < freq -> arange_fits (s + freq) (M + eps10) freq -> exists c f,
     Cap_init s M K freq N = Ok c /\ Floor_init s M K freq N = Ok f /\
     floor_payment_dates f = cap_payment_dates c /\
     forall d, In d (cap_payment_dates c) ->
       s + freq <= d < M + eps10 /\ exists i : nat, d = s + freq + INR i * freq).
Proof.
  intros s M K freq N. split; [|split].
  - intros ->. unfold Cap_init, Floor_init, arange.
    destruct (Req_EM_T 0 0); [split; reflexivity|lra].
  - intros Hf Hlong. unfold Cap_init, Floor_init.
    rewrite arange_too_long by assumption. split; reflexivity.
  - intros Hf [_ [Hlo Hhi]].
    destruct (arange_ok (s + freq) (M + eps10) freq ltac:(lra) Hlo Hhi) as [l Hl].
    unfold Cap_init, Floor_init. rewrite Hl. cbn [bind].
    do 2 eexists. split; [reflexivity|]. split; [reflexivity|]. split; [reflexivity|].
    intros d Hd. cbn [cap_payment_dates] in Hd.
    destruct (arange_in _ _ _ _ _ Hf Hl Hd) as [Hb [i Hi]].
    split; [|exists i; exact Hi]. split; [|exact Hb].
    rewrite Hi. pose proof (pos_INR i).
    assert (0 <= INR i * freq) by (apply Rmult_le_pos; lra). lra.
Qed.

(** X10: a collar whose cap and floor strikes are equal is priced, under the
    conditions of cap/floor parity (positive strike and forwards, no [0/0]
    Black case), as the discounted forward-minus-strike cash flows of its
    schedule. *)
Theorem collar_equal_strikes : forall m val vol s M K freq N co dates,
  Collar_init s M K K freq N = Ok co ->
  arange (s + freq) (M + eps10) freq = Ok dates ->
  0 < K ->
  Forall (fun ab => exists F D,
            forward_rate m val (fst ab) (snd ab) (r0 m) = Ok F /\ 0 < F /\
            zero_coupon_bond_price m val (snd ab) (r0 m) = Ok D /\
            (vol_used vol <> 0 \/ F <> K))
         (periods s dates) ->
  exists x, Collar_price co m val vol = Ok (Fin x) /\
            discounted_forward_minus_strike m val K freq N s M = Ok x.
Proof.
  intros m val vol s M K freq N co dates Hco Ha HK Hp.
  unfold Collar_init, Cap_init, Floor_init in Hco. rewrite Ha in Hco. cbn [bind] in Hco.
  inversion Hco; subst co. clear Hco.
  destruct (cap_floor_loops m val K freq N vol (r0 m) dates s 0 0 Hp HK)
    as [c [f [x [Hc [Hf [Hx Heq]]]]]].
  exists x. unfold Collar_price, Cap_price, Floor_price, discounted_forward_minus_strike.
  cbn [collar_cap collar_floor cap_strike cap_payment_frequency cap_notional cap_start_date
       cap_maturity_date floor_strike floor_payment_frequency floor_notional floor_start_date
       floor_maturity_date].
  unfold price_cap, price_floor. rewrite Ha. cbn [bind]. rewrite Hc, Hf, Hx. cbn [bind].
  split; [|reflexivity]. unfold fsub, fneg, fadd. f_equal. f_equal. lra.
Qed.

Lemma collar_equal_strikes_witness :
  exists x,
    Collar_price (mkCollar (mkCap 1 (3/2) (3/100) (1/2) 1 [1 + 1/2])
                           (mkFloor 1 (3/2) (3/100) (1/2) 1 [1 + 1/2]))
      (flat_rate_model (3/100) (5/100)) 0 None = Ok (Fin x) /\
    discounted_forward_minus_strike (flat_rate_model (3/100) (5/100)) 0 (3/100) (1/2) 1 1 (3/2)
      = Ok x.
Proof.
  assert (Ha : arange (1 + 1/2) (3/2 + eps10) (1/2) = Ok [1 + 1/2]).
  { pose proof eps10_bounds. apply arange_single; lra. }
  assert (Hco : Collar_init 1 (3/2) (3/100) (3/100) (1/2) 1
                = Ok (mkCollar (mkCap 1 (3/2) (3/100) (1/2) 1 [1 + 1/2])
                               (mkFloor 1 (3/2) (3/100) (1/2) 1 [1 + 1/2]))).
  { unfold Collar_init, Cap_init, Floor_init. rewrite Ha. reflexivity. }
  apply (collar_equal_strikes (flat_rate_model (3/100) (5/100)) 0 None 1 (3/2) (3/100)
           (1/2) 1 _ [1 + 1/2] Hco Ha); [lra|].
  constructor; [|constructor]. simpl.
  exists (5/100), (exp (- (5/100) * (1 + 1/2 - 0))).
  split; [reflexivity|]. split; [lra|]. split.
  - destruct (Rge_dec 0 (1 + 1/2)); [lra|reflexivity].
  - left. unfold vol_used. lra.
Defined.

(** X11: a collar whose maturity (plus [1e-10]) does not exceed its first
    payment date [start + payment_frequency], with a quotient
    [(maturity + 1e-10 - (start + frequency)) / frequency] not below
    [np.arange]'s limit [-2^63], has an empty schedule and is priced at
    exactly 0, whatever the strikes, the rate model and the volatility. *)
Theorem collar_short_schedule : forall m val vol s M Kc Kf freq N,
  0 < freq -> M + eps10 <= s + freq -> - 2 ^ 63 <= (M + eps10 - (s + freq)) / freq ->
  exists co, Collar_init s M Kc Kf freq N = Ok co /\
    cap_payment_dates (collar_cap co) = [] /\
    floor_payment_dates (collar_floor co) = [] /\
    Collar_price co m val vol = Ok (Fin 0).
Proof.
  intros m val vol s M Kc Kf freq N Hf HM Hlo.
  assert (Ha : arange (s + freq) (M + eps10) freq = Ok []).
  { apply arange_empty; [lra|exact Hlo|].
    assert (0 <= (s + freq - (M + eps10)) / freq) by (unfold Rdiv; apply Rmult_le_pos; [lra|left; apply Rinv_0_lt_compat; lra]).
    replace ((M + eps10 - (s + freq)) / freq) with (- ((s + freq - (M + eps10)) / freq))
      by (field; lra). lra. }
  unfold Collar_init, Cap_init, Floor_init. rewrite Ha. cbn [bind].
  eexists. split; [reflexivity|]. split; [reflexivity|]. split; [reflexivity|].
  unfold Collar_price, Cap_price, Floor_price. cbn [collar_cap collar_floor cap_strike
    cap_payment_frequency cap_notional cap_start_date cap_maturity_date floor_strike
    floor_payment_frequency floor_notional floor_start_date floor_maturity_date].
  unfold price_cap, price_floor. rewrite Ha. cbn [bind cap_loop].
  unfold fsub, fneg, fadd. f_equal. f_equal. ring.
Qed.

Lemma collar_short_schedule_witness :
  0 < 1/2 /\ 1 + eps10 <= 1 + 1/2 /\ - 2 ^ 63 <= (1 + eps10 - (1 + 1/2)) / (1/2) /\
  exists co, Collar_init 1 1 (5/100) (2/100) (1/2) 1 = Ok co /\
    cap_payment_dates (collar_cap co) = [] /\
    floor_payment_dates (collar_floor co) = [] /\
    Collar_price co (flat_rate_model (3/100) (5/100)) 0 None = Ok (Fin 0).
Proof.
  pose proof eps10_bounds as He. split; [lra|]. split; [lra|]. split; [lra|].
  exact (collar_short_schedule (flat_rate_model (3/100) (5/100)) 0 None 1 1 (5/100) (2/100)
           (1/2) 1 ltac:(lra) ltac:(lra) ltac:(lra)).
Defined.

(** ** The square-root model: bond prices and degenerate simulations *)

Lemma exp_le_mono : forall x y, x <= y -> exp x <= exp y.
Proof.
  intros x y H. destruct (Rle_lt_or_eq_dec _ _ H) as [Hlt| ->];
    [left; apply exp_increasing; exact Hlt|right; reflexivity].
Qed.

(** [exp] lies below its chords: [exp (l x) <= 1 + l (exp x - 1)] on [[0, x]]. *)
Lemma exp_chord : forall l x, 0 <= l <= 1 -> 0 <= x -> exp (l * x) <= 1 + l * (exp x - 1).
Proof.
  intros l x Hl Hx. destruct (Req_dec x 0) as [->|Hx0].
  - rewrite Rmult_0_r, exp_0. lra.
  - set (g := fun y => 1 + l * (exp y - 1) - exp (l * y)).
    set (g' := fun y => (0 + l * (exp y - 0)) - exp (l * y) * (l * 1)).
    assert (D : forall c, 0 <= c <= x -> derivable_pt_lim g c (g' c)).
    { intros c _. unfold g, g'.
      exact (derivable_pt_lim_minus _ _ c _ _
               (derivable_pt_lim_plus _ _ c _ _ (derivable_pt_lim_const 1 c)
                  (derivable_pt_lim_scal _ l c _
                     (derivable_pt_lim_minus _ _ c _ _ (derivable_pt_lim_exp c)
                        (derivable_pt_lim_const 1 c))))
               (derivable_pt_lim_comp (fun y => l * y) exp c _ _
                  (derivable_pt_lim_scal _ l c _ (derivable_pt_lim_id c))
                  (derivable_pt_lim_exp (l * c)))). }
    destruct (MVT_cor2 g g' 0 x ltac:(lra) D) as [c [Hc Hc']].
    assert (Hg0 : g 0 = 0) by (unfold g; rewrite Rmult_0_r, exp_0; ring).
    assert (Hd : 0 <= g' c).
    { unfold g'. assert (l * c <= c) by nra.
      pose proof (exp_le_mono _ _ H). nra. }
    assert (0 <= g x) by nra. unfold g in H. lra.
Qed.

(** For [t < T] and [sigma <> 0] the bond price is [a * exp(-b * r)] with
    [a > 0] and [b >= 0], and [a <= 1] when [kappa * theta >= 0]. *)
Lemma cir_zcb_shape : forall p t T, t < T -> sigma p <> 0 ->
  exists a b, 0 < a /\ 0 <= b /\ (0 <= kappa p * theta p -> a <= 1) /\
    forall r, cir_zero_coupon_bond_price p t T r = Ok (a * exp (- b * r)).
Proof.
  intros p t T HtT Hs.
  set (k := kappa p).
  set (h := sqrt (k ^ 2 + 2 * sigma p ^ 2)).
  set (tau := T - t).
  assert (Hs2 : 0 < sigma p ^ 2) by (simpl; rewrite Rmult_1_r; apply Rsqr_pos_lt; exact Hs).
  assert (Hh0 : 0 <= h) by apply sqrt_pos.
  assert (Hhh : h * h = k ^ 2 + 2 * sigma p ^ 2).
  { apply sqrt_sqrt. pose proof (pow2_ge_0 k). lra. }
  assert (Hkh : 0 < k + h) by nra.
  assert (Hkh' : k <= h) by nra.
  assert (Hh : 0 < h) by nra.
  assert (Htau : 0 < tau) by (unfold tau; lra).
  assert (Ehtau : 1 < exp (h * tau)).
  { rewrite <- exp_0. apply exp_increasing. nra. }
  set (Ad := 2 * h + (k + h) * (exp (h * tau) - 1)).
  set (An := 2 * h * exp ((k + h) * tau / 2)).
  assert (HAd : 0 < Ad) by (unfold Ad; nra).
  assert (HAn : 0 < An) by (unfold An; pose proof (exp_pos ((k + h) * tau / 2)); nra).
  assert (HAnd : An <= Ad).
  { unfold An, Ad.
    replace ((k + h) * tau / 2) with (((k + h) / (2 * h)) * (h * tau)) by (field; lra).
    assert (Hl : 0 <= (k + h) / (2 * h) <= 1).
    { split; [left; apply Rdiv_lt_0_compat; lra|].
      apply (Rmult_le_reg_r (2 * h)); [lra|]. unfold Rdiv.
      rewrite Rmult_assoc, Rinv_l, Rmult_1_r by lra. lra. }
    pose proof (exp_chord ((k + h) / (2 * h)) (h * tau) Hl ltac:(nra)) as Hc.
    apply (Rmult_le_compat_l (2 * h)) in Hc; [|lra].
    replace (2 * h * (1 + (k + h) / (2 * h) * (exp (h * tau) - 1)))
      with (2 * h + (k + h) * (exp (h * tau) - 1)) in Hc by (field; lra).
    exact Hc. }
  exists (Rpower (An / Ad) (2 * k * theta p / sigma p ^ 2)),
         (2 * (exp (h * tau) - 1) / Ad).
  split; [unfold Rpower; apply exp_pos|].
  split; [apply Rmult_le_pos; [lra|left; apply Rinv_0_lt_compat; exact HAd]|].
  split.
  - intros Hkt. unfold Rpower. rewrite <- exp_0. apply exp_le_mono.
    assert (He : 0 <= 2 * k * theta p / sigma p ^ 2).
    { unfold Rdiv. apply Rmult_le_pos; [unfold k in *; lra|].
      left. apply Rinv_0_lt_compat. exact Hs2. }
    assert (Hq : 0 < An / Ad <= 1).
    { split; [apply Rdiv_lt_0_compat; assumption|].
      apply (Rmult_le_reg_r Ad); [exact HAd|]. unfold Rdiv.
      rewrite Rmult_assoc, Rinv_l, Rmult_1_r by lra. lra. }
    assert (Hln : ln (An / Ad) <= 0).
    { destruct (Rle_lt_or_eq_dec _ _ (proj2 Hq)) as [Hlt|Heq].
      - left. rewrite <- ln_1. apply ln_increasing; lra.
      - rewrite Heq, ln_1. lra. }
    nra.
  - intros r. unfold cir_zero_coupon_bond_price.
    destruct (Rge_dec t T); [lra|].
    rewrite py_div_nonzero by lra. reflexivity.
Qed.

Lemma cir_loop_ok : forall (rng : Type) (gauss : rng -> nat -> (nat -> R) * rng)
    p dt n k t rates g,
  sigma p <> 0 -> exists rates' g', cir_loop rng gauss p dt n k t rates g = Ok (rates', g').
Proof.
  intros rng gauss p dt n k. induction k as [|k IH]; intros t rates g Hs.
  - do 2 eexists. reflexivity.
  - cbn [cir_loop]. destruct (normal_draws rng gauss g (np_sqrt (Fin dt)) n) as [dW g1].
    rewrite py_div_nonzero by (apply pow_nonzero; exact Hs). cbn [bind]. apply IH. exact Hs.
Qed.

Lemma CIR_init_spec : forall r_0 kap th sig ts horizon p m,
  CIR_init r_0 kap th sig ts horizon = Ok (p, m) ->
  0 < r_0 /\ (1 <= ts)%nat /\ p = mkCIRParams kap th sig /\
  m = cir_model p r_0 ts horizon (horizon / INR ts).
Proof.
  intros r_0 kap th sig ts horizon p m H. unfold CIR_init in H.
  destruct (Rle_dec r_0 0); [discriminate|].
  destruct (Rle_dec (2 * kap * th) (sig ^ 2)); [discriminate|].
  destruct (Req_dec (INR ts) 0) as [E|E].
  - rewrite E, py_div_zero in H. discriminate.
  - rewrite py_div_nonzero in H by exact E. cbn [bind] in H. inversion H; subst.
    split; [lra|]. split; [|split; reflexivity].
    destruct ts; [simpl in E; lra|lia].
Qed.

Lemma C4_cir_paths_nonnegative_witness :
  exists p m rates g',
    CIR_init (3/100) (1/2) (5/100) (1/10) 2 1 = Ok (p, m) /\
    cir_simulate_rates unit (fun _ => tt) (fun g _ => (fun _ => 1, g)) p m 3 (Some 42%Z) tt
      = Ok (rates, g') /\
    forall i j, (1 <= j <= timesteps m)%nat ->
      exists x w, rates i (j - 1)%nat = Fin x /\
        dW_at unit (fun g _ => (fun _ => 1, g)) (dt m) 3
          (start_state unit (fun _ => tt) (Some 42%Z) tt) j i = Fin w /\
        rates i j = Fin (Rmax 0 (x + kappa p * (theta p - Rmax 0 x) * dt m
                                 + sigma p * sqrt (Rmax 0 x * dt m) * w)).
Proof.
  set (p := mkCIRParams (1/2) (5/100) (1/10)).
  set (m := cir_model p (3/100) 2 1 (1 / INR 2)).
  assert (Hi : CIR_init (3/100) (1/2) (5/100) (1/10) 2 1 = Ok (p, m)).
  { unfold CIR_init. destruct (Rle_dec (3/100) 0); [lra|].
    destruct (Rle_dec (2 * (1/2) * (5/100)) ((1/10) ^ 2)) as [Hf|_]; [simpl in Hf; lra|].
    rewrite py_div_nonzero by (simpl; lra). reflexivity. }
  destruct (cir_loop_ok unit (fun g _ => (fun _ => 1, g)) p (dt m) 3 (timesteps m) 1
              (fun _ j => if Nat.eqb j 0 then Fin (r0 m) else Fin 0) tt
              ltac:(simpl; lra)) as [rates [g' Hs]].
  exists p, m, rates, g'. split; [exact Hi|]. split; [exact Hs|].
  refine (proj2 (proj1 (proj2 (C4_cir_paths_nonnegative unit (fun _ => tt)
            (fun g _ => (fun _ => 1, g)) p m 3 (Some 42%Z) tt rates g' _ _ Hs)) _)).
  - simpl. lra.
  - simpl. lra.
  - simpl. unfold Rdiv. rewrite Rmult_1_l. left. apply Rinv_0_lt_compat. lra.
Defined.

(** C4 counterexample: [CIR(r0=0.03, kappa=0.5, theta=0.05, sigma=0.1)] with
    one time step and [time_horizon = -1] passes both constructor checks and
    has [dt = -1]; [np.sqrt(dt)] is NaN, so [simulate_rates] returns NaN at
    step 1 of every path, which is not a non-negative rate. *)
Lemma C4_counterexample :
  exists p m rates g',
    CIR_init (3/100) (1/2) (5/100) (1/10) 1 (-1) = Ok (p, m) /\
    cir_simulate_rates unit (fun _ => tt) (fun g _ => (fun _ => 1, g)) p m 3 (Some 42%Z) tt
      = Ok (rates, g') /\
    forall i, rates i 1%nat = NaN.
Proof.
  set (p := mkCIRParams (1/2) (5/100) (1/10)).
  set (m := cir_model p (3/100) 1 (-1) (-1 / INR 1)).
  assert (Hi : CIR_init (3/100) (1/2) (5/100) (1/10) 1 (-1) = Ok (p, m)).
  { unfold CIR_init. destruct (Rle_dec (3/100) 0); [lra|].
    destruct (Rle_dec (2 * (1/2) * (5/100)) ((1/10) ^ 2)) as [Hf|_]; [simpl in Hf; lra|].
    rewrite py_div_nonzero by (simpl; lra). reflexivity. }
  destruct (cir_loop_ok unit (fun g _ => (fun _ => 1, g)) p (dt m) 3 (timesteps m) 1
              (fun _ j => if Nat.eqb j 0 then Fin (r0 m) else Fin 0) tt
              ltac:(simpl; lra)) as [rates [g' Hs]].
  exists p, m, rates, g'. split; [exact Hi|]. split; [exact Hs|].
  intros i.
  rewrite (cir_loop_steps unit (fun g _ => (fun _ => 1, g)) p (dt m) 3 (timesteps m) 1 _ _ _ _
             ltac:(lia) Hs i 1 ltac:(simpl; lia)).
  rewrite normal_draws_nan; [apply cir_step_nan_draw|].
  simpl. unfold Rdiv. rewrite Rinv_1. lra.
Qed.

(** X12: a square-root model built with [sigma = 0] (which passes both
    constructor checks when [r0 > 0] and [kappa * theta > 0]) cannot simulate:
    [simulate_rates] raises [ZeroDivisionError] at the first time step, from
    [4 * kappa * theta / sigma**2]. *)
Theorem cir_zero_sigma_simulation_fails :
  forall (rng : Type) (seed_rng : Z -> rng) (gauss : rng -> nat -> (nat -> R) * rng)
         r_0 kap th ts horizon p m n seed g,
  CIR_init r_0 kap th 0 ts horizon = Ok (p, m) ->
  cir_simulate_rates rng seed_rng gauss p m n seed g = Err ZeroDivisionError.
Proof.
  intros rng seed_rng gauss r_0 kap th ts horizon p m n seed g H.
  destruct (CIR_init_spec _ _ _ _ _ _ _ _ H) as [_ [Hts [-> ->]]].
  unfold cir_simulate_rates, cir_model. cbn [timesteps dt].
  destruct ts as [|ts]; [lia|]. cbn [cir_loop kappa theta sigma].
  destruct (normal_draws _ _ _ _ _) as [dW g1].
  replace (0 ^ 2) with 0 by ring. rewrite py_div_zero. reflexivity.
Qed.

Lemma cir_zero_sigma_simulation_fails_witness :
  CIR_init (3/100) (1/2) (5/100) 0 10 1
    = Ok (mkCIRParams (1/2) (5/100) 0,
          cir_model (mkCIRParams (1/2) (5/100) 0) (3/100) 10 1 (1 / INR 10)) /\
  cir_simulate_rates unit (fun _ => tt) (fun g _ => (fun _ => 0, g))
    (mkCIRParams (1/2) (5/100) 0)
    (cir_model (mkCIRParams (1/2) (5/100) 0) (3/100) 10 1 (1 / INR 10)) 1 None tt
    = Err ZeroDivisionError.
Proof.
  assert (H : CIR_init (3/100) (1/2) (5/100) 0 10 1
    = Ok (mkCIRParams (1/2) (5/100) 0,
          cir_model (mkCIRParams (1/2) (5/100) 0) (3/100) 10 1 (1 / INR 10))).
  { unfold CIR_init. destruct (Rle_dec (3/100) 0); [lra|].
    destruct (Rle_dec (2 * (1/2) * (5/100)) (0 ^ 2)); [simpl in *; lra|].
    rewrite py_div_nonzero by (simpl; lra). reflexivity. }
  split; [exact H|].
  exact (cir_zero_sigma_simulation_fails unit (fun _ => tt) (fun g _ => (fun _ => 0, g))
           (3/100) (1/2) (5/100) 10 1 _ _ 1 None tt H).
Defined.

(** X13: a square-root bond price is a discount factor: with [sigma <> 0],
    [kappa * theta >= 0] (implied by the constructor's Feller check) and a
    non-negative rate [r], [zero_coupon_bond_price(t, T, r)] lies in [(0, 1]]. *)
Theorem cir_bond_price_bounds : forall p t T r,
  sigma p <> 0 -> 0 <= kappa p * theta p -> 0 <= r ->
  exists P, cir_zero_coupon_bond_price p t T r = Ok P /\ 0 < P <= 1.
Proof.
  intros p t T r Hs Hkt Hr.
  destruct (Rge_dec t T) as [Hge|Hlt].
  - exists 1. unfold cir_zero_coupon_bond_price.
    destruct (Rge_dec t T); [|contradiction]. split; [reflexivity|lra].
  - destruct (cir_zcb_shape p t T ltac:(lra) Hs) as [a [b [Ha [Hb [Ha1 HP]]]]].
    exists (a * exp (- b * r)). split; [apply HP|].
    pose proof (exp_pos (- b * r)).
    assert (exp (- b * r) <= 1) by (rewrite <- exp_0; apply exp_le_mono; nra).
    specialize (Ha1 Hkt). split; [nra|nra].
Qed.

Lemma cir_bond_price_bounds_witness :
  exists P, cir_zero_coupon_bond_price (mkCIRParams (1/2) (5/100) (1/10)) 0 1 (3/100) = Ok P
            /\ 0 < P <= 1.
Proof.
  exact (cir_bond_price_bounds (mkCIRParams (1/2) (5/100) (1/10)) 0 1 (3/100)
           ltac:(simpl; lra) ltac:(simpl; lra) ltac:(lra)).
Defined.

(** X14: with [sigma <> 0], the square-root bond price never increases with
    the current rate [r]. *)
Theorem cir_bond_price_decreasing : forall p t T r1 r2 P1 P2,
  sigma p <> 0 -> r1 <= r2 ->
  cir_zero_coupon_bond_price p t T r1 = Ok P1 ->
  cir_zero_coupon_bond_price p t T r2 = Ok P2 ->
  P2 <= P1.
Proof.
  intros p t T r1 r2 P1 P2 Hs Hr H1 H2.
  destruct (Rge_dec t T) as [Hge|Hlt].
  - unfold cir_zero_coupon_bond_price in H1, H2.
    destruct (Rge_dec t T); [|contradiction]. inversion H1; inversion H2. lra.
  - destruct (cir_zcb_shape p t T ltac:(lra) Hs) as [a [b [Ha [Hb [_ HP]]]]].
    rewrite HP in H1, H2. inversion H1; inversion H2; subst.
    apply Rmult_le_compat_l; [lra|]. apply exp_le_mono. nra.
Qed.

Lemma cir_bond_price_decreasing_witness :
  exists P1 P2,
    cir_zero_coupon_bond_price (mkCIRParams (1/2) (5/100) (1/10)) 0 1 (1/100) = Ok P1 /\
    cir_zero_coupon_bond_price (mkCIRParams (1/2) (5/100) (1/10)) 0 1 (5/100) = Ok P2 /\
    P2 <= P1.
Proof.
  destruct (cir_zcb_shape (mkCIRParams (1/2) (5/100) (1/10)) 0 1 ltac:(lra) ltac:(simpl; lra))
    as [a [b [_ [_ [_ HP]]]]].
  exists (a * exp (- b * (1/100))), (a * exp (- b * (5/100))).
  split; [apply HP|]. split; [apply HP|].
  exact (cir_bond_price_decreasing (mkCIRParams (1/2) (5/100) (1/10)) 0 1 (1/100) (5/100)
           _ _ ltac:(simpl; lra) ltac:(lra) (HP _) (HP _)).
Defined.

(** X15: a square-root model built with [time_horizon = 0] has [dt = 0], and
    (for [sigma <> 0]) [simulate_rates] succeeds and returns paths that stay at
    [r0] at every time step. *)
Theorem cir_zero_horizon_flat :
  forall (rng : Type) (seed_rng : Z -> rng) (gauss : rng -> nat -> (nat -> R) * rng)
         r_0 kap th sig ts p m n seed g,
  CIR_init r_0 kap th sig ts 0 = Ok (p, m) -> sig <> 0 ->
  exists rates g', cir_simulate_rates rng seed_rng gauss p m n seed g = Ok (rates, g') /\
    forall i j, (j <= ts)%nat -> rates i j = Fin r_0.
Proof.
  intros rng seed_rng gauss r_0 kap th sig ts p m n seed g H Hs.
  destruct (CIR_init_spec _ _ _ _ _ _ _ _ H) as [Hr0 [Hts [-> ->]]].
  unfold cir_simulate_rates, cir_model. cbn [timesteps dt r0].
  replace (0 / INR ts) with 0 by (unfold Rdiv; ring).
  destruct (cir_loop_ok rng gauss (mkCIRParams kap th sig) 0 n ts 1
              (fun _ j => if Nat.eqb j 0 then Fin r_0 else Fin 0)
              (match seed with Some s => seed_rng s | None => g end) Hs)
    as [rates [g' Hl]].
  exists rates, g'. split; [exact Hl|].
  intros i j Hj. induction j as [|j IH].
  - rewrite (cir_loop_frame rng gauss _ _ _ _ _ _ _ _ _ Hl i 0 ltac:(lia)). reflexivity.
  - rewrite (cir_loop_steps rng gauss _ _ _ _ _ _ _ _ _ (le_n 1) Hl i (S j) ltac:(lia)).
    replace (S j - 1)%nat with j by lia. rewrite IH by lia.
    destruct (normal_draws_fin rng gauss (gen_state rng gauss n
                (match seed with Some s => seed_rng s | None => g end) j) 0 n i
                ltac:(lra)) as [w ->].
    rewrite cir_step_fin by lra. cbn [kappa theta sigma]. rewrite (Rmax_right 0 r_0) by lra.
    rewrite !Rmult_0_r, sqrt_0, Rmult_0_r, Rmult_0_l, !Rplus_0_r.
    f_equal. apply Rmax_right. lra.
Qed.

Lemma cir_zero_horizon_flat_witness :
  CIR_init (3/100) (1/2) (5/100) (1/10) 10 0
    = Ok (mkCIRParams (1/2) (5/100) (1/10),
          cir_model (mkCIRParams (1/2) (5/100) (1/10)) (3/100) 10 0 (0 / INR 10)) /\
  exists rates g', cir_simulate_rates unit (fun _ => tt) (fun g _ => (fun _ => 1, g))
    (mkCIRParams (1/2) (5/100) (1/10))
    (cir_model (mkCIRParams (1/2) (5/100) (1/10)) (3/100) 10 0 (0 / INR 10)) 2 None tt
    = Ok (rates, g') /\ forall i j, (j <= 10)%nat -> rates i j = Fin (3/100).
Proof.
  assert (H : CIR_init (3/100) (1/2) (5/100) (1/10) 10 0
    = Ok (mkCIRParams (1/2) (5/100) (1/10),
          cir_model (mkCIRParams (1/2) (5/100) (1/10)) (3/100) 10 0 (0 / INR 10))).
  { unfold CIR_init. destruct (Rle_dec (3/100) 0); [lra|].
    destruct (Rle_dec (2 * (1/2) * (5/100)) ((1/10) ^ 2)); [simpl in *; lra|].
    rewrite py_div_nonzero by (simpl; lra). reflexivity. }
  split; [exact H|].
  exact (cir_zero_horizon_flat unit (fun _ => tt) (fun g _ => (fun _ => 1, g))
           (3/100) (1/2) (5/100) (1/10) 10 _ _ 2 None tt H ltac:(lra)).
Defined.

(** ** Hedging simulation: termination, costs and the P&L identity *)

Lemma rebalance_loop_stuck : forall rf fuel th dt ts ct acc,
  rf <= 0 -> ct <= th ->
  rebalance_loop rf fuel th dt ts ct acc = None \/
  exists e, rebalance_loop rf fuel th dt ts ct acc = Some (Err e).
Proof.
  intros rf fuel. induction fuel as [|fuel IH]; intros th dt ts ct acc Hrf Hct.
  - left. reflexivity.
  - cbn [rebalance_loop]. destruct (Rle_dec ct th) as [_|H]; [|contradiction].
    destruct (py_div ct dt) as [q|e]; [|right; exists e; reflexivity].
    apply IH; lra.
Qed.

(** X16: with a non-positive [rebalance_frequency] and a non-negative horizon,
    [simulate] never returns results: [current_time] never exceeds the horizon,
    so the rebalancing [while] loop runs forever (or raises when [dt = 0]). *)
Theorem simulate_no_result_nonpositive_rebalance :
  forall instrument_price compute_hedge_ratio rebalance_frequency simulate_rates
         fuel m n tharg,
  rebalance_frequency <= 0 -> 0 <= horizon_arg m tharg ->
  forall r, simulate instrument_price compute_hedge_ratio rebalance_frequency simulate_rates
              fuel m n tharg <> Some (Ok r).
Proof.
  intros ip chr rf sr fuel m n tharg Hrf Hth r H. unfold simulate in H.
  destruct (adapt_model m (horizon_arg m tharg)) as [m1|e]; [|discriminate].
  destruct (sr m1 n) as [rates|e]; [|discriminate].
  destruct (rebalance_loop_stuck rf fuel (horizon_arg m tharg) (dt m1) (timesteps m1) 0 []
              Hrf Hth) as [E|[e E]]; rewrite E in H; discriminate.
Qed.

Lemma simulate_no_result_nonpositive_rebalance_witness :
  0 <= 0 /\ 0 <= horizon_arg (flat_rate_model (3/100) (5/100)) None /\
  forall r, simulate (fun m _ => r0 m) (fun t _ => t) 0 (fun m _ => Ok (fun _ _ => r0 m)) 1000
              (flat_rate_model (3/100) (5/100)) 1 None <> Some (Ok r).
Proof.
  assert (H : 0 <= horizon_arg (flat_rate_model (3/100) (5/100)) None) by (simpl; lra).
  split; [lra|]. split; [exact H|].
  exact (simulate_no_result_nonpositive_rebalance (fun m _ => r0 m) (fun t _ => t) 0
           (fun m _ => Ok (fun _ _ => r0 m)) 1000 (flat_rate_model (3/100) (5/100)) 1 None
           ltac:(lra) H).
Defined.

Section HedgingCosts.
Variable instrument_price : RateModel -> R -> R.
Variable compute_hedge_ratio : R -> R -> R.

Lemma hedge_step_costs_nonneg : forall rates times steps path t st,
  (forall i j, 0 <= rates i j) -> (forall i j, 0 <= st_hedge_costs st i j) ->
  forall i j, 0 <= st_hedge_costs
    (hedge_step instrument_price compute_hedge_ratio rates times steps path t st) i j.
Proof.
  intros rates times steps path t st Hr Hc i j. unfold hedge_step.
  destruct (is_rebalance_step steps t); cbn [st_hedge_costs]; [|apply Hc].
  unfold upd. destruct (Nat.eqb i path && Nat.eqb j t)%bool; [|apply Hc].
  apply Rmult_le_pos; [|apply Hr].
  apply Rmult_le_pos; [apply Rabs_pos|left; apply Rinv_0_lt_compat; lra].
Qed.

Lemma step_loop_costs_nonneg : forall rates times steps path k t st,
  (forall i j, 0 <= rates i j) -> (forall i j, 0 <= st_hedge_costs st i j) ->
  forall i j, 0 <= st_hedge_costs
    (step_loop instrument_price compute_hedge_ratio rates times steps path k t st) i j.
Proof.
  intros rates times steps path k. induction k as [|k IH]; intros t st Hr Hc; [exact Hc|].
  apply IH; [exact Hr|]. apply hedge_step_costs_nonneg; assumption.
Qed.

Lemma path_loop_costs_nonneg : forall rates times steps ts k path st,
  (forall i j, 0 <= rates i j) -> (forall i j, 0 <= st_hedge_costs st i j) ->
  forall i j, 0 <= st_hedge_costs
    (path_loop instrument_price compute_hedge_ratio rates times steps ts k path st) i j.
Proof.
  intros rates times steps ts k. induction k as [|k IH]; intros path st Hr Hc; [exact Hc|].
  apply IH; [exact Hr|]. unfold path_body. apply step_loop_costs_nonneg; assumption.
Qed.

End HedgingCosts.

(** X17: transaction costs are never negative when the simulated rates are
    not: every entry of the [hedge_costs] array returned by [simulate] is
    [>= 0] as soon as every entry of its [rates] array is. *)
Theorem simulate_hedge_costs_nonneg :
  forall instrument_price compute_hedge_ratio rebalance_frequency simulate_rates
         fuel m n tharg Rs m',
  simulate instrument_price compute_hedge_ratio rebalance_frequency simulate_rates
    fuel m n tharg = Some (Ok (Rs, m')) ->
  (forall i j, 0 <= res_rates Rs i j) ->
  forall i j, 0 <= res_hedge_costs Rs i j.
Proof.
  intros ip chr rf sr fuel m n tharg Rs m' H Hr. unfold simulate in H.
  destruct (adapt_model m (horizon_arg m tharg)) as [m1|e]; [|discriminate].
  destruct (sr m1 n) as [rates|e]; [|discriminate].
  destruct (rebalance_loop rf fuel (horizon_arg m tharg) (dt m1) (timesteps m1) 0 [])
    as [[steps|e]|]; try discriminate.
  inversion H; subst Rs m'. clear H. cbn [res_hedge_costs]. cbn [res_rates] in Hr.
  apply path_loop_costs_nonneg; [exact Hr|].
  intros i j. unfold zeros. cbn. lra.
Qed.

Lemma simulate_hedge_costs_nonneg_witness :
  exists Rs m',
    simulate (fun m _ => r0 m) (fun t _ => t) 1
      (fun m _ => Ok (fun i j => r0 m + INR (i + j) / 100)) 5 demo_hedge_model 2 (Some 2)
    = Some (Ok (Rs, m')) /\
    (forall i j, 0 <= res_rates Rs i j) /\
    (forall i j, 0 <= res_hedge_costs Rs i j) /\
    res_hedge_costs Rs 0%nat 1%nat = 4/1000000 /\ res_hedge_costs Rs 1%nat 2%nat = 6/1000000.
Proof.
  destruct demo_hedge_run as [Rs [m' [H [_ [_ [Hr [_ [_ [_ [_ [C01 [_ [_ [_ C12]]]]]]]]]]]]]].
  assert (Hr0 : forall i j, 0 <= res_rates Rs i j).
  { intros i j. rewrite Hr. pose proof (pos_INR (i + j)). lra. }
  exists Rs, m'. split; [exact H|]. split; [exact Hr0|].
  split; [|split; assumption].
  exact (simulate_hedge_costs_nonneg (fun m _ => r0 m) (fun t _ => t) 1
           (fun m _ => Ok (fun i j => r0 m + INR (i + j) / 100)) 5 demo_hedge_model 2%nat (Some 2)
           Rs m' H Hr0).
Defined.

Lemma upd_same : forall a i j v, upd a i j v i j = v.
Proof. intros. unfold upd. rewrite !Nat.eqb_refl. reflexivity. Qed.

Lemma upd_other : forall a i j v i' j', i' <> i \/ j' <> j -> upd a i j v i' j' = a i' j'.
Proof.
  intros a i j v i' j' H. unfold upd.
  destruct (Nat.eqb_spec i' i), (Nat.eqb_spec j' j); simpl; try reflexivity.
  destruct H; contradiction.
Qed.

Lemma np_sum_app : forall l1 l2, np_sum (l1 ++ l2) = np_sum l1 + np_sum l2.
Proof.
  intros l1 l2. induction l1 as [|x l1 IH]; simpl; [ring|]. unfold np_sum in *. rewrite IH. ring.
Qed.

Lemma np_sum_seq_S : forall (f : nat -> R) t,
  np_sum (map f (seq 0 (S t))) = np_sum (map f (seq 0 t)) + f t.
Proof.
  intros f t. rewrite seq_S, map_app, np_sum_app. unfold np_sum. simpl. ring.
Qed.

Lemma np_sum_seq_ext : forall (f g : nat -> R) t,
  (forall j, (j < t)%nat -> f j = g j) ->
  np_sum (map f (seq 0 t)) = np_sum (map g (seq 0 t)).
Proof.
  intros f g t H. f_equal. apply map_ext_in. intros j Hj. apply in_seq in Hj. apply H. lia.
Qed.

Section HedgingPnL.
Variable instrument_price : RateModel -> R -> R.
Variable compute_hedge_ratio : R -> R -> R.

Local Notation cell_eq st' st i j :=
  (st_instrument_values st' i j = st_instrument_values st i j /\
   st_hedge_values st' i j = st_hedge_values st i j /\
   st_pnl st' i j = st_pnl st i j /\
   st_hedge_costs st' i j = st_hedge_costs st i j).

(** The P&L identity of row [i] up to step [t]. *)
Local Notation pnl_identity st i t :=
  (st_pnl st i t =
     (st_instrument_values st i t - st_instrument_values st i 0%nat)
     - (st_hedge_values st i t - st_hedge_values st i 0%nat)
     - np_sum (map (fun j => st_hedge_costs st i j) (seq 0 (S t)))).

Lemma hedge_step_frame : forall rates times steps path t st i j,
  i <> path \/ j <> t ->
  cell_eq (hedge_step instrument_price compute_hedge_ratio rates times steps path t st) st i j.
Proof.
  intros rates times steps path t st i j H. unfold hedge_step.
  destruct (is_rebalance_step steps t); cbn [st_instrument_values st_hedge_values st_pnl
    st_hedge_costs]; rewrite ?(upd_other _ path t _ i j H); repeat split; reflexivity.
Qed.

Lemma step_loop_frame : forall rates times steps path k t st i j,
  i <> path \/ (j < t)%nat ->
  cell_eq (step_loop instrument_price compute_hedge_ratio rates times steps path k t st) st i j.
Proof.
  intros rates times steps path k. induction k as [|k IH]; intros t st i j H.
  - repeat split; reflexivity.
  - cbn [step_loop].
    destruct (IH (S t) (hedge_step instrument_price compute_hedge_ratio rates times steps path t st)
                i j ltac:(destruct H; [left|right]; lia)) as [E1 [E2 [E3 E4]]].
    destruct (hedge_step_frame rates times steps path t st i j
                ltac:(destruct H; [left|right]; lia)) as [F1 [F2 [F3 F4]]].
    rewrite E1, E2, E3, E4, F1, F2, F3, F4. repeat split; reflexivity.
Qed.

Lemma hedge_step_pnl : forall rates times steps path t st,
  (1 <= t)%nat ->
  st_pnl st path (t - 1)%nat =
    (st_instrument_values st path (t - 1)%nat - st_instrument_values st path 0%nat)
    - (st_hedge_values st path (t - 1)%nat - st_hedge_values st path 0%nat)
    - np_sum (map (fun j => st_hedge_costs st path j) (seq 0 t)) ->
  (forall j, (t <= j)%nat -> st_hedge_costs st path j = 0) ->
  let st' := hedge_step instrument_price compute_hedge_ratio rates times steps path t st in
  pnl_identity st' path t /\ (forall j, (S t <= j)%nat -> st_hedge_costs st' path j = 0).
Proof.
  intros rates times steps path t st Ht Hp Hz st'.
  assert (Hsum : np_sum (map (fun j => st_hedge_costs st' path j) (seq 0 t))
                 = np_sum (map (fun j => st_hedge_costs st path j) (seq 0 t))).
  { apply np_sum_seq_ext. intros j Hj. unfold st'.
    apply (hedge_step_frame rates times steps path t st path j). right. lia. }
  assert (Hc : forall j, (S t <= j)%nat -> st_hedge_costs st' path j = 0).
  { intros j Hj. unfold st'. rewrite (proj2 (proj2 (proj2 (hedge_step_frame rates times steps path t st
      path j ltac:(right; lia))))). apply Hz. lia. }
  split; [|exact Hc].
  rewrite np_sum_seq_S, Hsum.
  assert (Ht1 : (t - 1)%nat <> t) by lia. assert (Ht0 : 0%nat <> t) by lia.
  unfold st', hedge_step.
  destruct (is_rebalance_step steps t); cbn [st_instrument_values st_hedge_values st_pnl
    st_hedge_costs st_hedge_ratios];
    rewrite ?upd_same, ?(upd_other _ path t _ path (t - 1)%nat (or_intror Ht1)),
      ?(upd_other _ path t _ path 0%nat (or_intror Ht0)).
  - rewrite Hp. ring.
  - rewrite Hp, (Hz t (le_n t)). ring.
Qed.

Lemma step_loop_pnl : forall rates times steps path k t st,
  (1 <= t)%nat ->
  st_pnl st path (t - 1)%nat =
    (st_instrument_values st path (t - 1)%nat - st_instrument_values st path 0%nat)
    - (st_hedge_values st path (t - 1)%nat - st_hedge_values st path 0%nat)
    - np_sum (map (fun j => st_hedge_costs st path j) (seq 0 t)) ->
  (forall j, (t <= j)%nat -> st_hedge_costs st path j = 0) ->
  let st' := step_loop instrument_price compute_hedge_ratio rates times steps path k t st in
  st_pnl st' path (t + k - 1)%nat =
    (st_instrument_values st' path (t + k - 1)%nat - st_instrument_values st' path 0%nat)
    - (st_hedge_values st' path (t + k - 1)%nat - st_hedge_values st' path 0%nat)
    - np_sum (map (fun j => st_hedge_costs st' path j) (seq 0 (t + k))).
Proof.
  intros rates times steps path k. induction k as [|k IH]; intros t st Ht Hp Hz st'.
  - unfold st'. cbn [step_loop]. rewrite Nat.add_0_r. exact Hp.
  - unfold st'. cbn [step_loop].
    destruct (hedge_step_pnl rates times steps path t st Ht Hp Hz) as [H1 H2].
    replace (t + S k - 1)%nat with (S t + k - 1)%nat by lia.
    replace (t + S k)%nat with (S t + k)%nat by lia.
    apply IH; [lia| |exact H2].
    replace (S t - 1)%nat with t by lia. exact H1.
Qed.

Lemma path_body_frame : forall rates times steps path ts st i j,
  i <> path ->
  cell_eq (path_body instrument_price compute_hedge_ratio rates times steps path ts st) st i j.
Proof.
  intros rates times steps path ts st i j H. unfold path_body.
  match goal with
  | |- context [step_loop _ _ _ _ _ _ _ _ ?s0] =>
      destruct (step_loop_frame rates times steps path ts 1 s0 i j (or_introl H))
        as [E1 [E2 [E3 E4]]]
  end.
  rewrite E1, E2, E3, E4. cbn [st_instrument_values st_hedge_values st_pnl st_hedge_costs].
  rewrite !(upd_other _ path 0 _ i j (or_introl H)). repeat split; reflexivity.
Qed.

Lemma path_body_pnl : forall rates times steps path ts st,
  (forall j, st_hedge_costs st path j = 0) ->
  pnl_identity (path_body instrument_price compute_hedge_ratio rates times steps path ts st)
    path ts.
Proof.
  intros rates times steps path ts st Hz. unfold path_body.
  match goal with
  | |- context [step_loop _ _ _ _ _ _ _ _ ?s0] =>
      pose proof (step_loop_pnl rates times steps path ts 1 s0 (le_n 1)) as H
  end.
  cbn [st_instrument_values st_hedge_values st_pnl st_hedge_costs] in H.
  replace (1 + ts - 1)%nat with ts in H by lia.
  replace (1 + ts)%nat with (S ts) in H by lia.
  apply H.
  - simpl. rewrite !upd_same. unfold np_sum. simpl. rewrite Hz. ring.
  - intros j _. apply Hz.
Qed.

Lemma path_loop_frame : forall rates times steps ts k path st i j,
  (i < path \/ path + k <= i)%nat ->
  cell_eq (path_loop instrument_price compute_hedge_ratio rates times steps ts k path st) st i j.
Proof.
  intros rates times steps ts k. induction k as [|k IH]; intros path st i j H.
  - repeat split; reflexivity.
  - cbn [path_loop].
    destruct (IH (S path) (path_body instrument_price compute_hedge_ratio rates times steps path ts st)
                i j ltac:(lia)) as [E1 [E2 [E3 E4]]].
    destruct (path_body_frame rates times steps path ts st i j ltac:(lia))
      as [F1 [F2 [F3 F4]]].
    rewrite E1, E2, E3, E4, F1, F2, F3, F4. repeat split; reflexivity.
Qed.

Lemma path_loop_pnl : forall rates times steps ts k path st,
  (forall i j, (path <= i < path + k)%nat -> st_hedge_costs st i j = 0) ->
  forall i, (path <= i < path + k)%nat ->
  pnl_identity (path_loop instrument_price compute_hedge_ratio rates times steps ts k path st)
    i ts.
Proof.
  intros rates times steps ts k. induction k as [|k IH]; intros path st Hz i Hi; [lia|].
  cbn [path_loop].
  set (st1 := path_body instrument_price compute_hedge_ratio rates times steps path ts st).
  destruct (Nat.eq_dec i path) as [->|Hne].
  - assert (H1 := path_body_pnl rates times steps path ts st (fun j => Hz path j ltac:(lia))).
    fold st1 in H1.
    assert (Hf : forall j, cell_eq (path_loop instrument_price compute_hedge_ratio rates times
                   steps ts k (S path) st1) st1 path j)
      by (intros j; apply path_loop_frame; lia).
    rewrite (proj1 (proj2 (proj2 (Hf ts)))), (proj1 (Hf ts)), (proj1 (Hf 0%nat)),
      (proj1 (proj2 (Hf ts))), (proj1 (proj2 (Hf 0%nat))).
    rewrite (np_sum_seq_ext _ (fun j => st_hedge_costs st1 path j) (S ts))
      by (intros j _; exact (proj2 (proj2 (proj2 (Hf j))))).
    exact H1.
  - apply IH; [|lia]. intros i' j Hi'. unfold st1.
    rewrite (proj2 (proj2 (proj2 (path_body_frame rates times steps path ts st i' j ltac:(lia))))).
    apply Hz. lia.
Qed.

End HedgingPnL.

(** X18: the P&L bookkeeping of [simulate] telescopes: for every simulated
    path [i], the final cumulative P&L equals the change in instrument value,
    minus the change in hedge value, minus the path's total transaction costs
    [np.sum(hedge_costs[i])]. *)
Theorem simulate_pnl_decomposition :
  forall instrument_price compute_hedge_ratio rebalance_frequency simulate_rates
         fuel m n tharg Rs m',
  simulate instrument_price compute_hedge_ratio rebalance_frequency simulate_rates
    fuel m n tharg = Some (Ok (Rs, m')) ->
  forall i, (i < n)%nat ->
  let ts := res_timesteps Rs in
  res_pnl Rs i ts =
    (res_instrument_values Rs i ts - res_instrument_values Rs i 0%nat)
    - (res_hedge_values Rs i ts - res_hedge_values Rs i 0%nat)
    - np_sum (map (fun j => res_hedge_costs Rs i j) (seq 0 (S ts))).
Proof.
  intros ip chr rf sr fuel m n tharg Rs m' H i Hi ts. unfold simulate in H.
  destruct (adapt_model m (horizon_arg m tharg)) as [m1|e]; [|discriminate].
  destruct (sr m1 n) as [rates|e]; [|discriminate].
  destruct (rebalance_loop rf fuel (horizon_arg m tharg) (dt m1) (timesteps m1) 0 [])
    as [[steps|e]|]; try discriminate.
  inversion H; subst Rs m'. clear H. unfold ts. cbn [res_pnl res_instrument_values
    res_hedge_values res_hedge_costs res_timesteps].
  apply path_loop_pnl; [|lia].
  intros i' j _. reflexivity.
Qed.

Lemma simulate_pnl_decomposition_witness :
  exists Rs m',
    simulate (fun m _ => r0 m) (fun t _ => t) 1
      (fun m _ => Ok (fun i j => r0 m + INR (i + j) / 100)) 5 demo_hedge_model 2 (Some 2)
    = Some (Ok (Rs, m')) /\
    (1 < 2)%nat /\
    (let ts := res_timesteps Rs in
     res_pnl Rs 1%nat ts =
       (res_instrument_values Rs 1%nat ts - res_instrument_values Rs 1%nat 0%nat)
       - (res_hedge_values Rs 1%nat ts - res_hedge_values Rs 1%nat 0%nat)
       - np_sum (map (fun j => res_hedge_costs Rs 1%nat j) (seq 0 (S ts)))) /\
    res_pnl Rs 1%nat (res_timesteps Rs) = -4/100 - 11/1000000 /\
    np_sum (map (fun j => res_hedge_costs Rs 1%nat j) (seq 0 (S (res_timesteps Rs))))
      = 11 / 1000000.
Proof.
  destruct demo_hedge_run as [Rs [m' [H [_ [Hts [_ [_ [_ [P1 [_ [_ [_ [C10 [C11 C12]]]]]]]]]]]]]].
  exists Rs, m'. split; [exact H|]. split; [lia|].
  split.
  - exact (simulate_pnl_decomposition (fun m _ => r0 m) (fun t _ => t) 1
             (fun m _ => Ok (fun i j => r0 m + INR (i + j) / 100)) 5 demo_hedge_model 2%nat (Some 2)
             Rs m' H 1%nat ltac:(lia)).
  - rewrite Hts. split; [exact P1|].
    cbn [seq map np_sum fold_right]. unfold np_sum. cbn [seq map fold_right].
    rewrite C10, C11, C12. field.
Defined.

(** ** Risk analytics: VaR, Expected Shortfall and error cases *)

(** The linear-interpolation percentile of a non-empty array, for
    [0 <= q <= 100], lies between two of the array's values. *)
Lemma percentile_between : forall a q, a <> [] -> 0 <= q <= 100 ->
  exists v, percentile a q = Ok v /\ exists x y, In x a /\ In y a /\ x <= v <= y.
Proof.
  intros a q Ha Hq. unfold percentile.
  destruct (Rlt_dec q 0); [lra|]. destruct (Rlt_dec 100 q); [lra|].
  assert (Hp := RSort.Permuted_sort a).
  destruct (RSort.sort a) as [|h t] eqn:Hs.
  { apply Permutation_sym, Permutation_nil in Hp. contradiction. }
  eexists. split; [reflexivity|].
  replace (length (h :: t) - 1)%nat with (length t) by (simpl; lia).
  set (vi := INR (length t) * (q / 100)).
  assert (Hvi0 : 0 <= vi).
  { unfold vi. apply Rmult_le_pos; [apply pos_INR|lra]. }
  assert (Hvi1 : vi <= INR (length t)).
  { unfold vi. pose proof (pos_INR (length t)).
    rewrite <- (Rmult_1_r (INR (length t))) at 2.
    apply Rmult_le_compat_l; lra. }
  destruct (Int_part_nat vi Hvi0) as [HZ HI].
  destruct (base_Int_part vi) as [B1 B2].
  set (lo := Z.to_nat (Int_part vi)) in *.
  assert (Hlo : (lo <= length t)%nat) by (apply INR_le; lra).
  set (hi := Nat.min (S lo) (length t)).
  assert (Hhi : (hi <= length t)%nat) by (unfold hi; lia).
  set (x := nth lo (h :: t) 0). set (y := nth hi (h :: t) 0).
  assert (Hx : In x a).
  { apply (Permutation_in _ (Permutation_sym Hp)). apply nth_In. simpl. lia. }
  assert (Hy : In y a).
  { apply (Permutation_in _ (Permutation_sym Hp)). apply nth_In. simpl. lia. }
  set (g := vi - INR lo).
  assert (Hg : 0 <= g <= 1) by (unfold g; lra).
  destruct (Rle_dec x y) as [Hxy|Hxy].
  - exists x, y. split; [exact Hx|]. split; [exact Hy|].
    assert (0 <= g * (y - x)) by (apply Rmult_le_pos; lra).
    assert (g * (y - x) <= 1 * (y - x)) by (apply Rmult_le_compat_r; lra). lra.
  - exists y, x. split; [exact Hy|]. split; [exact Hx|].
    assert (g * (x - y) <= 1 * (x - y)) by (apply Rmult_le_compat_r; lra).
    assert (0 <= g * (x - y)) by (apply Rmult_le_pos; lra). lra.
Qed.

Lemma np_sum_le_bound : forall l v, (forall x, In x l -> x <= v) ->
  np_sum l <= INR (length l) * v.
Proof.
  intros l v. induction l as [|x l IH]; intros H.
  - unfold np_sum. simpl. lra.
  - unfold np_sum in *. cbn [fold_right length]. rewrite S_INR.
    assert (x <= v) by (apply H; left; reflexivity).
    assert (fold_right Rplus 0 l <= INR (length l) * v)
      by (apply IH; intros; apply H; right; assumption).
    nra.
Qed.

(** X19: for at least one path and a confidence level [c] in [[0, 1]],
    [analyze_results] succeeds, its VaR lies between two final P&L values,
    and its Expected Shortfall is a finite number no larger than the VaR. *)
Theorem analyze_results_var_es : forall Rs c,
  (1 <= res_n_paths Rs)%nat -> 0 <= c <= 1 ->
  exists a es, analyze_results Rs c = Ok a /\
    (exists x y, In x (final_pnl_of Rs) /\ In y (final_pnl_of Rs) /\ x <= var a <= y) /\
    expected_shortfall a = Fin es /\ es <= var a.
Proof.
  intros Rs c Hn Hc.
  assert (Hfp : final_pnl_of Rs <> []).
  { intro E. pose proof (final_pnl_of_length Rs) as L. rewrite E in L. simpl in L. lia. }
  destruct (percentile_between (final_pnl_of Rs) ((1 - c) * 100) Hfp ltac:(split; lra))
    as [v [Hv [x [y [Hx [Hy Hxy]]]]]].
  set (tail := filter (fun x0 => Rleb x0 v) (final_pnl_of Rs)).
  assert (Htail : tail <> []).
  { intro E. assert (Hin : In x tail).
    { apply filter_In. split; [exact Hx|]. unfold Rleb.
      destruct (Rle_dec x v); [reflexivity|lra]. }
    rewrite E in Hin. destruct Hin. }
  unfold analyze_results. rewrite Hv. cbn [bind].
  do 2 eexists. split; [reflexivity|]. cbn [var expected_shortfall].
  split; [exists x, y; auto|].
  fold tail. rewrite (np_mean_nonempty _ Htail). split; [reflexivity|].
  assert (Hle : forall z, In z tail -> z <= v).
  { intros z Hz. apply filter_In in Hz. destruct Hz as [_ Hz]. unfold Rleb in Hz.
    destruct (Rle_dec z v); [assumption|discriminate]. }
  assert (Hlen : 0 < INR (length tail)).
  { destruct tail as [|t0 tl]; [contradiction|]. simpl length. rewrite S_INR.
    pose proof (pos_INR (length tl)). lra. }
  pose proof (np_sum_le_bound tail v Hle).
  apply (Rmult_le_reg_r (INR (length tail))); [exact Hlen|].
  unfold Rdiv. rewrite Rmult_assoc, Rinv_l, Rmult_1_r by lra. lra.
Qed.

Lemma analyze_results_var_es_witness :
  let Rs := mkSimResults 2 0 (fun _ => 0) zeros zeros zeros zeros zeros
              (fun i _ => INR i) in
  (1 <= res_n_paths Rs)%nat /\ 0 <= 1/2 <= 1 /\
  exists a es, analyze_results Rs (1/2) = Ok a /\
    (exists x y, In x (final_pnl_of Rs) /\ In y (final_pnl_of Rs) /\ x <= var a <= y) /\
    expected_shortfall a = Fin es /\ es <= var a.
Proof.
  intros Rs. split; [simpl; lia|]. split; [lra|].
  apply analyze_results_var_es; [simpl; lia|lra].
Defined.

(** X20: [analyze_results] rejects a confidence level outside [[0, 1]] with
    [ValueError] (NumPy's percentile range check), and on a result with no
    paths and a valid level it raises [IndexError] (the percentile of an empty
    array). *)
Theorem analyze_results_errors : forall Rs c,
  ((c < 0 \/ 1 < c) -> analyze_results Rs c = Err ValueError) /\
  (res_n_paths Rs = 0%nat -> 0 <= c <= 1 -> analyze_results Rs c = Err IndexError).
Proof.
  intros Rs c. split.
  - intros Hc. unfold analyze_results, percentile.
    destruct (Rlt_dec ((1 - c) * 100) 0) as [|H1]; [reflexivity|].
    destruct (Rlt_dec 100 ((1 - c) * 100)) as [|H2]; [reflexivity|]. lra.
  - intros Hn Hc. unfold analyze_results, percentile, final_pnl_of. rewrite Hn.
    destruct (Rlt_dec ((1 - c) * 100) 0); [lra|].
    destruct (Rlt_dec 100 ((1 - c) * 100)); [lra|]. reflexivity.
Qed.

(** ** Fixed-coupon bonds as a function of the coupon rate *)

Lemma credit_adjust_nonneg : forall cs D time, 0 <= D -> 0 <= credit_adjust cs D time.
Proof.
  intros cs D time HD. unfold credit_adjust. destruct (Rlt_dec 0 cs); [|exact HD].
  apply Rmult_le_pos; [exact HD|left; apply exp_pos].
Qed.

Lemma coupon_loop_linear : forall m cs v dates,
  (forall d, exists D, zero_coupon_bond_price m v d (r0 m) = Ok D /\ 0 <= D) ->
  exists S, 0 <= S /\
    forall ca acc, coupon_loop m cs (r0 m) v ca dates acc = Ok (acc + ca * S).
Proof.
  intros m cs v dates Hz. induction dates as [|d ds IH].
  - exists 0. split; [lra|]. intros ca acc. cbn [coupon_loop]. f_equal. ring.
  - destruct IH as [S [HS HL]]. destruct (Hz d) as [D [HD HD0]].
    exists (credit_adjust cs D (d - v) + S).
    split; [pose proof (credit_adjust_nonneg cs D (d - v) HD0); lra|].
    intros ca acc. cbn [coupon_loop]. rewrite HD. cbn [bind]. rewrite HL. f_equal. ring.
Qed.

(** X21: [price_fixed_coupon_bond] is affine in the coupon rate: when its
    coupon schedule can be built by [np.arange] (a non-zero frequency and a
    schedule within [np.arange]'s length limit) and the discount factors are
    non-negative, there is an
    [S >= 0] (the sum of the credit-adjusted coupon discount factors) such that
    the price at coupon rate [c] is the zero-coupon price of the notional plus
    [notional * c * frequency * S].  At [c = 0] the two pricers agree. *)
Theorem fixed_coupon_affine_in_rate : forall m cs T freq N v,
  coupon_schedule_fits T freq v ->
  (forall d, exists D, zero_coupon_bond_price m v d (r0 m) = Ok D /\ 0 <= D) ->
  exists P S, 0 <= S /\ price_zero_coupon_bond m cs T N v = Ok P /\
    forall c, price_fixed_coupon_bond m cs T c freq N v = Ok (P + N * c * freq * S).
Proof.
  intros m cs T freq N v Hf Hz.
  unfold price_zero_coupon_bond, price_fixed_coupon_bond.
  destruct (Rle_dec T v) as [HT|HT].
  - exists N, 0. split; [lra|]. split; [reflexivity|]. intros c. f_equal. ring.
  - destruct (ytm_coupon_dates_ok T freq v Hf) as [dates Hd].
    destruct (coupon_loop_linear m cs v dates Hz) as [S [HS HL]].
    destruct (Hz T) as [D [HD _]].
    exists (N * credit_adjust cs D (T - v)), S. split; [exact HS|].
    rewrite HD. cbn [bind]. split; [reflexivity|].
    intros c. rewrite Hd. cbn [bind]. rewrite HL. cbn [bind].
    f_equal. ring.
Qed.

Lemma fixed_coupon_affine_in_rate_witness :
  exists P S, 0 <= S /\
    price_zero_coupon_bond (flat_rate_model (3/100) (5/100)) (1/100) 3 100 0 = Ok P /\
    forall c, price_fixed_coupon_bond (flat_rate_model (3/100) (5/100)) (1/100) 3 c 1 100 0
              = Ok (P + 100 * c * 1 * S).
Proof.
  apply (fixed_coupon_affine_in_rate (flat_rate_model (3/100) (5/100)) (1/100) 3 1 100 0).
  - apply coupon_schedule_fits_pos; [lra|lra|].
    rewrite Rabs_R0. pose proof eps10_bounds. unfold Rdiv. rewrite Rinv_1. lra.
  - intros d. simpl. destruct (Rge_dec 0 d).
    + exists 1. split; [reflexivity|lra].
    + eexists. split; [reflexivity|left; apply exp_pos].
Defined.

(** ** Modified duration and the arbitrage analyses *)

Lemma Rltb_true : forall x y, Rltb x y = true -> x < y.
Proof. intros x y H. unfold Rltb in H. destruct (Rlt_dec x y); [assumption|discriminate]. Qed.

Lemma Rltb_false : forall x y, Rltb x y = false -> y <= x.
Proof. intros x y H. unfold Rltb in H. destruct (Rlt_dec x y); [discriminate|lra]. Qed.

Lemma ytm_ok : forall P M c f N v,
  (v < M -> exists dates, ytm_coupon_dates M f v = Ok dates) ->
  exists y, calculate_yield_to_maturity P M c f N v 100 (/ 10 ^ 8) = Ok y.
Proof.
  intros P M c f N v Hd0. unfold calculate_yield_to_maturity.
  destruct (Rle_dec M v); [eexists; reflexivity|].
  destruct (Hd0 ltac:(lra)) as [dates Hd].
  rewrite (bisection_total _ (fun y => flat_price dates (N * c * f) N M v y - P)).
  - eexists; reflexivity.
  - intros y. unfold price_difference. rewrite Hd. reflexivity.
Qed.

Lemma ytm_live_bracket : forall P M c f N v y, v < M ->
  calculate_yield_to_maturity P M c f N v 100 (/ 10 ^ 8) = Ok y -> 1 / 10000 < y < 1 / 2.
Proof.
  intros P M c f N v y HvM Hy. unfold calculate_yield_to_maturity in Hy.
  destruct (Rle_dec M v); [lra|]. apply bisection_bracket in Hy; lra.
Qed.

Lemma modified_duration_pos : forall m cs T c freq N v P,
  v < T -> 0 < freq -> 0 < N -> 0 <= c ->
  price_fixed_coupon_bond m cs T c freq N v = Ok P -> 0 < P ->
  exists md, calculate_modified_duration m cs T c freq N v = Ok (Fin md) /\ 0 < md.
Proof.
  intros m cs T c freq N v P HvT Hf HN Hc HP Hpos.
  destruct (calculate_duration_pos m cs T c freq N v P HvT Hf HN Hc HP Hpos) as [D [HD HD0]].
  destruct (ytm_ok P T c freq N v (fun H => price_fixed_dates m cs T c freq N v P H HP))
    as [y Hy].
  pose proof (ytm_live_bracket P T c freq N v y HvT Hy) as Hb.
  unfold calculate_modified_duration. rewrite HP. cbn [bind]. rewrite Hy. cbn [bind].
  rewrite HD. cbn [bind]. rewrite py_div_nonzero by lra. cbn [bind].
  assert (Hq : 0 < y / freq) by (apply Rdiv_lt_0_compat; lra).
  unfold fdiv. destruct (Req_EM_T (1 + y / freq) 0); [lra|].
  eexists. split; [reflexivity|]. apply Rdiv_lt_0_compat; lra.
Qed.

Lemma demo_fixed_price :
  price_fixed_coupon_bond (flat_rate_model (3/100) (5/100)) 0 1 (4/100) 1 100 0
  = Ok (0 + 100 * (4/100) * 1 * exp (- (5/100) * (1 - 0)) + 100 * exp (- (5/100) * (1 - 0))).
Proof.
  unfold price_fixed_coupon_bond. destruct (Rle_dec 1 0); [lra|].
  rewrite ytm_coupon_dates_single. cbn [bind coupon_loop flat_rate_model zero_coupon_bond_price r0].
  destruct (Rge_dec 0 1); [lra|]. cbn [bind coupon_loop].
  unfold credit_adjust. destruct (Rlt_dec 0 0); [lra|]. reflexivity.
Qed.

Lemma ytm_within_bracket_witness : exists y,
  calculate_yield_to_maturity 95 1 (4/100) 1 100 0 100 (/ 10 ^ 8) = Ok y /\
  ((1 <= 0 /\ y = 0) \/ (0 < 1 /\ 1 / 10000 < y < 1 / 2)).
Proof.
  destruct (ytm_ok 95 1 (4/100) 1 100 0
              (fun H => price_fixed_dates _ 0 1 (4/100) 1 100 0 _ H demo_fixed_price)) as [y Hy].
  exists y. split; [exact Hy|]. exact (ytm_within_bracket _ _ _ _ _ _ _ _ _ Hy).
Defined.

Lemma demo_fixed_price_pos :
  0 < 0 + 100 * (4/100) * 1 * exp (- (5/100) * (1 - 0)) + 100 * exp (- (5/100) * (1 - 0)).
Proof. pose proof (exp_pos (- (5/100) * (1 - 0))). lra. Qed.

(** X27: the modified duration of a live bond with a positive frequency and
    notional, a non-negative coupon rate and a positive price is a finite
    positive number: the Macaulay duration divided by [1 + ytm / frequency],
    with the yield inside [(0.0001, 0.5)]. *)
Theorem modified_duration_positive : forall m cs T c freq N v P,
  v < T -> 0 < freq -> 0 < N -> 0 <= c ->
  price_fixed_coupon_bond m cs T c freq N v = Ok P -> 0 < P ->
  exists md, calculate_modified_duration m cs T c freq N v = Ok (Fin md) /\ 0 < md.
Proof. exact modified_duration_pos. Qed.

Lemma modified_duration_positive_witness :
  exists md, calculate_modified_duration (flat_rate_model (3/100) (5/100)) 0 1 (4/100) 1 100 0
             = Ok (Fin md) /\ 0 < md.
Proof.
  exact (modified_duration_positive _ 0 1 (4/100) 1 100 0 _ ltac:(lra) ltac:(lra) ltac:(lra)
           ltac:(lra) demo_fixed_price demo_fixed_price_pos).
Defined.

Lemma analyze_bond_vs_swaps_ok : forall m cs pr orm M c bp f N v tc tol P s,
  v < M -> 0 < f -> 0 < N -> 0 <= c ->
  price_fixed_coupon_bond m cs M c f N v = Ok P -> 0 < P ->
  (forall x y z, pr x y z = Ok s) ->
  exists r, analyze_bond_vs_swaps (mkArbitrageAnalyzer m cs (Some pr) orm) M c bp f N v tc tol
              = Ok r /\ bs_theoretical_bond_price r = P.
Proof.
  intros m cs pr orm M c bp f N v tc tol P s HvM Hf HN Hc HP Hpos Hpr.
  unfold analyze_bond_vs_swaps. cbn [swap_par_rate bond_rate_model bond_credit_spread].
  rewrite HP. cbn [bind].
  assert (Hy : forall P', exists y,
             calculate_yield_to_maturity P' M c f N v 100 (/ 10 ^ 8) = Ok y)
    by (intros; apply ytm_ok; intros H; exact (price_fixed_dates m cs M c f N v P H HP)).
  destruct (Hy (match bp with Some p => p | None => P end)) as [y Hy'].
  rewrite Hy'. cbn [bind]. rewrite Hpr. cbn [bind].
  destruct (Rltb _ _).
  - destruct (modified_duration_pos m cs M c f N v P HvM Hf HN Hc HP Hpos) as [md [Hmd _]].
    rewrite Hmd. cbn [bind]. eexists; split; reflexivity.
  - cbn [bind]. eexists; split; reflexivity.
Qed.

(** X22: [analyze_bond_vs_swaps] on a live bond (positive frequency and
    notional, non-negative coupon, positive theoretical price) with a
    non-negative [spread_tolerance + transaction_costs]: a flagged opportunity
    has [|spread|] above that threshold and a finite positive estimated profit
    [|spread| * modified_duration * notional], from which the costs
    [transaction_costs * notional] are subtracted; otherwise both profits are 0
    and no strategy is proposed. *)
Theorem bond_vs_swaps_profit : forall a M c bp f N v tc tol r,
  v < M -> 0 < f -> 0 < N -> 0 <= c -> 0 <= tol + tc ->
  analyze_bond_vs_swaps a M c bp f N v tc tol = Ok r ->
  0 < bs_theoretical_bond_price r ->
  (bs_arbitrage_opportunity r = true ->
     tol + tc < Rabs (bs_spread r) /\
     exists p, 0 < p /\ bs_estimated_profit r = Fin p /\
               bs_estimated_profit_after_costs r = Fin (p - tc * N)) /\
  (bs_arbitrage_opportunity r = false ->
     Rabs (bs_spread r) <= tol + tc /\ bs_strategy r = NoSignificantArbitrage /\
     bs_estimated_profit r = Fin 0 /\ bs_estimated_profit_after_costs r = Fin 0).
Proof.
  intros a M c bp f N v tc tol r HvM Hf HN Hc Htol H Hpos.
  unfold analyze_bond_vs_swaps in H. destruct (swap_par_rate a) as [pr|]; [|discriminate H].
  cbv zeta in H.
  destruct (price_fixed_coupon_bond (bond_rate_model a) (bond_credit_spread a) M c f N v)
    as [P|e] eqn:HP; cbn [bind] in H; [|discriminate H].
  destruct (calculate_yield_to_maturity (match bp with Some p => p | None => P end)
              M c f N v 100 (/ 10 ^ 8)) as [y|e]; cbn [bind] in H; [|discriminate H].
  destruct (pr v M f) as [s|e]; cbn [bind] in H; [|discriminate H].
  destruct (Rltb (tol + tc) (Rabs (y - s))) eqn:Ea.
  - destruct (calculate_modified_duration (bond_rate_model a) (bond_credit_spread a) M c f N v)
      as [md|e] eqn:Hmd; cbn [bind] in H; [|discriminate H].
    injection H as <-. cbn [bs_theoretical_bond_price] in Hpos.
    destruct (modified_duration_pos _ _ M c f N v P HvM Hf HN Hc HP Hpos) as [md' [Hmd' Hmd0]].
    rewrite Hmd in Hmd'. injection Hmd' as ->.
    apply Rltb_true in Ea.
    cbn [bs_arbitrage_opportunity bs_spread bs_estimated_profit bs_estimated_profit_after_costs
         fst snd].
    split; [|intros; discriminate].
    intros _. split; [exact Ea|].
    assert (Hs : 0 < Rabs (y - s)) by lra.
    exists (Rabs (y - s) * md' * N). split.
    + apply Rmult_lt_0_compat; [apply Rmult_lt_0_compat|]; lra.
    + split; reflexivity.
  - cbn [bind] in H. injection H as <-. apply Rltb_false in Ea.
    cbn [bs_arbitrage_opportunity bs_spread bs_strategy bs_estimated_profit
         bs_estimated_profit_after_costs fst snd].
    split; [intros; discriminate|]. intros _. repeat split; lra.
Qed.

Lemma bond_vs_swaps_profit_witness : exists r,
  analyze_bond_vs_swaps
    (mkArbitrageAnalyzer (flat_rate_model (3/100) (5/100)) 0 (Some (fun _ _ _ => Ok (1/100))) None)
    1 (4/100) None 1 100 0 0 (5/10000) = Ok r /\
  0 < bs_theoretical_bond_price r /\
  (bs_arbitrage_opportunity r = true ->
     5/10000 + 0 < Rabs (bs_spread r) /\
     exists p, 0 < p /\ bs_estimated_profit r = Fin p /\
               bs_estimated_profit_after_costs r = Fin (p - 0 * 100)) /\
  (bs_arbitrage_opportunity r = false ->
     Rabs (bs_spread r) <= 5/10000 + 0 /\ bs_strategy r = NoSignificantArbitrage /\
     bs_estimated_profit r = Fin 0 /\ bs_estimated_profit_after_costs r = Fin 0).
Proof.
  destruct (analyze_bond_vs_swaps_ok (flat_rate_model (3/100) (5/100)) 0
              (fun _ _ _ => Ok (1/100)) None 1 (4/100) None 1 100 0 0 (5/10000) _ (1/100)
              ltac:(lra) ltac:(lra) ltac:(lra) ltac:(lra) demo_fixed_price demo_fixed_price_pos
              (fun _ _ _ => eq_refl)) as [r [Hr HrP]].
  assert (Hpos : 0 < bs_theoretical_bond_price r) by (rewrite HrP; exact demo_fixed_price_pos).
  exists r. split; [exact Hr|]. split; [exact Hpos|].
  exact (bond_vs_swaps_profit _ 1 (4/100) None 1 100 0 0 (5/10000) r ltac:(lra) ltac:(lra)
           ltac:(lra) ltac:(lra) ltac:(lra) Hr Hpos).
Defined.

Lemma fdiv_by_zero_pos : forall x, 0 < x -> fdiv (Fin x) (Fin 0) = PInf.
Proof.
  intros x Hx. unfold fdiv. destruct (Req_EM_T 0 0) as [_|H]; [|lra].
  unfold fsign. destruct (Rlt_dec 0 x); [reflexivity|lra].
Qed.

Lemma fdiv_zero_by_zero : fdiv (Fin 0) (Fin 0) = NaN.
Proof.
  unfold fdiv. destruct (Req_EM_T 0 0) as [_|H]; [|lra].
  unfold fsign. destruct (Rlt_dec 0 0); [lra|]. destruct (Rlt_dec 0 0); [lra|reflexivity].
Qed.

Lemma fmul_pinf_pos : forall x, 0 < x -> fmul PInf (Fin x) = PInf.
Proof. intros x Hx. unfold fmul, fsign. destruct (Rlt_dec 0 x); [reflexivity|lra]. Qed.

(** X23: an observed bond price of 0 in [analyze_asset_swap].  As a Python
    float it makes the adjusted coupon [bond_coupon_rate * notional /
    bond_price] divide by zero, so the call never returns a result: once the
    theoretical price, the yield and the swap rate are computed it raises
    [ZeroDivisionError].  As an [np.float64] (what the repository's example
    passes) nothing is raised: for a positive coupon, notional and maturity
    the spread is [inf], an opportunity is flagged and both estimated profits
    are [inf]; for a zero coupon the spread is NaN and no opportunity is
    flagged. *)
Theorem asset_swap_zero_price_raises : forall a M c f N v tc tol,
  (forall r, analyze_asset_swap a M c 0 PyFloat f N v tc tol <> Ok r) /\
  (forall pr P y s, swap_par_rate a = Some pr ->
     price_fixed_coupon_bond (bond_rate_model a) (bond_credit_spread a) M c f N v = Ok P ->
     calculate_yield_to_maturity 0 M c f N v 100 (/ 10 ^ 8) = Ok y ->
     pr v M f = Ok s ->
     analyze_asset_swap a M c 0 PyFloat f N v tc tol = Err ZeroDivisionError /\
     (0 < c -> 0 < N -> 0 < M ->
        exists r, analyze_asset_swap a M c 0 NpFloat64 f N v tc tol = Ok r /\
          as_asset_swap_spread r = PInf /\ as_arbitrage_opportunity r = true /\
          as_strategy r = BuyBondPayerSwap /\ as_estimated_profit r = PInf /\
          as_estimated_profit_after_costs r = PInf) /\
     (c = 0 ->
        exists r, analyze_asset_swap a M c 0 NpFloat64 f N v tc tol = Ok r /\
          as_asset_swap_spread r = NaN /\ as_arbitrage_opportunity r = false /\
          as_strategy r = NoSignificantArbitrage /\ as_estimated_profit r = Fin 0 /\
          as_estimated_profit_after_costs r = Fin 0)).
Proof.
  intros a M c f N v tc tol. unfold analyze_asset_swap. split.
  - intros r. destruct (swap_par_rate a) as [pr|]; [|discriminate]. cbv zeta.
    destruct (price_fixed_coupon_bond _ _ M c f N v); cbn [bind]; [|discriminate].
    destruct (calculate_yield_to_maturity 0 M c f N v 100 (/ 10 ^ 8)); cbn [bind];
      [|discriminate].
    destruct (pr v M f); cbn [bind]; [|discriminate].
    unfold float_div. rewrite py_div_zero. discriminate.
  - intros pr P y s Hpr HP Hy Hs. rewrite Hpr. cbv zeta. rewrite HP. cbn [bind].
    rewrite Hy. cbn [bind]. rewrite Hs. cbn [bind]. split; [|split].
    + unfold float_div. rewrite py_div_zero. reflexivity.
    + intros Hc HN HM. unfold float_div.
      rewrite fdiv_by_zero_pos by (apply Rmult_lt_0_compat; assumption).
      cbv zeta. cbn [bind fsub fneg fadd fgtb]. rewrite !fmul_pinf_pos by assumption.
      eexists. split; [reflexivity|]. repeat split.
    + intros ->. unfold float_div. replace (0 * N) with 0 by ring.
      rewrite fdiv_zero_by_zero. cbv zeta. cbn [bind fsub fneg fadd fgtb].
      eexists. split; [reflexivity|]. repeat split.
Qed.

Lemma analyze_asset_swap_ok : forall m cs pr orm M c bp tp f N v tc tol P s,
  (tp = PyFloat -> bp <> 0) ->
  price_fixed_coupon_bond m cs M c f N v = Ok P ->
  (forall x y z, pr x y z = Ok s) ->
  exists r, analyze_asset_swap (mkArbitrageAnalyzer m cs (Some pr) orm) M c bp tp f N v tc tol
              = Ok r.
Proof.
  intros m cs pr orm M c bp tp f N v tc tol P s Hbp HP Hpr.
  unfold analyze_asset_swap. cbn [swap_par_rate bond_rate_model bond_credit_spread].
  rewrite HP. cbn [bind].
  destruct (ytm_ok bp M c f N v (fun H => price_fixed_dates m cs M c f N v P H HP)) as [y Hy].
  rewrite Hy. cbn [bind]. rewrite Hpr. cbn [bind].
  destruct tp; unfold float_div.
  - rewrite py_div_nonzero by (apply Hbp; reflexivity). cbn [bind]. cbv zeta.
    match goal with |- context [if ?b then _ else _] => destruct b end;
      eexists; reflexivity.
  - cbn [bind]. cbv zeta.
    match goal with |- context [if ?b then _ else _] => destruct b end;
      eexists; reflexivity.
Qed.

Lemma demo_par_rate_analyzer_zero_price :
  exists y, calculate_yield_to_maturity 0 1 (4/100) 1 100 0 100 (/ 10 ^ 8) = Ok y.
Proof.
  apply ytm_ok. intros H.
  exact (price_fixed_dates _ 0 1 (4/100) 1 100 0 _ H demo_fixed_price).
Qed.

Lemma asset_swap_zero_price_raises_witness :
  exists r,
    analyze_asset_swap
      (mkArbitrageAnalyzer (flat_rate_model (3/100) (5/100)) 0 (Some (fun _ _ _ => Ok (1/100)))
         None)
      1 (4/100) 0 NpFloat64 1 100 0 0 (5/10000) = Ok r /\
    as_asset_swap_spread r = PInf /\ as_arbitrage_opportunity r = true /\
    as_strategy r = BuyBondPayerSwap /\ as_estimated_profit r = PInf /\
    as_estimated_profit_after_costs r = PInf.
Proof.
  destruct demo_par_rate_analyzer_zero_price as [y Hy].
  exact (proj1 (proj2 (proj2 (asset_swap_zero_price_raises
           (mkArbitrageAnalyzer (flat_rate_model (3/100) (5/100)) 0
              (Some (fun _ _ _ => Ok (1/100))) None) 1 (4/100) 1 100 0 0 (5/10000))
           (fun _ _ _ => Ok (1/100)) _ y (1/100) eq_refl demo_fixed_price Hy eq_refl))
           ltac:(lra) ltac:(lra) ltac:(lra)).
Defined.

(** X24: [analyze_asset_swap] is one-sided: it never proposes selling the
    bond.  A flagged opportunity comes with the strategy "buy the bond, pay
    fixed"; otherwise no strategy is proposed and both profits are 0.  For a
    non-zero observed price, a positive notional and a positive maturity the
    spread is a finite number, an opportunity is flagged exactly when it
    exceeds [spread_tolerance + transaction_costs], and the estimated profit
    [spread * notional * maturity] then exceeds
    [(spread_tolerance + transaction_costs) * notional * maturity], with
    [transaction_costs * notional] subtracted after costs.  (With an
    [np.float64] zero price the spread may be NaN or infinite: X23.) *)
Theorem asset_swap_one_sided : forall a M c bp tp f N v tc tol r,
  analyze_asset_swap a M c bp tp f N v tc tol = Ok r ->
  as_strategy r <> SellBondReceiverSwap /\
  (as_arbitrage_opportunity r = true -> as_strategy r = BuyBondPayerSwap) /\
  (as_arbitrage_opportunity r = false ->
     as_strategy r = NoSignificantArbitrage /\
     as_estimated_profit r = Fin 0 /\ as_estimated_profit_after_costs r = Fin 0) /\
  (bp <> 0 -> 0 < N -> 0 < M ->
     exists sp, as_asset_swap_spread r = Fin sp /\
       (as_arbitrage_opportunity r = true <-> tol + tc < sp) /\
       (as_arbitrage_opportunity r = true ->
          exists ep, as_estimated_profit r = Fin ep /\ (tol + tc) * N * M < ep /\
                     as_estimated_profit_after_costs r = Fin (ep - tc * N))).
Proof.
  intros a M c bp tp f N v tc tol r H.
  unfold analyze_asset_swap in H. destruct (swap_par_rate a) as [pr|]; [|discriminate H].
  cbv zeta in H.
  destruct (price_fixed_coupon_bond (bond_rate_model a) (bond_credit_spread a) M c f N v)
    as [P|e]; cbn [bind] in H; [|discriminate H].
  destruct (calculate_yield_to_maturity bp M c f N v 100 (/ 10 ^ 8)) as [y|e];
    cbn [bind] in H; [|discriminate H].
  destruct (pr v M f) as [s|e]; cbn [bind] in H; [|discriminate H].
  destruct (float_div PyFloat tp (c * N) bp) as [q|e] eqn:Hq; cbn [bind] in H;
    [|discriminate H].
  assert (Hgen : as_strategy r <> SellBondReceiverSwap /\
    (as_arbitrage_opportunity r = true -> as_strategy r = BuyBondPayerSwap) /\
    (as_arbitrage_opportunity r = false ->
       as_strategy r = NoSignificantArbitrage /\
       as_estimated_profit r = Fin 0 /\ as_estimated_profit_after_costs r = Fin 0)).
  { destruct (fgtb (fsub q (Fin s)) (tol + tc)); injection H as <-;
      cbn [as_strategy as_arbitrage_opportunity as_estimated_profit
           as_estimated_profit_after_costs].
    - split; [discriminate|]. split; [reflexivity|intros; discriminate].
    - split; [discriminate|]. split; [intros; discriminate|]. intros _. repeat split. }
  destruct Hgen as [H1 [H2 H3]]. split; [exact H1|]. split; [exact H2|]. split; [exact H3|].
  intros Hbp HN HM. rewrite float_div_nonzero in Hq by exact Hbp. injection Hq as <-.
  cbn [fsub fneg fadd fgtb] in H. unfold Rltb in H.
  exists (c * N / bp + - s).
  destruct (Rlt_dec (tol + tc) (c * N / bp + - s)) as [Hlt|Hge]; injection H as <-;
    cbn [as_asset_swap_spread as_arbitrage_opportunity as_estimated_profit
         as_estimated_profit_after_costs fmul fsub fneg fadd].
  - split; [reflexivity|]. split; [split; [intros _; exact Hlt|reflexivity]|].
    intros _. eexists. split; [reflexivity|]. split; [|f_equal; ring].
    apply Rmult_lt_compat_r; [exact HM|]. apply Rmult_lt_compat_r; [exact HN|exact Hlt].
  - split; [reflexivity|]. split; [split; [discriminate|intros Hc; contradiction]|].
    intros Hc; discriminate.
Qed.

Lemma asset_swap_one_sided_witness : exists r,
  analyze_asset_swap
    (mkArbitrageAnalyzer (flat_rate_model (3/100) (5/100)) 0 (Some (fun _ _ _ => Ok (1/100))) None)
    1 (4/100) 95 NpFloat64 1 100 0 0 (5/10000) = Ok r /\
  as_strategy r <> SellBondReceiverSwap /\
  (as_arbitrage_opportunity r = true -> as_strategy r = BuyBondPayerSwap) /\
  (as_arbitrage_opportunity r = false ->
     as_strategy r = NoSignificantArbitrage /\
     as_estimated_profit r = Fin 0 /\ as_estimated_profit_after_costs r = Fin 0) /\
  (95 <> 0 -> 0 < 100 -> 0 < 1 ->
     exists sp, as_asset_swap_spread r = Fin sp /\
       (as_arbitrage_opportunity r = true <-> 5/10000 + 0 < sp) /\
       (as_arbitrage_opportunity r = true ->
          exists ep, as_estimated_profit r = Fin ep /\ (5/10000 + 0) * 100 * 1 < ep /\
                     as_estimated_profit_after_costs r = Fin (ep - 0 * 100))).
Proof.
  destruct (analyze_asset_swap_ok (flat_rate_model (3/100) (5/100)) 0
              (fun _ _ _ => Ok (1/100)) None 1 (4/100) 95 NpFloat64 1 100 0 0 (5/10000) _ (1/100)
              (fun H => ltac:(discriminate H)) demo_fixed_price (fun _ _ _ => eq_refl)) as [r Hr].
  exists r. split; [exact Hr|].
  exact (asset_swap_one_sided _ 1 (4/100) 95 NpFloat64 1 100 0 0 (5/10000) r Hr).
Defined.

Lemma forward_rates_loop_spec : forall m v f ts fr,
  (forall t, In t ts -> v <= t - f) ->
  forward_rates_loop m v f ts = Ok fr ->
  length fr = length ts /\
  forall F, In F fr -> exists t, In t ts /\ forward_rate m v (t - f) t (r0 m) = Ok F.
Proof.
  intros m v f ts. induction ts as [|t ts IH]; intros fr Hts H; cbn [forward_rates_loop] in H.
  - injection H as <-. split; [reflexivity|intros F []].
  - destruct (Rge_dec (t - f) v) as [Hge|Hlt].
    2:{ exfalso. apply Hlt. apply Rle_ge. apply Hts. left. reflexivity. }
    destruct (forward_rate m v (t - f) t (r0 m)) as [F0|e] eqn:HF0; cbn [bind] in H;
      [|discriminate H].
    destruct (forward_rates_loop m v f ts) as [fr'|e]; cbn [bind] in H; [|discriminate H].
    injection H as <-.
    destruct (IH fr' (fun t' Ht' => Hts t' (or_intror Ht')) eq_refl) as [Hlen Hin].
    split; [cbn [length]; rewrite Hlen; reflexivity|].
    intros F [<-|HF].
    + exists t. split; [left; reflexivity|exact HF0].
    + destruct (Hin F HF) as [t' [Ht' Hf']]. exists t'. split; [right; exact Ht'|exact Hf'].
Qed.

Lemma np_sum_ge_bound : forall l lo, (forall x, In x l -> lo <= x) ->
  INR (length l) * lo <= np_sum l.
Proof.
  intros l lo. induction l as [|x l IH]; intros H.
  - unfold np_sum. simpl. lra.
  - unfold np_sum in *. cbn [fold_right length]. rewrite S_INR.
    assert (lo <= x) by (apply H; left; reflexivity).
    assert (INR (length l) * lo <= fold_right Rplus 0 l)
      by (apply IH; intros; apply H; right; assumption).
    nra.
Qed.

Lemma mean_between : forall l lo hi, l <> [] -> (forall x, In x l -> lo <= x <= hi) ->
  lo <= np_sum l / INR (length l) <= hi.
Proof.
  intros l lo hi Hne H.
  assert (Hlen : 0 < INR (length l)).
  { destruct l as [|x l]; [contradiction|]. cbn [length]. rewrite S_INR.
    pose proof (pos_INR (length l)). lra. }
  pose proof (np_sum_ge_bound l lo (fun x Hx => proj1 (H x Hx))).
  pose proof (np_sum_le_bound l hi (fun x Hx => proj2 (H x Hx))).
  split.
  - apply (Rmult_le_reg_r (INR (length l))); [exact Hlen|].
    unfold Rdiv. rewrite Rmult_assoc, Rinv_l by lra. lra.
  - apply (Rmult_le_reg_r (INR (length l))); [exact Hlen|].
    unfold Rdiv. rewrite Rmult_assoc, Rinv_l by lra. lra.
Qed.

Lemma analyze_bond_vs_capfloor_spec : forall a M c Kc fs bp f N v vol tc tol r,
  analyze_bond_vs_capfloor a M c Kc fs bp f N v vol tc tol = Ok r ->
  exists ts fr,
    arange (v + f) (M + eps10) f = Ok ts /\
    forward_rates_loop (bond_rate_model a) v f ts = Ok fr /\
    avg_forward_rate r = average_forward_rate (bond_rate_model a) fr /\
    cf_cap_strategy r = fst (cap_decision (avg_forward_rate r) Kc tol) /\
    cf_cap_arbitrage r = snd (cap_decision (avg_forward_rate r) Kc tol) /\
    forall fa, cf_floor r = Some fa -> exists Kf, fs = Some Kf /\
      fa_floor_strategy fa = fst (floor_decision (avg_forward_rate r) Kf tol) /\
      fa_floor_arbitrage fa = snd (floor_decision (avg_forward_rate r) Kf tol) /\
      (fa_collar_strategy fa, fa_collar_arbitrage fa) =
        collar_decision (avg_forward_rate r) Kc Kf
          (snd (cap_decision (avg_forward_rate r) Kc tol))
          (snd (floor_decision (avg_forward_rate r) Kf tol)).
Proof.
  intros a M c Kc fs bp f N v vol tc tol r H.
  unfold analyze_bond_vs_capfloor in H. destruct (option_rate_model a) as [om|];
    [|discriminate H].
  cbv zeta in H.
  destruct (price_fixed_coupon_bond (bond_rate_model a) (bond_credit_spread a) M c f N v)
    as [P|e]; cbn [bind] in H; [|discriminate H].
  destruct (calculate_yield_to_maturity (match bp with Some p => p | None => P end)
              M c f N v 100 (/ 10 ^ 8)) as [y|e]; cbn [bind] in H; [|discriminate H].
  destruct (arange (v + f) (M + eps10) f) as [ts|e] eqn:Hts; cbn [bind] in H;
    [|discriminate H].
  destruct (forward_rates_loop (bond_rate_model a) v f ts) as [fr|e] eqn:Hfr;
    cbn [bind] in H; [|discriminate H].
  destruct (price_cap om v Kc f N vol v M) as [cp|e]; cbn [bind] in H; [|discriminate H].
  exists ts, fr. split; [reflexivity|]. split; [exact Hfr|].
  destruct fs as [Kf|].
  - destruct (price_floor om v Kf f N vol v M) as [fp|e]; cbn [bind] in H; [|discriminate H].
    injection H as <-. cbn [avg_forward_rate cf_cap_strategy cf_cap_arbitrage cf_floor].
    split; [reflexivity|]. split; [reflexivity|]. split; [reflexivity|].
    intros fa Hfa. injection Hfa as <-. exists Kf.
    cbn [fa_floor_strategy fa_floor_arbitrage fa_collar_strategy fa_collar_arbitrage].
    split; [reflexivity|]. split; [reflexivity|]. split; [reflexivity|].
    rewrite <- surjective_pairing. reflexivity.
  - cbn [bind] in H. injection H as <-.
    cbn [avg_forward_rate cf_cap_strategy cf_cap_arbitrage cf_floor].
    split; [reflexivity|]. split; [reflexivity|]. split; [reflexivity|].
    intros fa Hfa. discriminate Hfa.
Qed.

(** X25: in [analyze_bond_vs_capfloor] with a positive frequency, every date
    [t] of the schedule passes the [t - frequency >= valuation_date] filter.
    If the schedule is empty ([maturity + 1e-10 <= valuation_date +
    frequency]) the average forward rate falls back to the model's [r0];
    otherwise it is the mean of the forward rates of the schedule's periods,
    so it lies within any bounds [lo, hi] of the model's forward rates from
    the valuation date on, and when [lo] exceeds [cap_strike +
    spread_tolerance] the analysis recommends buying the cap. *)
Theorem capfloor_average_forward : forall a M c Kc fs bp f N v vol tc tol r lo hi,
  0 < f ->
  (forall t1 t2 F, v <= t1 ->
     forward_rate (bond_rate_model a) v t1 t2 (r0 (bond_rate_model a)) = Ok F ->
     lo <= F <= hi) ->
  analyze_bond_vs_capfloor a M c Kc fs bp f N v vol tc tol = Ok r ->
  (M + eps10 <= v + f -> avg_forward_rate r = r0 (bond_rate_model a)) /\
  (v + f < M + eps10 ->
     lo <= avg_forward_rate r <= hi /\
     (Kc + tol < lo -> cf_cap_strategy r = BuyCap /\ cf_cap_arbitrage r = true)).
Proof.
  intros a M c Kc fs bp f N v vol tc tol r lo hi Hf Hfwd H.
  destruct (analyze_bond_vs_capfloor_spec a M c Kc fs bp f N v vol tc tol r H)
    as [ts [fr [Hts [Hfr [Havg [Hcs [Hca _]]]]]]].
  assert (Hge : forall t, In t ts -> v <= t - f).
  { intros t Ht. destruct (arange_in _ _ _ ts t Hf Hts Ht) as [_ [i ->]].
    pose proof (pos_INR i). assert (0 <= INR i * f) by (apply Rmult_le_pos; lra). lra. }
  destruct (forward_rates_loop_spec _ v f ts fr Hge Hfr) as [Hlen Hin].
  split.
  - intros Hle. apply arange_Ok in Hts. destruct Hts as [_ Hts].
    rewrite Rceil_nonpos in Hts.
    + subst ts. destruct fr; [|discriminate Hlen]. exact Havg.
    + unfold Rdiv. pose proof (Rinv_0_lt_compat f Hf). nra.
  - intros Hlt. apply arange_Ok in Hts. destruct Hts as [_ Hts].
    assert (Hq : 0 < (M + eps10 - (v + f)) / f)
      by (unfold Rdiv; apply Rmult_lt_0_compat; [lra|apply Rinv_0_lt_compat; exact Hf]).
    destruct (Z.to_nat (Rceil ((M + eps10 - (v + f)) / f))) as [|k] eqn:Hk.
    { pose proof (Rceil_pos _ Hq). lia. }
    cbn [seq map] in Hts. subst ts.
    destruct fr as [|F0 fr']; [discriminate Hlen|].
    assert (Hb : lo <= avg_forward_rate r <= hi).
    { rewrite Havg. unfold average_forward_rate. apply mean_between; [discriminate|].
      intros F HF. destruct (Hin F HF) as [t [Ht HFt]].
      apply (Hfwd (t - f) t F); [apply Hge; exact Ht|exact HFt]. }
    split; [exact Hb|]. intros Hlo. rewrite Hcs, Hca. unfold cap_decision.
    destruct (Rlt_dec (Kc + tol) (avg_forward_rate r)); [split; reflexivity|lra].
Qed.

Lemma demo_capfloor_analysis : exists r fa,
  analyze_bond_vs_capfloor
    (mkArbitrageAnalyzer (flat_rate_model (3/100) (5/100)) 0 None
       (Some (flat_rate_model (3/100) (5/100))))
    1 (4/100) (3/100) (Some (1/100)) None 1 100 0 (Some (15/1000)) 0 (5/10000) = Ok r /\
  cf_floor r = Some fa.
Proof.
  pose proof eps10_bounds as He.
  assert (Ha : arange (0 + 1) (1 + eps10) 1 = Ok [0 + 1])
    by (apply arange_single; lra).
  unfold analyze_bond_vs_capfloor.
  cbn [option_rate_model bond_rate_model bond_credit_spread].
  rewrite demo_fixed_price. cbn [bind].
  destruct (ytm_ok (0 + 100 * (4/100) * 1 * exp (- (5/100) * (1 - 0))
                    + 100 * exp (- (5/100) * (1 - 0))) 1 (4/100) 1 100 0
              (fun H => price_fixed_dates _ 0 1 (4/100) 1 100 0 _ H demo_fixed_price)) as [y Hy].
  rewrite Hy. cbn [bind]. rewrite Ha. cbn [bind forward_rates_loop].
  destruct (Rge_dec (0 + 1 - 1) 0) as [_|Hn]; [|lra].
  cbn [bind flat_rate_model forward_rate r0].
  unfold price_cap, price_floor. rewrite Ha. cbn [bind cap_loop flat_rate_model forward_rate
    zero_coupon_bond_price r0].
  destruct (Rge_dec 0 (0 + 1)) as [Hn|_]; [lra|]. cbn [bind].
  unfold black_price_caplet, black_price_floorlet.
  destruct (Rle_dec (Rmax 0 (0 - 0)) 0) as [_|Hn].
  2:{ exfalso. apply Hn. unfold Rmax. destruct (Rle_dec 0 (0 - 0)); lra. }
  cbn [bind cap_loop]. eexists. eexists. split; reflexivity.
Qed.

(** X26: the recommendations of [analyze_bond_vs_capfloor] are consistent
    with a non-negative [spread_tolerance]: a "buy the cap, sell the floor"
    collar comes only with "buy the cap" and "sell the floor", and a reverse
    collar only with "sell the cap" and "buy the floor". *)
Theorem capfloor_collar_consistent : forall a M c Kc fs bp f N v vol tc tol r fa,
  0 <= tol ->
  analyze_bond_vs_capfloor a M c Kc fs bp f N v vol tc tol = Ok r ->
  cf_floor r = Some fa ->
  (fa_collar_strategy fa = BuyCapSellFloor ->
     cf_cap_strategy r = BuyCap /\ fa_floor_strategy fa = SellFloor) /\
  (fa_collar_strategy fa = SellCapBuyFloor ->
     cf_cap_strategy r = SellCap /\ fa_floor_strategy fa = BuyFloor).
Proof.
  intros a M c Kc fs bp f N v vol tc tol r fa Htol H Hfa.
  destruct (analyze_bond_vs_capfloor_spec a M c Kc fs bp f N v vol tc tol r H)
    as [ts [fr [_ [_ [_ [Hcs [_ Hfl]]]]]]].
  destruct (Hfl fa Hfa) as [Kf [_ [Hfs [_ Hcol]]]].
  rewrite Hcs, Hfs.
  set (A := avg_forward_rate r) in *.
  destruct fa as [fk fp fstr farb cp cstr carb]. cbn in Hfs, Hcol |- *.
  unfold cap_decision, floor_decision, collar_decision, Rltb in *.
  destruct (Rlt_dec (Kc + tol) A); destruct (Rlt_dec A (Kc - tol));
    destruct (Rlt_dec A (Kf - tol)); destruct (Rlt_dec (Kf + tol) A);
    destruct (Rlt_dec Kc A); destruct (Rlt_dec Kf A);
    destruct (Rlt_dec A Kc); destruct (Rlt_dec A Kf);
    cbn in Hcol; injection Hcol as -> ->;
    split; intros Hc; try discriminate Hc; try (split; reflexivity); lra.
Qed.

Lemma capfloor_collar_consistent_witness : exists r fa,
  analyze_bond_vs_capfloor
    (mkArbitrageAnalyzer (flat_rate_model (3/100) (5/100)) 0 None
       (Some (flat_rate_model (3/100) (5/100))))
    1 (4/100) (3/100) (Some (1/100)) None 1 100 0 (Some (15/1000)) 0 (5/10000) = Ok r /\
  cf_floor r = Some fa /\
  (fa_collar_strategy fa = BuyCapSellFloor ->
     cf_cap_strategy r = BuyCap /\ fa_floor_strategy fa = SellFloor) /\
  (fa_collar_strategy fa = SellCapBuyFloor ->
     cf_cap_strategy r = SellCap /\ fa_floor_strategy fa = BuyFloor).
Proof.
  destruct demo_capfloor_analysis as [r [fa [Hr Hfa]]].
  exists r, fa. split; [exact Hr|]. split; [exact Hfa|].
  exact (capfloor_collar_consistent _ 1 (4/100) (3/100) (Some (1/100)) None 1 100 0
           (Some (15/1000)) 0 (5/10000) r fa ltac:(lra) Hr Hfa).
Defined.

Lemma capfloor_average_forward_witness : exists r,
  analyze_bond_vs_capfloor
    (mkArbitrageAnalyzer (flat_rate_model (3/100) (5/100)) 0 None
       (Some (flat_rate_model (3/100) (5/100))))
    1 (4/100) (3/100) (Some (1/100)) None 1 100 0 (Some (15/1000)) 0 (5/10000) = Ok r /\
  (1 + eps10 <= 0 + 1 -> avg_forward_rate r = 3/100) /\
  (0 + 1 < 1 + eps10 ->
     5/100 <= avg_forward_rate r <= 5/100 /\
     (3/100 + 5/10000 < 5/100 -> cf_cap_strategy r = BuyCap /\ cf_cap_arbitrage r = true)).
Proof.
  destruct demo_capfloor_analysis as [r [fa [Hr _]]].
  exists r. split; [exact Hr|].
  refine (capfloor_average_forward
            (mkArbitrageAnalyzer (flat_rate_model (3/100) (5/100)) 0 None
               (Some (flat_rate_model (3/100) (5/100))))
            1 (4/100) (3/100) (Some (1/100)) None 1 100 0 (Some (15/1000)) 0 (5/10000) r
            (5/100) (5/100) ltac:(lra) _ Hr).
  intros t1 t2 F _ HF. cbn in HF. injection HF as <-. lra.
Defined.

(** ** Hedge values and transaction costs of [simulate] *)

Section HedgingCells.
Variable instrument_price : RateModel -> R -> R.
Variable compute_hedge_ratio : R -> R -> R.

Local Notation cells_eq st' st i j :=
  (st_instrument_values st' i j = st_instrument_values st i j /\
   st_hedge_values st' i j = st_hedge_values st i j /\
   st_hedge_ratios st' i j = st_hedge_ratios st i j /\
   st_pnl st' i j = st_pnl st i j /\
   st_hedge_costs st' i j = st_hedge_costs st i j).

(** Step [t] of row [i]: the hedge value uses the previous ratio, the cost is
    the ratio change priced at one basis point of the rate. *)
Local Notation hedge_cell st rates i t :=
  (st_hedge_values st i t = st_hedge_ratios st i (t - 1)%nat * rates i t /\
   st_hedge_costs st i t =
     Rabs (st_hedge_ratios st i t - st_hedge_ratios st i (t - 1)%nat) * / 10000 * rates i t).

Lemma hedge_step_cells_frame : forall rates times steps path t st i j,
  i <> path \/ j <> t ->
  cells_eq (hedge_step instrument_price compute_hedge_ratio rates times steps path t st) st i j.
Proof.
  intros rates times steps path t st i j H. unfold hedge_step.
  destruct (is_rebalance_step steps t); cbn [st_instrument_values st_hedge_values
    st_hedge_ratios st_pnl st_hedge_costs]; rewrite ?(upd_other _ path t _ i j H);
    repeat split; reflexivity.
Qed.

Lemma step_loop_cells_frame : forall rates times steps path k t st i j,
  i <> path \/ (j < t)%nat ->
  cells_eq (step_loop instrument_price compute_hedge_ratio rates times steps path k t st) st i j.
Proof.
  intros rates times steps path k. induction k as [|k IH]; intros t st i j H.
  - repeat split; reflexivity.
  - cbn [step_loop].
    destruct (IH (S t) (hedge_step instrument_price compute_hedge_ratio rates times steps path t st)
                i j ltac:(destruct H; [left|right]; lia)) as [E1 [E2 [E3 [E4 E5]]]].
    destruct (hedge_step_cells_frame rates times steps path t st i j
                ltac:(destruct H; [left|right]; lia)) as [F1 [F2 [F3 [F4 F5]]]].
    rewrite E1, E2, E3, E4, E5, F1, F2, F3, F4, F5. repeat split; reflexivity.
Qed.

Lemma hedge_step_cell : forall rates times steps path t st,
  (1 <= t)%nat -> st_hedge_costs st path t = 0 ->
  hedge_cell (hedge_step instrument_price compute_hedge_ratio rates times steps path t st)
    rates path t.
Proof.
  intros rates times steps path t st Ht Hz.
  assert (Ht1 : (t - 1)%nat <> t) by lia.
  unfold hedge_step.
  destruct (is_rebalance_step steps t); cbn [st_hedge_values st_hedge_ratios st_hedge_costs];
    rewrite ?upd_same, ?(upd_other _ path t _ path (t - 1)%nat (or_intror Ht1));
    (split; [reflexivity|]).
  - reflexivity.
  - rewrite Hz, Rminus_diag_eq, Rabs_R0 by reflexivity. ring.
Qed.

Lemma step_loop_cells : forall rates times steps path k t st,
  (1 <= t)%nat -> (forall j, (t <= j)%nat -> st_hedge_costs st path j = 0) ->
  forall j, (t <= j < t + k)%nat ->
  hedge_cell (step_loop instrument_price compute_hedge_ratio rates times steps path k t st)
    rates path j.
Proof.
  intros rates times steps path k. induction k as [|k IH]; intros t st Ht Hz j Hj; [lia|].
  cbn [step_loop].
  set (st1 := hedge_step instrument_price compute_hedge_ratio rates times steps path t st).
  destruct (Nat.eq_dec j t) as [->|Hne].
  - pose proof (hedge_step_cell rates times steps path t st Ht (Hz t (le_n t))) as Hl.
    fold st1 in Hl.
    destruct (step_loop_cells_frame rates times steps path k (S t) st1 path t
                ltac:(right; lia)) as [_ [E2 [E3 [_ E5]]]].
    destruct (step_loop_cells_frame rates times steps path k (S t) st1 path (t - 1)%nat
                ltac:(right; lia)) as [_ [_ [F3 _]]].
    rewrite E2, E3, E5, F3. exact Hl.
  - apply IH; [lia| |lia]. intros j' Hj'. unfold st1.
    rewrite (proj2 (proj2 (proj2 (proj2 (hedge_step_cells_frame rates times steps path t st
               path j' ltac:(right; lia)))))).
    apply Hz. lia.
Qed.

Lemma path_body_cells_frame : forall rates times steps path ts st i j,
  i <> path ->
  cells_eq (path_body instrument_price compute_hedge_ratio rates times steps path ts st) st i j.
Proof.
  intros rates times steps path ts st i j H. unfold path_body.
  match goal with
  | |- context [step_loop _ _ _ _ _ _ _ _ ?s0] =>
      destruct (step_loop_cells_frame rates times steps path ts 1 s0 i j (or_introl H))
        as [E1 [E2 [E3 [E4 E5]]]]
  end.
  rewrite E1, E2, E3, E4, E5.
  cbn [st_instrument_values st_hedge_values st_hedge_ratios st_pnl st_hedge_costs].
  rewrite !(upd_other _ path 0 _ i j (or_introl H)). repeat split; reflexivity.
Qed.

Lemma path_body_cells : forall rates times steps path ts st,
  (forall j, st_hedge_costs st path j = 0) ->
  let st' := path_body instrument_price compute_hedge_ratio rates times steps path ts st in
  st_hedge_values st' path 0%nat = st_hedge_ratios st' path 0%nat * rates path 0%nat /\
  forall j, (1 <= j <= ts)%nat -> hedge_cell st' rates path j.
Proof.
  intros rates times steps path ts st Hz st'. unfold st', path_body.
  match goal with
  | |- context [step_loop _ _ _ _ _ _ _ _ ?s0] => set (s1 := s0)
  end.
  split.
  - destruct (step_loop_cells_frame rates times steps path ts 1 s1 path 0%nat
                ltac:(right; lia)) as [_ [E2 [E3 _]]].
    rewrite E2, E3. unfold s1. cbn [st_hedge_values st_hedge_ratios]. rewrite !upd_same.
    reflexivity.
  - intros j Hj. apply step_loop_cells; [lia| |lia].
    intros j' _. unfold s1. cbn [st_hedge_costs]. apply Hz.
Qed.

Lemma path_loop_cells_frame : forall rates times steps ts k path st i j,
  (i < path \/ path + k <= i)%nat ->
  cells_eq (path_loop instrument_price compute_hedge_ratio rates times steps ts k path st)
    st i j.
Proof.
  intros rates times steps ts k. induction k as [|k IH]; intros path st i j H.
  - repeat split; reflexivity.
  - cbn [path_loop].
    destruct (IH (S path) (path_body instrument_price compute_hedge_ratio rates times steps
                path ts st) i j ltac:(lia)) as [E1 [E2 [E3 [E4 E5]]]].
    destruct (path_body_cells_frame rates times steps path ts st i j ltac:(lia))
      as [F1 [F2 [F3 [F4 F5]]]].
    rewrite E1, E2, E3, E4, E5, F1, F2, F3, F4, F5. repeat split; reflexivity.
Qed.

Lemma path_loop_cells : forall rates times steps ts k path st,
  (forall i j, (path <= i < path + k)%nat -> st_hedge_costs st i j = 0) ->
  forall i, (path <= i < path + k)%nat ->
  let st' := path_loop instrument_price compute_hedge_ratio rates times steps ts k path st in
  st_hedge_values st' i 0%nat = st_hedge_ratios st' i 0%nat * rates i 0%nat /\
  forall j, (1 <= j <= ts)%nat -> hedge_cell st' rates i j.
Proof.
  intros rates times steps ts k. induction k as [|k IH]; intros path st Hz i Hi st'; [lia|].
  unfold st'. cbn [path_loop].
  set (st1 := path_body instrument_price compute_hedge_ratio rates times steps path ts st).
  destruct (Nat.eq_dec i path) as [->|Hne].
  - destruct (path_body_cells rates times steps path ts st (fun j => Hz path j ltac:(lia)))
      as [H0 H1].
    fold st1 in H0, H1.
    assert (Hf : forall j, cells_eq (path_loop instrument_price compute_hedge_ratio rates times
                   steps ts k (S path) st1) st1 path j)
      by (intros j; apply path_loop_cells_frame; lia).
    split.
    + destruct (Hf 0%nat) as [_ [E2 [E3 _]]]. rewrite E2, E3. exact H0.
    + intros j Hj. destruct (H1 j Hj) as [A B].
      destruct (Hf j) as [_ [E2 [E3 [_ E5]]]]. destruct (Hf (j - 1)%nat) as [_ [_ [F3 _]]].
      rewrite E2, E3, E5, F3. split; assumption.
  - apply IH; [|lia]. intros i' j Hi'. unfold st1.
    rewrite (proj2 (proj2 (proj2 (proj2 (path_body_cells_frame rates times steps path ts st
               i' j ltac:(lia)))))).
    apply Hz. lia.
Qed.

End HedgingCells.

(** X28: the hedge bookkeeping of [simulate], for every simulated path [i]:
    the initial hedge value is [hedge_ratios[i, 0] * rates[i, 0]]; at every
    later step [t] the hedge value is [hedge_ratios[i, t-1] * rates[i, t]]
    and the transaction cost is
    [|hedge_ratios[i, t] - hedge_ratios[i, t-1]| * 0.0001 * rates[i, t]]. *)
Theorem simulate_hedge_cells :
  forall instrument_price compute_hedge_ratio rebalance_frequency simulate_rates
         fuel m n tharg Rs m',
  simulate instrument_price compute_hedge_ratio rebalance_frequency simulate_rates
    fuel m n tharg = Some (Ok (Rs, m')) ->
  forall i, (i < n)%nat ->
  res_hedge_values Rs i 0%nat = res_hedge_ratios Rs i 0%nat * res_rates Rs i 0%nat /\
  forall t, (1 <= t <= res_timesteps Rs)%nat ->
    res_hedge_values Rs i t = res_hedge_ratios Rs i (t - 1)%nat * res_rates Rs i t /\
    res_hedge_costs Rs i t =
      Rabs (res_hedge_ratios Rs i t - res_hedge_ratios Rs i (t - 1)%nat) * / 10000
      * res_rates Rs i t.
Proof.
  intros ip chr rf sr fuel m n tharg Rs m' H i Hi. unfold simulate in H.
  destruct (adapt_model m (horizon_arg m tharg)) as [m1|e]; [|discriminate].
  destruct (sr m1 n) as [rates|e]; [|discriminate].
  destruct (rebalance_loop rf fuel (horizon_arg m tharg) (dt m1) (timesteps m1) 0 [])
    as [[steps|e]|]; try discriminate.
  inversion H; subst Rs m'. clear H.
  cbn [res_hedge_values res_hedge_ratios res_hedge_costs res_rates res_timesteps].
  apply path_loop_cells; [|lia].
  intros i' j _. reflexivity.
Qed.

Lemma simulate_hedge_cells_witness :
  exists Rs m',
    simulate (fun m _ => r0 m) (fun t _ => t) 1
      (fun m _ => Ok (fun i j => r0 m + INR (i + j) / 100)) 5 demo_hedge_model 2 (Some 2)
    = Some (Ok (Rs, m')) /\
    (1 < 2)%nat /\
    (res_hedge_values Rs 1%nat 0%nat = res_hedge_ratios Rs 1%nat 0%nat * res_rates Rs 1%nat 0%nat /\
     forall t, (1 <= t <= res_timesteps Rs)%nat ->
       res_hedge_values Rs 1%nat t = res_hedge_ratios Rs 1%nat (t - 1)%nat * res_rates Rs 1%nat t /\
       res_hedge_costs Rs 1%nat t =
         Rabs (res_hedge_ratios Rs 1%nat t - res_hedge_ratios Rs 1%nat (t - 1)%nat) * / 10000
         * res_rates Rs 1%nat t) /\
    res_timesteps Rs = 2%nat /\
    res_hedge_ratios Rs 1%nat 1%nat = 1 /\ res_hedge_ratios Rs 1%nat 2%nat = 2 /\
    res_hedge_values Rs 1%nat 2%nat = 6 / 100 /\ res_hedge_costs Rs 1%nat 2%nat = 6 / 1000000.
Proof.
  destruct demo_hedge_run as [Rs [m' [H [_ [Hts [Hr [Hh [_ [_ [_ [_ [_ [_ [_ C12]]]]]]]]]]]]]].
  exists Rs, m'. split; [exact H|]. split; [lia|].
  pose proof (simulate_hedge_cells (fun m _ => r0 m) (fun t _ => t) 1
             (fun m _ => Ok (fun i j => r0 m + INR (i + j) / 100)) 5 demo_hedge_model 2%nat (Some 2)
             Rs m' H 1%nat ltac:(lia)) as HC.
  split; [exact HC|]. split; [exact Hts|].
  assert (E1 := Hh 1%nat 1%nat ltac:(lia) ltac:(lia)).
  assert (E2 := Hh 1%nat 2%nat ltac:(lia) ltac:(lia)).
  split; [rewrite E1; reflexivity|]. split; [rewrite E2; simpl; ring|]. split; [|exact C12].
  destruct HC as [_ HC]. rewrite Hts in HC. destruct (HC 2%nat ltac:(lia)) as [E _].
  rewrite E, Hr. replace (2 - 1)%nat with 1%nat by reflexivity. rewrite E1. simpl. field.
Defined.
